(** * Loan amortization engine of script.js

    A shallow embedding of the calculation core of [script.js]
    ([calculateLoan], the three per-method algorithms and
    [formatPayoffTime]) together with the properties stated for it, and
    of the page around it: [validateInputs], the submit, toggle,
    download and reset handlers, [showErrors], [clearErrors],
    [updateSummary], [renderSchedule] and the CSV export.

    JavaScript numbers are IEEE 754 binary64 values.  The engine is
    written once, over an interface [Number] of the arithmetic it uses,
    and the interface is instantiated twice:

    - at [float], Rocq's primitive binary64 numbers, which is what the
      program computes bit for bit ([Math.pow] apart, see below);
    - at [Q], exact rational arithmetic, the program with every rounding
      removed.

    Loop counters ([period], [totalPeriods], [maxIterations]) hold
    integers and are embedded as [N]; [paymentsPerYear], the [parseInt]
    of the frequency selector, is a [positive].

    The first part of the file is the embedding; the second part,
    Properties, states and proves what is claimed of it, and the third,
    Further properties, what else the code shows.  Statements
    about every input are proved in any arithmetic where they depend on
    the structure of the loops alone, and in binary64 where they depend
    on the numbers; particular runs are evaluated in binary64.  The
    exact instance is an idealisation, kept apart: it tells what the
    algorithms do without rounding, not what the program does. *)

From Stdlib Require Import ZArith NArith PArith QArith Qround Qpower Floats.
From Stdlib Require Import List String Ascii Bool Lia Lqa DecimalString.
From Stdlib Require Import Qabs.
From Stdlib Require Uint63.
Import ListNotations.

Local Open Scope string_scope.

(** ** The arithmetic the engine uses *)

Declare Scope num_scope.
Delimit Scope num_scope with num.

Class Number (num : Type) : Type := {
  (** an integer constant or an integer-valued count used as a number *)
  int : N -> num;
  (** the literal [0.01] *)
  cent : num;
  nadd : num -> num -> num;
  nsub : num -> num -> num;
  nmul : num -> num -> num;
  ndiv : num -> num -> num;
  (** [<], [<=] and [===] *)
  nltb : num -> num -> bool;
  nleb : num -> num -> bool;
  neqb : num -> num -> bool;
  Math_max : num -> num -> num;
  Math_min : num -> num -> num;
  (** [Math.round], as the integer it denotes *)
  Math_round : num -> Z;
  (** [Math.pow] at an integral exponent *)
  Math_pow : num -> Z -> num;
  (** [Number.isFinite] *)
  isFinite : num -> bool
}.

Notation "x + y" := (nadd x y) : num_scope.
Notation "x - y" := (nsub x y) : num_scope.
Notation "x * y" := (nmul x y) : num_scope.
Notation "x / y" := (ndiv x y) : num_scope.
Notation "x <? y" := (nltb x y) : num_scope.
Notation "x >? y" := (nltb y x) : num_scope.
Notation "x <=? y" := (nleb x y) : num_scope.
Notation "x =? y" := (neqb x y) : num_scope.

(** *** Exact rational arithmetic *)

Module ExactArith.

Definition ltb (a b : Q) : bool := negb (Qle_bool b a).
Definition max (a b : Q) : Q := if Qle_bool a b then b else a.
Definition min (a b : Q) : Q := if Qle_bool a b then a else b.
(** [Math.round] rounds to the nearest integer, halves upwards. *)
Definition round (x : Q) : Z := Qfloor (x + (1 # 2)).

#[global] Instance Number_Q : Number Q := {|
  int n := inject_Z (Z.of_N n);
  cent := 1 # 100;
  nadd := Qplus;
  nsub := Qminus;
  nmul := Qmult;
  ndiv := Qdiv;
  nltb := ltb;
  nleb := Qle_bool;
  neqb := Qeq_bool;
  Math_max := max;
  Math_min := min;
  Math_round := round;
  Math_pow := Qpower;
  isFinite := fun _ => true
|}.

End ExactArith.

(** *** IEEE 754 binary64 arithmetic *)

Module Binary64.

Definition prec : Z := 53.
Definition emax : Z := 1024.

(** The rational a finite binary64 value denotes (0 for NaN and the
    infinities, which denote none). *)
Definition SF_to_Q (x : spec_float) : Q :=
  match x with
  | S754_finite s m e =>
      let v := if (0 <=? e)%Z
               then inject_Z (Zpos m * 2 ^ e)
               else Qmake (Zpos m) (Pos.shiftl 1 (Z.to_N (- e))) in
      if s then Qopp v else v
  | _ => 0%Q
  end.

Definition to_Q (x : float) : Q := SF_to_Q (Prim2SF x).

(** The binary64 value nearest to a rational (ties to even). *)
Definition of_Q (q : Q) : float :=
  let den := S754_finite false (Qden q) 0 in
  match Qnum q with
  | Z0 => PrimFloat.zero
  | Zpos a => SF2Prim (SFdiv prec emax (S754_finite false a 0) den)
  | Zneg a => SF2Prim (SFdiv prec emax (S754_finite true a 0) den)
  end.

(** [Math.max] and [Math.min]: NaN if an argument is NaN, and [+0] is
    larger than [-0]. *)
Definition max (a b : float) : float :=
  if (is_nan a || is_nan b)%bool then nan
  else if PrimFloat.ltb a b then b
  else if PrimFloat.ltb b a then a
  else if get_sign a then b else a.

Definition min (a b : float) : float :=
  if (is_nan a || is_nan b)%bool then nan
  else if PrimFloat.ltb a b then a
  else if PrimFloat.ltb b a then b
  else if get_sign a then a else b.

(** [Math.round] of a finite value: the integer [floor (x + 1/2)],
    taken on the exact value of [x].  NaN and the infinities have no
    integer value; the engine is not modelled on them (see
    [totalPeriods]). *)
Definition round (x : float) : Z := Qfloor (to_Q x + (1 # 2)).

(** [Math.pow] is a host builtin whose result ECMAScript leaves
    implementation-approximated.  At an integral exponent it is modelled
    by the power computed to 256 significant bits (binary
    exponentiation on a mantissa and an exponent, every product
    truncated to 256 bits) and then rounded to the nearest binary64
    value.  That is the correctly rounded power unless the exact power
    lies within 2^-240, relatively, of the midpoint of two binary64
    values; an engine's result differs from it by an ulp at most. *)
Definition significant_bits : Z := 256.

(** [m * 2^e] with [m] cut down to its leading 256 bits. *)
Definition truncate (v : Z * Z) : Z * Z :=
  let (m, e) := v in
  let excess := (Z.log2 m + 1 - significant_bits)%Z in
  if (0 <? excess)%Z then (Z.shiftr m excess, (e + excess)%Z) else v.

Definition mul_truncated (a b : Z * Z) : Z * Z :=
  truncate ((fst a * fst b)%Z, (snd a + snd b)%Z).

(** The rational [m * 2^e], or its inverse. *)
Definition scaled (inverse : bool) (v : Z * Z) : Q :=
  let (m, e) := v in
  let q := if (0 <=? e)%Z
           then inject_Z (m * 2 ^ e)
           else Qmake m (Pos.shiftl 1 (Z.to_N (- e))) in
  if inverse then Qinv q else q.

Definition pow (x : float) (n : Z) : float :=
  match n with
  | Z0 => PrimFloat.one
  | Zpos k | Zneg k =>
      let inverse := match n with Zneg _ => true | _ => false end in
      match Prim2SF x with
      | S754_nan => nan
      | S754_zero s =>
          let negative := (s && Z.odd (Zpos k))%bool in
          if inverse
          then (if negative then neg_infinity else infinity)
          else (if negative then neg_zero else PrimFloat.zero)
      | S754_infinity s =>
          let negative := (s && Z.odd (Zpos k))%bool in
          if inverse
          then (if negative then neg_zero else PrimFloat.zero)
          else (if negative then neg_infinity else infinity)
      | S754_finite s m e =>
          let magnitude :=
            of_Q (scaled inverse (Pos.iter_op mul_truncated k (Zpos m, e))) in
          if (s && Z.odd (Zpos k))%bool then PrimFloat.opp magnitude else magnitude
      end
  end.

(** The literal [0.01] denotes the binary64 value nearest to 1/100. *)
Definition one_cent : float := Eval vm_compute in of_Q (1 # 100).

#[global] Instance Number_float : Number float := {|
  int n := of_Q (inject_Z (Z.of_N n));
  cent := one_cent;
  nadd := PrimFloat.add;
  nsub := PrimFloat.sub;
  nmul := PrimFloat.mul;
  ndiv := PrimFloat.div;
  nltb := PrimFloat.ltb;
  nleb := PrimFloat.leb;
  neqb := PrimFloat.eqb;
  Math_max := max;
  Math_min := min;
  Math_round := round;
  Math_pow := pow;
  isFinite := is_finite
|}.

End Binary64.

(** ** Data model *)

(** [METHODS] *)
Module METHODS.
Definition AMORTIZED : string := "amortized".
Definition EQUAL_PRINCIPAL : string := "equal_principal".
Definition INTEREST_ONLY : string := "interest_only".
End METHODS.

(** A value of the [method] property: a string, or anything else
    ([undefined], [null], a number, ...). *)
Inductive MethodValue : Type :=
| MethodString (s : string)
| MethodOther.

(** [v === s] for a string constant [s]: a value that is not a string is
    never strictly equal to one. *)
Definition strict_equals (v : MethodValue) (s : string) : bool :=
  match v with
  | MethodString t => String.eqb t s
  | MethodOther => false
  end.

(** The parameter object handed to [calculateLoan]. *)
Record Params (num : Type) : Type := {
  principal : num;
  annualRate : num;
  years : num;
  paymentsPerYear : positive;
  method : MethodValue;
  extraPayment : num
}.
Arguments principal {num} _.
Arguments annualRate {num} _.
Arguments years {num} _.
Arguments paymentsPerYear {num} _.
Arguments method {num} _.
Arguments extraPayment {num} _.

(** One row of the schedule: [{period, payment, principal, interest,
    balance}]. *)
Module Entry.
Record t (num : Type) : Type := mk {
  period : N;
  payment : num;
  principal : num;
  interest : num;
  balance : num
}.
Arguments mk {num} _ _ _ _ _.
Arguments period {num} _.
Arguments payment {num} _.
Arguments principal {num} _.
Arguments interest {num} _.
Arguments balance {num} _.
End Entry.

(** [summary.paymentInfo], tagged by its [type] field. *)
Inductive PaymentInfo (num : Type) : Type :=
| AmortizedInfo (paymentPerPeriod basePayment extraPayment : num)
| EqualPrincipalInfo (firstPayment lastPayment extraPayment : num)
| InterestOnlyInfo (firstPayment lastPayment extraPayment : num).
Arguments AmortizedInfo {num} _ _ _.
Arguments EqualPrincipalInfo {num} _ _ _.
Arguments InterestOnlyInfo {num} _ _ _.

Record Summary (num : Type) : Type := {
  paymentInfo : PaymentInfo num;
  totalPaid : num;
  totalInterest : num;
  payoffLabel : string
}.
Arguments paymentInfo {num} _.
Arguments totalPaid {num} _.
Arguments totalInterest {num} _.
Arguments payoffLabel {num} _.

Record LoanResult (num : Type) : Type := {
  schedule : list (Entry.t num);
  summary : Summary num
}.
Arguments schedule {num} _.
Arguments summary {num} _.

(** ** Payoff-duration formatter *)

(** [frequencyLabels], an object used as a map from the payment
    frequency to its label; a lookup of an absent key is [undefined]. *)
Definition frequencyLabels : list (positive * string) :=
  [(12%positive, "月"); (26%positive, "两周"); (52%positive, "周")].

Fixpoint lookup_label (table : list (positive * string)) (key : positive)
  : option string :=
  match table with
  | [] => None
  | (k, v) :: rest => if Pos.eqb k key then Some v else lookup_label rest key
  end.

(** [v || d] on a possibly undefined string: [undefined] and the empty
    string are falsy. *)
Definition or_default (v : option string) (d : string) : string :=
  match v with
  | Some EmptyString => d
  | Some s => s
  | None => d
  end.

(** The decimal text a template literal gives a non-negative integer
    (below 10^21, where JavaScript switches to exponent notation). *)
Definition Number_toString (n : N) : string :=
  NilZero.string_of_uint (N.to_uint n).

(** [array.push(x)] *)
Definition push {A : Type} (l : list A) (x : A) : list A := (l ++ [x])%list.

(** [parts.join] with the empty separator *)
Definition join_parts (parts : list string) : string :=
  String.concat EmptyString parts.

Definition formatPayoffTime (periods : N) (paymentsPerYear : positive) : string :=
  let years := (periods / Npos paymentsPerYear)%N in
  let remainder := (periods mod Npos paymentsPerYear)%N in
  let periodLabel := or_default (lookup_label frequencyLabels paymentsPerYear) "期" in
  if ((years =? 0)%N && (remainder =? 0)%N)%bool then "不足一个周期"
  else
    let parts : list string := [] in
    let parts :=
      if (0 <? years)%N then push parts (Number_toString years ++ "年") else parts in
    let parts :=
      if (0 <? remainder)%N then
        if (paymentsPerYear =? 12)%positive then
          push parts (Number_toString remainder ++ "个月")
        else if (paymentsPerYear =? 26)%positive then
          push parts (Number_toString remainder ++ "个两周期")
        else if (paymentsPerYear =? 52)%positive then
          push parts (Number_toString remainder ++ "周")
        else
          push parts (Number_toString remainder ++ periodLabel)
      else parts in
    join_parts parts.

(** ** Loops with [break] *)

(** How a [while] loop was left: its condition turned false, its body
    executed [break], or the fuel of the embedding ran out (which the
    engine's loops never do, see [while_enough_fuel]). *)
Inductive Exit : Type := ExitCond | ExitBreak | ExitFuel.

(** Equality of exits, as a test. *)
Definition Exit_eqb (a b : Exit) : bool :=
  match a, b with
  | ExitCond, ExitCond | ExitBreak, ExitBreak | ExitFuel, ExitFuel => true
  | _, _ => false
  end.

Section While.

Context {S : Type}.
Variable cond : S -> bool.
(** The body returns the new state and whether it ended in [break]. *)
Variable body : S -> S * bool.

Fixpoint while (fuel : nat) (s : S) : S * Exit :=
  if cond s then
    match fuel with
    | O => (s, ExitFuel)
    | Datatypes.S fuel' =>
        let (s', stop) := body s in
        if stop then (s', ExitBreak) else while fuel' s'
    end
  else (s, ExitCond).

End While.

(** ** The engine *)

(** The local variables of a period loop. *)
Module Loop.
Record t (num : Type) : Type := mk {
  balance : num;
  period : N;
  totalInterest : num;
  totalPaid : num;
  schedule : list (Entry.t num)
}.
Arguments mk {num} _ _ _ _ _.
Arguments balance {num} _.
Arguments period {num} _.
Arguments totalInterest {num} _.
Arguments totalPaid {num} _.
Arguments schedule {num} _.
End Loop.

Section Engine.

Context {num : Type} `{Number num}.
Local Open Scope num_scope.

(** *** What the three methods share *)

(** [annualRate > 0 ? annualRate / 100 / paymentsPerYear : 0] *)
Definition periodicRate (p : Params num) : num :=
  if annualRate p >? int 0
  then annualRate p / int 100 / int (Npos (paymentsPerYear p))
  else int 0.

(** [Math.max(1, Math.round(years * paymentsPerYear))].  The product is
    taken to be finite: on NaN the JavaScript loop bound is NaN and on
    an infinity it is infinite, neither of which is a count.  What is
    stated of the loops of the source is stated where [term_is_count]
    holds. *)
Definition totalPeriods (p : Params num) : N :=
  Z.to_N (Z.max 1 (Math_round (years p * int (Npos (paymentsPerYear p))))).

(** [totalPeriods * 2 + 10].  The counts are exact integers here; in
    JavaScript they are so below 2^53, far beyond any schedule that fits
    in memory. *)
Definition maxIterations (p : Params num) : N := (totalPeriods p * 2 + 10)%N.

(** The locals before the first period. *)
Definition loop_init (p : Params num) : Loop.t num :=
  Loop.mk (principal p) 0%N (int 0) (int 0) [].

(** [balance > 0 && period < maxIterations] *)
Definition loop_cond (maxIterations : N) (s : Loop.t num) : bool :=
  ((Loop.balance s >? int 0) && (Loop.period s <? maxIterations)%N)%bool.

(** The end of every loop body:
    [if (balance <= 0.01) { balance = 0; break; }] *)
Definition payoff_check (s : Loop.t num) : Loop.t num * bool :=
  if Loop.balance s <=? cent
  then (Loop.mk (int 0) (Loop.period s) (Loop.totalInterest s)
          (Loop.totalPaid s) (Loop.schedule s), true)
  else (s, false).

(** [periodicRate === 0 ? 0 : balance * periodicRate] *)
Definition period_interest (periodicRate balance : num) : num :=
  if periodicRate =? int 0 then int 0 else balance * periodicRate.

(** *** Amortized method *)

Definition basePayment (p : Params num) : num :=
  if periodicRate p =? int 0
  then principal p / int (totalPeriods p)
  else (principal p * periodicRate p) /
       (int 1 - Math_pow (int 1 + periodicRate p) (- Z.of_N (totalPeriods p))).

Definition paymentWithExtra (p : Params num) : num :=
  basePayment p + extraPayment p.

(** One period, up to and including [schedule.push]; the constants
    computed before the loop are its first arguments. *)
Definition amortized_step (periodicRate paymentWithExtra : num)
  (s : Loop.t num) : Loop.t num :=
  let period := (Loop.period s + 1)%N in
  let interest := period_interest periodicRate (Loop.balance s) in
  let payment := Math_min paymentWithExtra (Loop.balance s + interest) in
  let principalPaid := payment - interest in
  let capped := principalPaid >? Loop.balance s in
  let principalPaid := if capped then Loop.balance s else principalPaid in
  let payment := if capped then principalPaid + interest else payment in
  let balance := Math_max (int 0) (Loop.balance s - principalPaid) in
  Loop.mk balance period
    (Loop.totalInterest s + interest)
    (Loop.totalPaid s + payment)
    (push (Loop.schedule s)
       (Entry.mk period payment principalPaid interest balance)).

Definition amortized_body (periodicRate paymentWithExtra : num)
  (s : Loop.t num) : Loop.t num * bool :=
  payoff_check (amortized_step periodicRate paymentWithExtra s).

Definition amortized_run (p : Params num) : Loop.t num * Exit :=
  let rate := periodicRate p in
  let pay := paymentWithExtra p in
  let cap := maxIterations p in
  while (loop_cond cap) (amortized_body rate pay) (N.to_nat cap) (loop_init p).

Definition calculateAmortizedLoan (p : Params num) : LoanResult num :=
  let s := fst (amortized_run p) in
  {| schedule := Loop.schedule s;
     summary :=
       {| paymentInfo :=
            AmortizedInfo (paymentWithExtra p) (basePayment p) (extraPayment p);
          totalPaid := Loop.totalPaid s;
          totalInterest := Loop.totalInterest s;
          payoffLabel := formatPayoffTime (Loop.period s) (paymentsPerYear p) |} |}.

(** *** Equal-principal method *)

Definition basePrincipalPerPeriod (p : Params num) : num :=
  principal p / int (totalPeriods p).

Definition equal_principal_step
  (periodicRate basePrincipalPerPeriod extraPayment : num)
  (s : Loop.t num) : Loop.t num :=
  let period := (Loop.period s + 1)%N in
  let interest := period_interest periodicRate (Loop.balance s) in
  let principalPayment := basePrincipalPerPeriod + extraPayment in
  let principalPayment :=
    if principalPayment >? Loop.balance s then Loop.balance s else principalPayment in
  let payment := principalPayment + interest in
  let balance := Math_max (int 0) (Loop.balance s - principalPayment) in
  Loop.mk balance period
    (Loop.totalInterest s + interest)
    (Loop.totalPaid s + payment)
    (push (Loop.schedule s)
       (Entry.mk period payment principalPayment interest balance)).

Definition equal_principal_body
  (periodicRate basePrincipalPerPeriod extraPayment : num)
  (s : Loop.t num) : Loop.t num * bool :=
  payoff_check
    (equal_principal_step periodicRate basePrincipalPerPeriod extraPayment s).

Definition equal_principal_run (p : Params num) : Loop.t num * Exit :=
  let rate := periodicRate p in
  let base := basePrincipalPerPeriod p in
  let cap := maxIterations p in
  while (loop_cond cap) (equal_principal_body rate base (extraPayment p))
    (N.to_nat cap) (loop_init p).

(** [schedule[0]?.payment ?? 0] *)
Definition first_payment (sch : list (Entry.t num)) : num :=
  hd (int 0) (map Entry.payment sch).

(** [schedule[schedule.length - 1]?.payment ?? 0] *)
Definition last_payment (sch : list (Entry.t num)) : num :=
  last (map Entry.payment sch) (int 0).

Definition calculateEqualPrincipalLoan (p : Params num) : LoanResult num :=
  let s := fst (equal_principal_run p) in
  {| schedule := Loop.schedule s;
     summary :=
       {| paymentInfo :=
            EqualPrincipalInfo (first_payment (Loop.schedule s))
              (last_payment (Loop.schedule s)) (extraPayment p);
          totalPaid := Loop.totalPaid s;
          totalInterest := Loop.totalInterest s;
          payoffLabel := formatPayoffTime (Loop.period s) (paymentsPerYear p) |} |}.

(** *** Interest-only method with a yearly principal repayment *)

Definition fullYears (p : Params num) : N :=
  (totalPeriods p / Npos (paymentsPerYear p))%N.

Definition remainderPeriods (p : Params num) : N :=
  (totalPeriods p mod Npos (paymentsPerYear p))%N.

Definition annualRepaymentCount (p : Params num) : N :=
  N.max 1 (fullYears p + (if (0 <? remainderPeriods p)%N then 1 else 0))%N.

Definition plannedAnnualPrincipal (p : Params num) : num :=
  principal p / int (annualRepaymentCount p).

Definition interest_only_step (periodicRate : num) (paymentsPerYear : positive)
  (totalPeriods : N) (plannedAnnualPrincipal extraPayment : num)
  (s : Loop.t num) : Loop.t num :=
  let period := (Loop.period s + 1)%N in
  let interest := period_interest periodicRate (Loop.balance s) in
  let isEndOfYear := (period mod Npos paymentsPerYear =? 0)%N in
  let isFinalPeriod := (period =? totalPeriods)%N in
  let principalPaid :=
    if (isEndOfYear || isFinalPeriod)%bool
    then Math_min plannedAnnualPrincipal (Loop.balance s)
    else int 0 in
  let principalPaid :=
    if ((extraPayment >? int 0) && (Loop.balance s - principalPaid >? int 0))%bool
    then principalPaid + Math_min extraPayment (Loop.balance s - principalPaid)
    else principalPaid in
  let payment := interest + principalPaid in
  let balance := Math_max (int 0) (Loop.balance s - principalPaid) in
  Loop.mk balance period
    (Loop.totalInterest s + interest)
    (Loop.totalPaid s + payment)
    (push (Loop.schedule s)
       (Entry.mk period payment principalPaid interest balance)).

Definition interest_only_body (periodicRate : num) (paymentsPerYear : positive)
  (totalPeriods : N) (plannedAnnualPrincipal extraPayment : num)
  (s : Loop.t num) : Loop.t num * bool :=
  payoff_check
    (interest_only_step periodicRate paymentsPerYear totalPeriods
       plannedAnnualPrincipal extraPayment s).

Definition interest_only_run (p : Params num) : Loop.t num * Exit :=
  let rate := periodicRate p in
  let planned := plannedAnnualPrincipal p in
  let cap := maxIterations p in
  while (loop_cond cap)
    (interest_only_body rate (paymentsPerYear p) (totalPeriods p) planned
       (extraPayment p))
    (N.to_nat cap) (loop_init p).

Definition calculateInterestOnlyLoan (p : Params num) : LoanResult num :=
  let s := fst (interest_only_run p) in
  {| schedule := Loop.schedule s;
     summary :=
       {| paymentInfo :=
            InterestOnlyInfo (first_payment (Loop.schedule s))
              (last_payment (Loop.schedule s)) (extraPayment p);
          totalPaid := Loop.totalPaid s;
          totalInterest := Loop.totalInterest s;
          payoffLabel := formatPayoffTime (Loop.period s) (paymentsPerYear p) |} |}.

(** *** Method dispatch *)

Definition calculateLoan (p : Params num) : LoanResult num :=
  if strict_equals (method p) METHODS.EQUAL_PRINCIPAL then
    calculateEqualPrincipalLoan p
  else if strict_equals (method p) METHODS.INTEREST_ONLY then
    calculateInterestOnlyLoan p
  else
    calculateAmortizedLoan p.

(** The period loop that [calculateLoan] runs for the method of [p]. *)
Definition engine_run (p : Params num) : Loop.t num * Exit :=
  if strict_equals (method p) METHODS.EQUAL_PRINCIPAL then equal_principal_run p
  else if strict_equals (method p) METHODS.INTEREST_ONLY then interest_only_run p
  else amortized_run p.

End Engine.

(** ** What a caller observes *)

(** The completion of a call: a normal return of a value, or a thrown
    error. *)
Inductive Completion (A : Type) : Type :=
| Return (value : A)
| Throw (condition : string).
Arguments Return {A} _.
Arguments Throw {A} _.

(** The module-level variables [lastSchedule] and [lastSummary], which
    the page keeps between calculations for the CSV export. *)
Record Globals (num : Type) : Type := {
  lastSchedule : list (Entry.t num);
  lastSummary : option (Summary num)
}.
Arguments lastSchedule {num} _.
Arguments lastSummary {num} _.

Section Caller.

Context {num : Type} `{Number num}.
Local Open Scope num_scope.

(** A call of [calculateLoan].  Each of the three algorithms ends in its
    single [return {schedule, summary}]; none contains a [throw], and
    the arithmetic operators and [Math] functions never throw on
    numbers. *)
Definition call_calculateLoan (p : Params num) : Completion (LoanResult num) :=
  Return (calculateLoan p).

(** *** Vocabulary of the stated properties *)

(** The input contract: [principal > 0], [0 <= annualRate <= 100],
    [years > 0], [extraPayment >= 0], all four finite, and
    [paymentsPerYear] one of 12, 26, 52. *)
Definition valid_input (p : Params num) : bool :=
  (isFinite (principal p) && (principal p >? int 0)
   && isFinite (annualRate p)
   && (int 0 <=? annualRate p) && (annualRate p <=? int 100)
   && isFinite (years p) && (years p >? int 0)
   && isFinite (extraPayment p) && (int 0 <=? extraPayment p)
   && ((paymentsPerYear p =? 12)%positive || (paymentsPerYear p =? 26)%positive
       || (paymentsPerYear p =? 52)%positive))%bool.

(** The period loop stopped at the iteration cap with the balance still
    positive. *)
Definition capped_unpaid (p : Params num) : Prop :=
  snd (engine_run p) = ExitCond
  /\ Loop.period (fst (engine_run p)) = maxIterations p
  /\ (Loop.balance (fst (engine_run p)) >? int 0) = true.

(** The period loop stopped by its [break]: the balance had fallen to
    0.01 or below. *)
Definition ends_by_payoff (p : Params num) : Prop :=
  snd (engine_run p) = ExitBreak.

(** The sum of a field over the schedule, as a [reduce] from 0 would
    accumulate it. *)
Definition sum_of (f : Entry.t num -> num) (sch : list (Entry.t num)) : num :=
  fold_left (fun acc e => acc + f e) sch (int 0).

(** [|x - y| <= eps], written with the engine's comparisons. *)
Definition within (eps x y : num) : bool :=
  ((x - y <=? eps) && (y - x <=? eps))%bool.

(** The last row of a schedule. *)
Definition last_entry (sch : list (Entry.t num)) : option (Entry.t num) :=
  match sch with
  | [] => None
  | e :: rest => Some (last rest e)
  end.

(** A decidable test of a run [r] of the period loop of [p]: the input
    is valid, the loop stopped at the cap with a positive balance, the
    principal portions do not sum to the principal within 0.01, and the
    last row shows a positive remaining balance. *)
Definition run_capped_check (p : Params num) (r : Loop.t num * Exit) : bool :=
  (valid_input p
   && Exit_eqb (snd r) ExitCond
   && (Loop.period (fst r) =? maxIterations p)%N
   && (Loop.balance (fst r) >? int 0)
   && negb (within cent (sum_of Entry.principal (Loop.schedule (fst r)))
              (principal p))
   && match last_entry (Loop.schedule (fst r)) with
      | Some e => (Entry.balance e >? int 0) && negb (Entry.balance e =? int 0)
      | None => false
      end)%bool.

(** A sequence of numbers in which no element exceeds the one before. *)
Fixpoint non_increasing (l : list num) : Prop :=
  match l with
  | a :: (b :: _) as rest => (b <=? a) = true /\ non_increasing rest
  | _ => True
  end.

(** A row of the interest-only schedule on which the code schedules a
    principal repayment: the end of a year or the nominal last period. *)
Definition repayment_period (p : Params num) (e : Entry.t num) : bool :=
  ((Entry.period e mod Npos (paymentsPerYear p) =? 0)%N
   || (Entry.period e =? totalPeriods p)%N)%bool.

(** The term is a number of periods that JavaScript counts exactly and
    whose rows fit an array: [years * paymentsPerYear] is finite, so
    that [totalPeriods] is an integer, and [maxIterations] is below
    2^32, so that [period += 1] and [totalPeriods * 2 + 10] are exact
    and none of the at most [maxIterations] calls of [schedule.push]
    exceeds the length of a JavaScript array.  Beyond that the loops of
    the source do not run as the embedded ones do: on a NaN bound they
    do not run at all, and on an infinite one, or on a count that
    [period += 1] or [schedule.push] cannot reach, they do not return
    a schedule. *)
Definition term_is_count (p : Params num) : bool :=
  (isFinite (years p * int (Npos (paymentsPerYear p)))
   && (maxIterations p <? 2 ^ 32)%N)%bool.

(** Each remaining balance is [Math.max(0, balance - principalPaid)] of
    the balance before it, the first of them of [start]. *)
Fixpoint balances_chain (start : num) (sch : list (Entry.t num)) : Prop :=
  match sch with
  | [] => True
  | e :: rest =>
      Entry.balance e = Math_max (int 0) (start - Entry.principal e)
      /\ balances_chain (Entry.balance e) rest
  end.

(** How a row ties its payment, its principal portion and its interest:
    by one addition, in either order, or by one subtraction. *)
Definition row_tied (e : Entry.t num) : Prop :=
  Entry.payment e = Entry.principal e + Entry.interest e
  \/ Entry.payment e = Entry.interest e + Entry.principal e
  \/ Entry.principal e = Entry.payment e - Entry.interest e.


End Caller.

(** The exact sum of a field of a binary64 schedule. *)
Definition exact_sum (f : Entry.t float -> float) (sch : list (Entry.t float)) : Q :=
  fold_left (fun acc e => acc + Binary64.to_Q (f e))%Q sch 0%Q.

(** A binary64 value that is the given number of hundredths when
    rounded to two decimals. *)
Definition to_the_cent (x : float) (hundredths : Z) : bool :=
  Qle_bool (Qabs (Binary64.to_Q x - (hundredths # 100))) (1 # 200).

(** ** The engine on the store *)

(** [calculateLoan] once more, on the JavaScript store: the arrays that
    exist, each at its address, and the two module-level variables.  The
    array literal of [const schedule = []] allocates an array,
    [schedule.push] writes to the array at that address, and the object
    returned refers to it.  On the store a function can keep state
    between calls, by reading or writing an array or a variable that
    outlives it; [calculateLoan_on_store] relates this embedding to the
    functional one above. *)

Module Store.
Record t (num : Type) : Type := mk {
  (** the arrays allocated so far, by address *)
  arrays : list (list (Entry.t num));
  (** [lastSchedule], the address of an array *)
  lastSchedule : nat;
  lastSummary : option (Summary num)
}.
Arguments mk {num} _ _ _.
Arguments arrays {num} _.
Arguments lastSchedule {num} _.
Arguments lastSummary {num} _.
End Store.

(** The local variables of a period loop, [schedule] by its address. *)
Module Frame.
Record t (num : Type) : Type := mk {
  balance : num;
  period : N;
  totalInterest : num;
  totalPaid : num;
  schedule : nat
}.
Arguments mk {num} _ _ _ _ _.
Arguments balance {num} _.
Arguments period {num} _.
Arguments totalInterest {num} _.
Arguments totalPaid {num} _.
Arguments schedule {num} _.
End Frame.

(** The object [calculateLoan] returns: [schedule] by its address, and
    the summary. *)
Record Calculation (num : Type) : Type := {
  schedule_at : nat;
  summary_of : Summary num
}.
Arguments schedule_at {num} _.
Arguments summary_of {num} _.

Section OnStore.

Context {num : Type} `{Number num}.
Local Open Scope num_scope.

(** The array literal [[]]: a new, empty array at the next address. *)
Definition new_array (st : Store.t num) : nat * Store.t num :=
  (List.length (Store.arrays st),
   Store.mk (push (Store.arrays st) []) (Store.lastSchedule st)
     (Store.lastSummary st)).

(** The array at an address. *)
Definition array_at (address : nat) (st : Store.t num) : list (Entry.t num) :=
  nth address (Store.arrays st) [].

Fixpoint push_at (address : nat) (entry : Entry.t num)
  (arrays : list (list (Entry.t num))) : list (list (Entry.t num)) :=
  match arrays, address with
  | [], _ => []
  | array :: rest, O => push array entry :: rest
  | array :: rest, S address' => array :: push_at address' entry rest
  end.

(** [array.push(entry)] on the array at an address. *)
Definition array_push (address : nat) (entry : Entry.t num) (st : Store.t num)
  : Store.t num :=
  Store.mk (push_at address entry (Store.arrays st)) (Store.lastSchedule st)
    (Store.lastSummary st).

(** The locals before the first period. *)
Definition frame_init (p : Params num) (schedule : nat) : Frame.t num :=
  Frame.mk (principal p) 0%N (int 0) (int 0) schedule.

(** [balance > 0 && period < maxIterations] *)
Definition frame_cond (maxIterations : N) (fs : Frame.t num * Store.t num) : bool :=
  ((Frame.balance (fst fs) >? int 0)
   && (Frame.period (fst fs) <? maxIterations)%N)%bool.

(** [if (balance <= 0.01) { balance = 0; break; }] *)
Definition payoff_check_on (fs : Frame.t num * Store.t num)
  : (Frame.t num * Store.t num) * bool :=
  let (f, st) := fs in
  if Frame.balance f <=? cent
  then ((Frame.mk (int 0) (Frame.period f) (Frame.totalInterest f)
           (Frame.totalPaid f) (Frame.schedule f), st), true)
  else (fs, false).

Definition amortized_step_on (periodicRate paymentWithExtra : num)
  (fs : Frame.t num * Store.t num) : Frame.t num * Store.t num :=
  let (f, st) := fs in
  let period := (Frame.period f + 1)%N in
  let interest := period_interest periodicRate (Frame.balance f) in
  let payment := Math_min paymentWithExtra (Frame.balance f + interest) in
  let principalPaid := payment - interest in
  let capped := principalPaid >? Frame.balance f in
  let principalPaid := if capped then Frame.balance f else principalPaid in
  let payment := if capped then principalPaid + interest else payment in
  let balance := Math_max (int 0) (Frame.balance f - principalPaid) in
  (Frame.mk balance period
     (Frame.totalInterest f + interest)
     (Frame.totalPaid f + payment)
     (Frame.schedule f),
   array_push (Frame.schedule f)
     (Entry.mk period payment principalPaid interest balance) st).

Definition equal_principal_step_on
  (periodicRate basePrincipalPerPeriod extraPayment : num)
  (fs : Frame.t num * Store.t num) : Frame.t num * Store.t num :=
  let (f, st) := fs in
  let period := (Frame.period f + 1)%N in
  let interest := period_interest periodicRate (Frame.balance f) in
  let principalPayment := basePrincipalPerPeriod + extraPayment in
  let principalPayment :=
    if principalPayment >? Frame.balance f then Frame.balance f
    else principalPayment in
  let payment := principalPayment + interest in
  let balance := Math_max (int 0) (Frame.balance f - principalPayment) in
  (Frame.mk balance period
     (Frame.totalInterest f + interest)
     (Frame.totalPaid f + payment)
     (Frame.schedule f),
   array_push (Frame.schedule f)
     (Entry.mk period payment principalPayment interest balance) st).

Definition interest_only_step_on (periodicRate : num)
  (paymentsPerYear : positive) (totalPeriods : N)
  (plannedAnnualPrincipal extraPayment : num)
  (fs : Frame.t num * Store.t num) : Frame.t num * Store.t num :=
  let (f, st) := fs in
  let period := (Frame.period f + 1)%N in
  let interest := period_interest periodicRate (Frame.balance f) in
  let isEndOfYear := (period mod Npos paymentsPerYear =? 0)%N in
  let isFinalPeriod := (period =? totalPeriods)%N in
  let principalPaid :=
    if (isEndOfYear || isFinalPeriod)%bool
    then Math_min plannedAnnualPrincipal (Frame.balance f)
    else int 0 in
  let principalPaid :=
    if ((extraPayment >? int 0) && (Frame.balance f - principalPaid >? int 0))%bool
    then principalPaid + Math_min extraPayment (Frame.balance f - principalPaid)
    else principalPaid in
  let payment := interest + principalPaid in
  let balance := Math_max (int 0) (Frame.balance f - principalPaid) in
  (Frame.mk balance period
     (Frame.totalInterest f + interest)
     (Frame.totalPaid f + payment)
     (Frame.schedule f),
   array_push (Frame.schedule f)
     (Entry.mk period payment principalPaid interest balance) st).

(** A period loop on the store, from [const schedule = []] to the end of
    the [while]. *)
Definition run_on (p : Params num)
  (step : Frame.t num * Store.t num -> Frame.t num * Store.t num)
  (st : Store.t num) : Frame.t num * Store.t num :=
  let (schedule, st) := new_array st in
  let cap := maxIterations p in
  fst (while (frame_cond cap) (fun fs => payoff_check_on (step fs))
         (N.to_nat cap) (frame_init p schedule, st)).

Definition summary_on (p : Params num) (info : PaymentInfo num)
  (f : Frame.t num) : Calculation num :=
  {| schedule_at := Frame.schedule f;
     summary_of :=
       {| paymentInfo := info;
          totalPaid := Frame.totalPaid f;
          totalInterest := Frame.totalInterest f;
          payoffLabel := formatPayoffTime (Frame.period f) (paymentsPerYear p) |} |}.

Definition calculateAmortizedLoan_on (p : Params num) (st : Store.t num)
  : Calculation num * Store.t num :=
  let (f, st) :=
    run_on p (amortized_step_on (periodicRate p) (paymentWithExtra p)) st in
  (summary_on p
     (AmortizedInfo (paymentWithExtra p) (basePayment p) (extraPayment p)) f,
   st).

Definition calculateEqualPrincipalLoan_on (p : Params num) (st : Store.t num)
  : Calculation num * Store.t num :=
  let (f, st) :=
    run_on p (equal_principal_step_on (periodicRate p)
                (basePrincipalPerPeriod p) (extraPayment p)) st in
  (summary_on p
     (EqualPrincipalInfo (first_payment (array_at (Frame.schedule f) st))
        (last_payment (array_at (Frame.schedule f) st)) (extraPayment p)) f,
   st).

Definition calculateInterestOnlyLoan_on (p : Params num) (st : Store.t num)
  : Calculation num * Store.t num :=
  let (f, st) :=
    run_on p (interest_only_step_on (periodicRate p) (paymentsPerYear p)
                (totalPeriods p) (plannedAnnualPrincipal p) (extraPayment p)) st in
  (summary_on p
     (InterestOnlyInfo (first_payment (array_at (Frame.schedule f) st))
        (last_payment (array_at (Frame.schedule f) st)) (extraPayment p)) f,
   st).

Definition calculateLoan_on (p : Params num) (st : Store.t num)
  : Calculation num * Store.t num :=
  if strict_equals (method p) METHODS.EQUAL_PRINCIPAL then
    calculateEqualPrincipalLoan_on p st
  else if strict_equals (method p) METHODS.INTEREST_ONLY then
    calculateInterestOnlyLoan_on p st
  else
    calculateAmortizedLoan_on p st.

(** The store when the script has loaded:
    [let lastSchedule = []; let lastSummary = null;] *)
Definition store_init : Store.t num := Store.mk [[]] 0 None.

(** What the submit handler does to the store past validation:
    [lastSchedule = calculation.schedule; lastSummary =
    calculation.summary]. *)
Definition submit_on (p : Params num) (st : Store.t num) : Store.t num :=
  let (calculation, st) := calculateLoan_on p st in
  Store.mk (Store.arrays st) (schedule_at calculation)
    (Some (summary_of calculation)).

(** What the reset handler does to the store:
    [lastSchedule = []; lastSummary = null]. *)
Definition reset_on (st : Store.t num) : Store.t num :=
  let (empty, st) := new_array st in
  Store.mk (Store.arrays st) empty None.

End OnStore.

(** ** Invariants and measures used in the proofs *)

Section LoopInvariants.

Context {num : Type} `{Number num}.

(** A step of any method advances the period by one and pushes one row,
    numbered by the new period and carrying the new balance. *)
Definition pushes_one_row (step : Loop.t num -> Loop.t num) : Prop :=
  forall s, exists e,
    Loop.schedule (step s) = push (Loop.schedule s) e
    /\ Loop.period (step s) = (Loop.period s + 1)%N
    /\ Entry.period e = (Loop.period s + 1)%N
    /\ Entry.balance e = Loop.balance (step s).

(** The schedule has one row per period run. *)
Definition rows_numbered (s : Loop.t num) : Prop :=
  N.of_nat (List.length (Loop.schedule s)) = Loop.period s.

(** At the loop head the last row, when there is one, shows the current
    period and balance. *)
Definition last_row_current (s : Loop.t num) : Prop :=
  match last_entry (Loop.schedule s) with
  | Some e => Entry.period e = Loop.period s
              /\ Entry.balance e = Loop.balance s
  | None => True
  end.

(** At the loop head the balance is that of the last row, or the
    principal before the first. *)
Definition balance_current (p : Params num) (s : Loop.t num) : Prop :=
  Loop.balance s
  = match last_entry (Loop.schedule s) with
    | Some e => Entry.balance e
    | None => principal p
    end.

End LoopInvariants.

Section StoreInvariants.

Context {num : Type} `{Number num}.

(** The frame and the store of the loop on the store hold what the
    locals of the functional loop hold, the array of [schedule] being
    the last allocated, after the arrays of the store the call began
    in. *)
Definition same_run (before : Store.t num) (fs : Frame.t num * Store.t num)
  (s : Loop.t num) : Prop :=
  Frame.balance (fst fs) = Loop.balance s
  /\ Frame.period (fst fs) = Loop.period s
  /\ Frame.totalInterest (fst fs) = Loop.totalInterest s
  /\ Frame.totalPaid (fst fs) = Loop.totalPaid s
  /\ Frame.schedule (fst fs) = List.length (Store.arrays before)
  /\ Store.arrays (snd fs) = push (Store.arrays before) (Loop.schedule s)
  /\ Store.lastSchedule (snd fs) = Store.lastSchedule before
  /\ Store.lastSummary (snd fs) = Store.lastSummary before.

(** A step on the store and the functional step it corresponds to. *)
Definition same_step (before : Store.t num)
  (step_on : Frame.t num * Store.t num -> Frame.t num * Store.t num)
  (step : Loop.t num -> Loop.t num) : Prop :=
  forall fs s, same_run before fs s -> same_run before (step_on fs) (step s).

End StoreInvariants.

Section ExactInvariants.

Local Open Scope Q_scope.

(** [totalPaid] is [totalInterest] plus the principal portions so far. *)
Definition totals_agree (s : Loop.t Q) : Prop :=
  Loop.totalPaid s
  == Loop.totalInterest s + sum_of Entry.principal (Loop.schedule s).

(** The principal portions so far and the balance make up the
    principal. *)
Definition principal_accounted (P : Q) (s : Loop.t Q) : Prop :=
  sum_of Entry.principal (Loop.schedule s) + Loop.balance s == P.

(** The payment the equal-principal loop makes from balance [b], with
    [c] the uncapped principal portion. *)
Definition next_payment (r c b : Q) : Q :=
  (if ExactArith.ltb b c then b else c) + period_interest r b.

(** The payments so far never rise, and the next one will not exceed
    the last. *)
Definition payments_ordered (r c : Q) (s : Loop.t Q) : Prop :=
  non_increasing (map Entry.payment (Loop.schedule s))
  /\ (map Entry.payment (Loop.schedule s) <> [] ->
      next_payment r c (Loop.balance s)
      <= last (map Entry.payment (Loop.schedule s)) 0).

(** The remaining balances never rise, and the current balance does
    not exceed the last row's. *)
Definition balances_ordered (s : Loop.t Q) : Prop :=
  non_increasing (map Entry.balance (Loop.schedule s))
  /\ (map Entry.balance (Loop.schedule s) <> [] ->
      Loop.balance s <= last (map Entry.balance (Loop.schedule s)) 0).

(** The state at the head of a loop that pays the balance off within
    [n] periods: [bound m] is the most that can be outstanding with [m]
    periods to go. *)
Definition on_track (n : N) (bound : nat -> Q) (s : Loop.t Q) : Prop :=
  0 < Loop.balance s
  /\ (Loop.period s <= n)%N
  /\ Loop.balance s <= bound (N.to_nat (n - Loop.period s))
  /\ balances_ordered s.

(** What a step must do for that. *)
Definition keeps_track (n : N) (bound : nat -> Q)
  (step : Loop.t Q -> Loop.t Q) : Prop :=
  forall s,
    0 < Loop.balance s ->
    (Loop.period s <= n)%N ->
    Loop.balance s <= bound (N.to_nat (n - Loop.period s)) ->
    0 <= Loop.balance (step s) <= Loop.balance s
    /\ Loop.balance (step s) <= bound (N.to_nat (n - (Loop.period s + 1))).

(** What the schedule of a valid input looks like at the end. *)
Definition paid_off (r : Loop.t Q * Exit) : Prop :=
  snd r = ExitBreak
  /\ Loop.schedule (fst r) <> []
  /\ non_increasing (map Entry.balance (Loop.schedule (fst r)))
  /\ exists e, last_entry (Loop.schedule (fst r)) = Some e
               /\ 0 <= Entry.balance e <= 1 # 100.

(** With [m] periods to go, at most [m] instalments are outstanding. *)
Definition instalments_left (instalment : Q) (m : nat) : Q :=
  inject_Z (Z.of_nat m) * instalment.

(** [(1 + r)^(-m)], by repeated division. *)
Fixpoint discount (q : Q) (m : nat) : Q :=
  match m with
  | O => 1
  | S m' => discount q m' / q
  end.

(** With [m] payments of [A] to go, the balance they pay off at the
    periodic rate [r] is [A * (1 - (1 + r)^(-m)) / r]. *)
Definition annuity_left (A r : Q) (m : nat) : Q :=
  A * (1 - discount (1 + r) m) / r.

(** Whether period [j] of [n] is one on which the interest-only method
    schedules a repayment. *)
Definition is_repayment (ppy : positive) (n j : N) : bool :=
  ((j mod Npos ppy =? 0)%N || (j =? n)%N)%bool.

(** The repayment periods among the last [m] of the [n] periods. *)
Fixpoint repayments_left (ppy : positive) (n : N) (m : nat) : nat :=
  match m with
  | O => 0
  | S m' => (if is_repayment ppy n (n - N.of_nat m') then 1 else 0)
            + repayments_left ppy n m'
  end.

End ExactInvariants.

(** ** Rounding to binary64: the vocabulary of the proofs *)

Section RoundingVocabulary.

Local Open Scope Z_scope.

(** [m] and [l] place the rational [a / b]: [m <= a / b < m + 1], and
    [l] tells whether it is [m], or how it compares with [m + 1/2]. *)
Definition located (m : Z) (l : location) (a b : Z) : Prop :=
  0 < b /\ m * b <= a < (m + 1) * b
  /\ match l with
     | loc_Exact => a = m * b
     | loc_Inexact c => m * b < a /\ (2 * a ?= (2 * m + 1) * b) = c
     end.

(** [k] is the integer nearest to [a / b], the even one of the two when
    [a / b] is half-way. *)
Definition nearest_even (k a b : Z) : Prop :=
  2 * (k * b) <= 2 * a + b /\ 2 * a - b <= 2 * (k * b)
  /\ (2 * (k * b) = 2 * a + b -> Z.even k = true)
  /\ (2 * (k * b) = 2 * a - b -> Z.even k = true).

Definition fexp64 (e : Z) : Z := Z.max (e - 53) (-1074).

(** What a rounding returns, for a magnitude of [k] units of [2^E]:
    zero, a finite number of that value, or an infinity when the value
    is [2^1024] or above. *)
Definition result_is (R : spec_float) (sx : bool) (k E : Z) : Prop :=
  (k = 0 /\ R = S754_zero sx)
  \/ (exists m e, R = S754_finite sx m e /\ E <= e <= 971
                  /\ Zpos m * 2 ^ (e + 1074) = k * 2 ^ (E + 1074)
                  /\ bounded prec emax m e = true)
  \/ (R = S754_infinity sx /\ 2 ^ 2098 <= k * 2 ^ (E + 1074)).

(** Values are written as fractions [a / b] of the unit [2^-2200],
    below every exact product, sum or quotient of two binary64
    numbers. *)
Definition unit_exponent : Z := 2200.

(** [R] is the rounding of the positive value [a / b] units, with the
    sign [sx]: the value lies in the binade of [mag], is rounded to the
    nearest multiple of [2^(fexp64 mag)], ties to even, and [R] is that
    multiple. *)
Definition rounded (sx : bool) (a b : Z) (R : spec_float) : Prop :=
  0 < b
  /\ exists mag k,
       - unit_exponent < mag
       /\ 2 ^ (mag - 1 + unit_exponent) * b <= a < 2 ^ (mag + unit_exponent) * b
       /\ nearest_even k a (2 ^ (fexp64 mag + unit_exponent) * b)
       /\ result_is R sx k (fexp64 mag).

(** The value of a mantissa and an exponent, in units of [2^-1074]. *)
Definition val (m : positive) (e : Z) : Z := Zpos m * 2 ^ (e + 1074).

(** The value of a number that is zero or positive and finite, in units
    of [2^-1074]. *)
Definition sval (x : spec_float) : Z :=
  match x with
  | S754_finite false m e => val m e
  | _ => 0
  end.

(** Zero, or positive and finite. *)
Definition finite_nonneg (x : spec_float) : Prop :=
  match x with
  | S754_zero _ | S754_finite false _ _ => True
  | _ => False
  end.

(** Zero, positive, or the positive infinity. *)
Definition nonneg (x : spec_float) : Prop :=
  match x with
  | S754_zero _ | S754_finite false _ _ | S754_infinity false => True
  | _ => False
  end.

(** Zero, finite or infinite, with the sign [sx]. *)
Definition signed (sx : bool) (R : spec_float) : Prop :=
  match R with
  | S754_zero s | S754_infinity s | S754_finite s _ _ => s = sx
  | S754_nan => False
  end.

Definition nonneg64 (x : float) : Prop := nonneg (Prim2SF x).
Definition amount (x : float) : Prop := finite_nonneg (Prim2SF x).


End RoundingVocabulary.

(** ** The numbers of the engine in binary64: the vocabulary of the proofs *)

Section FloatInvariants.

Local Open Scope num_scope.

(** The payment of an equal-principal period that starts with the
    balance [b], for the periodic rate [r] and the planned principal
    payment [c]. *)
Definition equal_principal_payment (r c b : float) : float :=
  (if c >? b then b else c) + period_interest r b.

(** The balance is finite and not negative, the payments so far never
    rise, and the next one will not be above the last. *)
Definition payments_fall (r c : float) (s : Loop.t float) : Prop :=
  amount (Loop.balance s)
  /\ non_increasing (map Entry.payment (Loop.schedule s))
  /\ (Loop.schedule s <> [] -> (Loop.balance s >? int 0) = true ->
      (equal_principal_payment r c (Loop.balance s)
       <=? last (map Entry.payment (Loop.schedule s)) (int 0)) = true).




End FloatInvariants.

(** ** Parameter sets used below *)

Module Inputs.

Definition params64 (principal annualRate years : float) (ppy : positive)
  (method : string) (extraPayment : float) : Params float :=
  {| principal := principal; annualRate := annualRate; years := years;
     paymentsPerYear := ppy; method := MethodString method;
     extraPayment := extraPayment |}.

Definition paramsQ (principal annualRate years : Q) (ppy : positive)
  (method : string) (extraPayment : Q) : Params Q :=
  {| principal := principal; annualRate := annualRate; years := years;
     paymentsPerYear := ppy; method := MethodString method;
     extraPayment := extraPayment |}.

(** 100000 at 5% over one year, monthly, with 5000 extra per period. *)
Definition extra5000 : Params float :=
  params64 100000 5 1 12 METHODS.AMORTIZED 5000.

(** 100000 at 100% over forty years, monthly. *)
Definition long_high_rate : Params float :=
  params64 100000 100 40 12 METHODS.AMORTIZED 0.

(** 1000 at 0% over one year, fortnightly. *)
Definition fortnightly : Params float :=
  params64 1000 0 1 26 METHODS.AMORTIZED 0.

(** 120 at 0% over one year, monthly, with 109.995 extra per period. *)
Definition residue_exact : Params Q :=
  paramsQ 120 0 1 12 METHODS.AMORTIZED (109995 # 1000).


(** 10^17 at 5% over a quarter of a year, monthly. *)
Definition huge_quarter_5 : Params float :=
  params64 100000000000000000 5 0.25 12 METHODS.EQUAL_PRINCIPAL 0.

(** 10^14 at 0% over six and a half years, monthly. *)
Definition huge_six_and_half : Params float :=
  params64 100000000000000 0 6.5 12 METHODS.INTEREST_ONLY 0.

(** 100000 at 5% over two and a half years, monthly. *)
Definition two_and_half : Params float :=
  params64 100000 5 2.5 12 METHODS.INTEREST_ONLY 0.

(** 2^-1074, the least positive binary64 value, at 2^-1000 percent over
    one year, monthly. *)
Definition underflow : Params float :=
  params64 0x1p-1074 0x1p-1000 1 12 METHODS.AMORTIZED 0.

(** 100000 at 5% over one year, monthly. *)
Definition one_year (method : string) : Params float :=
  params64 100000 5 1 12 method 0.
Definition one_year_exact (method : string) : Params Q :=
  paramsQ 100000 5 1 12 method 0.

End Inputs.

(** ** The page around the engine *)

(** The rest of [script.js]: input validation, the submit, toggle,
    download and reset handlers, and the functions that write the
    summary, the table and the CSV file.

    Strings are held as their UTF-8 bytes.  The two [Intl.NumberFormat]
    objects are host formatters whose output depends on locale data; the
    page is modelled for any pair of formatting functions.  Of the DOM
    the model keeps what the handlers read or write: the [hidden] flag
    of the two panels, the [expanded] class of the schedule wrapper, the
    rows of the table body, the four summary texts, and the
    [.error-message] elements with their [data-for] attribute. *)

(** *** String builtins *)

(** [String.prototype.trim] strips white space and line terminators
    from both ends.  They are, by their UTF-8 encodings: U+0009 to
    U+000D and U+0020 (one byte); U+00A0 (C2 A0); U+1680 (E1 9A 80);
    U+2000 to U+200A, U+2028, U+2029 and U+202F (E2 80 80 to 8A, A8, A9,
    AF); U+205F (E2 81 9F); U+3000 (E3 80 80); U+FEFF (EF BB BF). *)
Module Whitespace.

Definition one (c : ascii) : bool :=
  let n := nat_of_ascii c in
  ((9 <=? n) && (n <=? 13) || (n =? 32))%nat%bool.

Definition two (c1 c2 : ascii) : bool :=
  ((nat_of_ascii c1 =? 194) && (nat_of_ascii c2 =? 160))%nat%bool.

Definition three (c1 c2 c3 : ascii) : bool :=
  let a := nat_of_ascii c1 in
  let b := nat_of_ascii c2 in
  let c := nat_of_ascii c3 in
  ((a =? 225) && (b =? 154) && (c =? 128)
   || (a =? 226) && (b =? 128)
      && ((128 <=? c) && (c <=? 138) || (c =? 168) || (c =? 169) || (c =? 175))
   || (a =? 226) && (b =? 129) && (c =? 159)
   || (a =? 227) && (b =? 128) && (c =? 128)
   || (a =? 239) && (b =? 187) && (c =? 191))%nat%bool.

End Whitespace.

(** Drop every leading character that [w1], [w2] or [w3] recognises by
    its one, two or three bytes. *)
Fixpoint strip (w1 : ascii -> bool) (w2 : ascii -> ascii -> bool)
  (w3 : ascii -> ascii -> ascii -> bool) (s : list ascii) : list ascii :=
  match s with
  | [] => []
  | c1 :: r1 =>
      if w1 c1 then strip w1 w2 w3 r1
      else
        match r1 with
        | [] => s
        | c2 :: r2 =>
            if w2 c1 c2 then strip w1 w2 w3 r2
            else
              match r2 with
              | [] => s
              | c3 :: r3 => if w3 c1 c2 c3 then strip w1 w2 w3 r3 else s
              end
        end
  end.

Definition trim_start (s : list ascii) : list ascii :=
  strip Whitespace.one Whitespace.two Whitespace.three s.

(** The same from the end: the bytes are read backwards. *)
Definition trim_end (s : list ascii) : list ascii :=
  rev (strip Whitespace.one
         (fun c2 c1 => Whitespace.two c1 c2)
         (fun c3 c2 c1 => Whitespace.three c1 c2 c3)
         (rev s)).

Definition trim (s : string) : string :=
  string_of_list_ascii (trim_end (trim_start (list_ascii_of_string s))).

(** [s.split(sep)] for a separator of one ASCII character: the pieces
    between the separators, a single empty piece for the empty string. *)
Fixpoint split_on (sep : ascii) (s : string) : list string :=
  match s with
  | EmptyString => [EmptyString]
  | String c rest =>
      if Ascii.eqb c sep then EmptyString :: split_on sep rest
      else
        match split_on sep rest with
        | piece :: pieces => String c piece :: pieces
        | [] => [String c EmptyString]
        end
  end.

(** [array.join(sep)] on an array of strings. *)
Definition join (sep : string) (parts : list string) : string :=
  String.concat sep parts.

Definition comma : ascii := ","%char.
Definition line_feed : ascii := "010"%char.

(** A string in which the character [c] does not occur. *)
Fixpoint free_of (c : ascii) (s : string) : bool :=
  match s with
  | EmptyString => true
  | String d rest => (negb (Ascii.eqb d c) && free_of c rest)%bool
  end.

(** [Object.values(METHODS)] *)
Definition METHODS_values : list string :=
  [METHODS.AMORTIZED; METHODS.EQUAL_PRINCIPAL; METHODS.INTEREST_ONLY].

(** [array.includes(s)] on an array of strings. *)
Definition includes (values : list string) (s : string) : bool :=
  existsb (String.eqb s) values.

(** [Math.abs] *)
Class MathAbs (num : Type) : Type := { Math_abs : num -> num }.

#[global] Instance MathAbs_Q : MathAbs Q := {| Math_abs := Qabs |}.
#[global] Instance MathAbs_float : MathAbs float := {| Math_abs := PrimFloat.abs |}.

(** *** Validation *)

(** The object [{principal, rate, years, extra, method}] that
    [validateInputs] takes. *)
Module Fields.
Record t (num : Type) : Type := mk {
  principal : num;
  rate : num;
  years : num;
  extra : num;
  method : MethodValue
}.
Arguments mk {num} _ _ _ _ _.
Arguments principal {num} _.
Arguments rate {num} _.
Arguments years {num} _.
Arguments extra {num} _.
Arguments method {num} _.
End Fields.

(** The [errors] object: its properties in insertion order, which is
    the order [Object.keys] and [Object.entries] give. *)
Definition Errors : Type := list (string * string).

(** The values of the form fields as the submit handler reads them: the
    [parseFloat] of the amount, rate, years and extra fields (NaN for a
    text that is no number), the [parseInt] of the frequency selector,
    taken to be a positive integer here, and the raw [method] entry,
    which [FormData.get] gives as a string or as something else
    ([null] for a missing field). *)
Module FormData.
Record t (num : Type) : Type := mk {
  amount : num;
  rate : num;
  years : num;
  frequency : positive;
  method : MethodValue;
  extra : num
}.
Arguments mk {num} _ _ _ _ _ _.
Arguments amount {num} _.
Arguments rate {num} _.
Arguments years {num} _.
Arguments frequency {num} _.
Arguments method {num} _.
Arguments extra {num} _.
End FormData.

(** An element of class [error-message]: its [data-for] attribute, if it
    has one, and its text. *)
Module ErrorEl.
Record t : Type := mk {
  data_for : option string;
  textContent : string
}.
End ErrorEl.

(** What the handlers read and write. *)
Module Page.
Record t (num : Type) : Type := mk {
  resultsPanel_hidden : bool;
  schedulePanel_hidden : bool;
  scheduleWrapper_expanded : bool;
  (** the rows of [scheduleBody], each by the texts of its five cells *)
  scheduleBody : list (list string);
  paymentAmount : string;
  totalPaid : string;
  totalInterest : string;
  payoffTime : string;
  (** the [.error-message] elements, in document order *)
  errorMessages : list ErrorEl.t;
  globals : Globals num
}.
Arguments mk {num} _ _ _ _ _ _ _ _ _ _.
Arguments resultsPanel_hidden {num} _.
Arguments schedulePanel_hidden {num} _.
Arguments scheduleWrapper_expanded {num} _.
Arguments scheduleBody {num} _.
Arguments paymentAmount {num} _.
Arguments totalPaid {num} _.
Arguments totalInterest {num} _.
Arguments payoffTime {num} _.
Arguments errorMessages {num} _.
Arguments globals {num} _.
End Page.

(** The file a click on the download button saves. *)
Record Download : Type := {
  download_name : string;
  download_content : string
}.

(** What happens on the page.  A download click carries the text
    [new Date().toISOString()] gives at that moment. *)
Inductive PageEvent (num : Type) : Type :=
| Submit (fields : FormData.t num)
| ToggleClicked
| DownloadClicked (now : string)
| ResetBtnClicked.
Arguments Submit {num} _.
Arguments ToggleClicked {num}.
Arguments DownloadClicked {num} _.
Arguments ResetBtnClicked {num}.

Section PageModel.

Context {num : Type} `{Number num} `{MathAbs num}.
Local Open Scope num_scope.

(** [formatterCurrency.format] and [formatterNumber.format] *)
Variable formatterCurrency_format : num -> string.
Variable formatterNumber_format : num -> string.

Definition validateInputs (i : Fields.t num) : Errors :=
  let errors : Errors := [] in
  let errors :=
    if (negb (isFinite (Fields.principal i)) || (Fields.principal i <=? int 0))%bool
    then push errors ("amount", "请输入大于 0 的贷款金额。") else errors in
  let errors :=
    if (negb (isFinite (Fields.rate i)) || (Fields.rate i <? int 0)
        || (Fields.rate i >? int 100))%bool
    then push errors ("rate", "年利率需在 0% 至 100% 之间。") else errors in
  let errors :=
    if (negb (isFinite (Fields.years i)) || (Fields.years i <=? int 0))%bool
    then push errors ("years", "贷款年限需大于 0。") else errors in
  let errors :=
    if (negb (isFinite (Fields.extra i)) || (Fields.extra i <? int 0))%bool
    then push errors ("extra", "额外还款需大于或等于 0。") else errors in
  let normalizedMethod :=
    match Fields.method i with
    | MethodString s => trim s
    | MethodOther => EmptyString
    end in
  let errors :=
    if negb (includes METHODS_values normalizedMethod)
    then push errors ("method", "请选择有效的还款方式。") else errors in
  errors.

(** Whether a number is truthy: every number but NaN, [+0] and [-0],
    that is, every number below or above 0. *)
Definition truthy (x : num) : bool := ((x <? int 0) || (int 0 <? x))%bool.

(** [x || 0] on a number *)
Definition or_zero (x : num) : num := if truthy x then x else int 0.

(** The [method] the submit handler settles on:
    the trimmed [rawMethod] when that is a string whose trimmed form is
    not empty, and [METHODS.AMORTIZED] otherwise. *)
Definition submitted_method (rawMethod : MethodValue) : string :=
  match rawMethod with
  | MethodString s =>
      if negb (String.eqb (trim s) EmptyString) then trim s
      else METHODS.AMORTIZED
  | MethodOther => METHODS.AMORTIZED
  end.

(** The object the submit handler validates. *)
Definition submitted_fields (f : FormData.t num) : Fields.t num :=
  Fields.mk (FormData.amount f) (FormData.rate f) (FormData.years f)
    (or_zero (FormData.extra f))
    (MethodString (submitted_method (FormData.method f))).

(** The object the submit handler passes to [calculateLoan]. *)
Definition submitted_params (f : FormData.t num) : Params num :=
  {| principal := FormData.amount f;
     annualRate := FormData.rate f;
     years := FormData.years f;
     paymentsPerYear := FormData.frequency f;
     method := MethodString (submitted_method (FormData.method f));
     extraPayment := or_zero (FormData.extra f) |}.

(** [el.textContent = message] on the first element that
    [.error-message[data-for=key]] selects, if there is one. *)
Fixpoint show_error (key message : string) (els : list ErrorEl.t)
  : list ErrorEl.t :=
  match els with
  | [] => []
  | el :: rest =>
      match ErrorEl.data_for el with
      | Some k =>
          if String.eqb k key
          then ErrorEl.mk (ErrorEl.data_for el) message :: rest
          else el :: show_error key message rest
      | None => el :: show_error key message rest
      end
  end.

Definition showErrors (errors : Errors) (els : list ErrorEl.t)
  : list ErrorEl.t :=
  fold_left (fun els entry => show_error (fst entry) (snd entry) els) errors els.

Definition clearErrors (els : list ErrorEl.t) : list ErrorEl.t :=
  map (fun el => ErrorEl.mk (ErrorEl.data_for el) EmptyString) els.

(** The text [updateSummary] composes for the payment.  Its initial
    value, two dashes, stays only for a [paymentInfo] whose [type] is
    none of the three methods, which no algorithm returns. *)
Definition range_text (firstPayment lastPayment extraPayment : num) : string :=
  let paymentText :=
    if Math_abs (firstPayment - lastPayment) <? cent
    then formatterCurrency_format firstPayment
    else formatterCurrency_format firstPayment ++ " → "
         ++ formatterCurrency_format lastPayment in
  if extraPayment >? cent
  then paymentText ++ "（含每期额外 " ++ formatterCurrency_format extraPayment ++ "）"
  else paymentText.

Definition paymentText (info : PaymentInfo num) : string :=
  match info with
  | AmortizedInfo paymentPerPeriod basePayment extraPayment =>
      if extraPayment >? cent
      then formatterCurrency_format paymentPerPeriod ++ "（含基础 "
           ++ formatterCurrency_format basePayment ++ " + 额外 "
           ++ formatterCurrency_format extraPayment ++ "）"
      else formatterCurrency_format paymentPerPeriod
  | EqualPrincipalInfo firstPayment lastPayment extraPayment =>
      range_text firstPayment lastPayment extraPayment
  | InterestOnlyInfo firstPayment lastPayment extraPayment =>
      range_text firstPayment lastPayment extraPayment
  end.

Definition updateSummary (calculation : LoanResult num) (pg : Page.t num)
  : Page.t num :=
  let s := summary calculation in
  Page.mk (Page.resultsPanel_hidden pg) (Page.schedulePanel_hidden pg)
    (Page.scheduleWrapper_expanded pg) (Page.scheduleBody pg)
    (paymentText (paymentInfo s))
    (formatterCurrency_format (totalPaid s))
    (formatterCurrency_format (totalInterest s))
    (payoffLabel s)
    (Page.errorMessages pg) (Page.globals pg).

(** The cells of the table row of a schedule entry. *)
Definition table_row (entry : Entry.t num) : list string :=
  [Number_toString (Entry.period entry);
   formatterCurrency_format (Entry.payment entry);
   formatterCurrency_format (Entry.principal entry);
   formatterCurrency_format (Entry.interest entry);
   formatterCurrency_format (Entry.balance entry)].

Definition renderSchedule (schedule : list (Entry.t num)) (pg : Page.t num)
  : Page.t num :=
  let body : list (list string) := [] in
  let body :=
    if (List.length schedule =? 0)%nat then body
    else fold_left (fun body entry => push body (table_row entry)) schedule body in
  Page.mk (Page.resultsPanel_hidden pg) (Page.schedulePanel_hidden pg)
    (Page.scheduleWrapper_expanded pg) body
    (Page.paymentAmount pg) (Page.totalPaid pg) (Page.totalInterest pg)
    (Page.payoffTime pg) (Page.errorMessages pg) (Page.globals pg).

Definition formatNumber (value : num) : string := formatterNumber_format value.

(** The submit handler. *)
Definition on_submit_event (f : FormData.t num) (pg : Page.t num) : Page.t num :=
  let messages := clearErrors (Page.errorMessages pg) in
  let errors := validateInputs (submitted_fields f) in
  if (0 <? List.length errors)%nat then
    Page.mk true true
      (Page.scheduleWrapper_expanded pg) (Page.scheduleBody pg)
      (Page.paymentAmount pg) (Page.totalPaid pg) (Page.totalInterest pg)
      (Page.payoffTime pg) (showErrors errors messages) (Page.globals pg)
  else
    let calculation := calculateLoan (submitted_params f) in
    let pg := updateSummary calculation pg in
    let pg := renderSchedule (schedule calculation) pg in
    Page.mk false ((List.length (schedule calculation) =? 0)%nat) false
      (Page.scheduleBody pg)
      (Page.paymentAmount pg) (Page.totalPaid pg) (Page.totalInterest pg)
      (Page.payoffTime pg) messages
      {| lastSchedule := schedule calculation;
         lastSummary := Some (summary calculation) |}.

(** The toggle handler. *)
Definition on_toggle (pg : Page.t num) : Page.t num :=
  if negb (Page.schedulePanel_hidden pg) then
    Page.mk (Page.resultsPanel_hidden pg) (Page.schedulePanel_hidden pg)
      (negb (Page.scheduleWrapper_expanded pg)) (Page.scheduleBody pg)
      (Page.paymentAmount pg) (Page.totalPaid pg) (Page.totalInterest pg)
      (Page.payoffTime pg) (Page.errorMessages pg) (Page.globals pg)
  else pg.

(** The CSV file of a schedule. *)
Definition csv_header : list string :=
  ["期数"; "当期还款"; "本金"; "利息"; "剩余本金"].

Definition csv_row (entry : Entry.t num) : list string :=
  [Number_toString (Entry.period entry);
   formatNumber (Entry.payment entry);
   formatNumber (Entry.principal entry);
   formatNumber (Entry.interest entry);
   formatNumber (Entry.balance entry)].

Definition csvContent (schedule : list (Entry.t num)) : string :=
  join (String line_feed EmptyString)
    (map (join (String comma EmptyString)) (csv_header :: map csv_row schedule)).

(** U+FEFF, the byte order mark, as the blob encodes it. *)
Definition byte_order_mark : string :=
  String "239"%char (String "187"%char (String "191"%char EmptyString)).

(** The download handler: nothing for an empty [lastSchedule], or else
    the file it has the browser save.  The link it adds to the document
    it removes again. *)
Definition on_download (now : string) (pg : Page.t num) : option Download :=
  if (List.length (lastSchedule (Page.globals pg)) =? 0)%nat then None
  else
    let timestamp := hd EmptyString (split_on "T"%char now) in
    Some {| download_name := "loan_schedule_" ++ timestamp ++ ".csv";
            download_content :=
              byte_order_mark ++ csvContent (lastSchedule (Page.globals pg)) |}.

(** The reset handler. *)
Definition on_reset (pg : Page.t num) : Page.t num :=
  Page.mk true true false []
    (Page.paymentAmount pg) (Page.totalPaid pg) (Page.totalInterest pg)
    (Page.payoffTime pg) (clearErrors (Page.errorMessages pg))
    {| lastSchedule := []; lastSummary := None |}.

Definition page_step (pg : Page.t num) (ev : PageEvent num) : Page.t num :=
  match ev with
  | Submit f => on_submit_event f pg
  | ToggleClicked => on_toggle pg
  | DownloadClicked _ => pg
  | ResetBtnClicked => on_reset pg
  end.

(** The page after a sequence of events. *)
Definition page_after (pg : Page.t num) (history : list (PageEvent num))
  : Page.t num :=
  fold_left page_step history pg.

(** The table shows the schedule that a download would export. *)
Definition table_current (pg : Page.t num) : Prop :=
  Page.schedulePanel_hidden pg = false ->
  Page.resultsPanel_hidden pg = false
  /\ lastSchedule (Page.globals pg) <> []
  /\ Page.scheduleBody pg = map table_row (lastSchedule (Page.globals pg)).

(** No error element shows a message other than one of [errors] for
    its own key. *)
Definition messages_from (errors : Errors) (els : list ErrorEl.t) : Prop :=
  Forall (fun el =>
            ErrorEl.textContent el = EmptyString
            \/ exists key, ErrorEl.data_for el = Some key
                           /\ In (key, ErrorEl.textContent el) errors) els.

End PageModel.

(** *** Vocabulary of the further properties *)

(** The unit [formatPayoffTime] writes after a remainder of periods. *)
Definition remainder_unit (paymentsPerYear : positive) : string :=
  if (paymentsPerYear =? 12)%positive then "个月"
  else if (paymentsPerYear =? 26)%positive then "个两周期"
  else if (paymentsPerYear =? 52)%positive then "周"
  else "期".

Definition is_digit (c : ascii) : bool :=
  ((48 <=? nat_of_ascii c) && (nat_of_ascii c <=? 57))%nat%bool.

Definition starts_with_digit (s : string) : bool :=
  match s with
  | EmptyString => false
  | String c _ => is_digit c
  end.

(** The text of the element that [.error-message[data-for=key]]
    selects, if there is one. *)
Fixpoint message_for (key : string) (els : list ErrorEl.t) : option string :=
  match els with
  | [] => None
  | el :: rest =>
      match ErrorEl.data_for el with
      | Some k =>
          if String.eqb k key then Some (ErrorEl.textContent el)
          else message_for key rest
      | None => message_for key rest
      end
  end.

(** Every cell of a line is free of the two separators of the CSV
    file. *)
Definition cells_clean (line : list string) : bool :=
  forallb (fun cell => (free_of comma cell && free_of line_feed cell)%bool) line.

(** ** Sample pages *)

Module Samples.

(** A formatter of the shape of [formatterNumber]: two fraction digits,
    no grouping. *)
Definition two_decimals (q : Q) : string :=
  let hundredths := Z.to_N (Qfloor (Qabs q * 100 + (1 # 2))) in
  (if Qle_bool 0 q then EmptyString else "-")
  ++ Number_toString (hundredths / 100) ++ "."
  ++ Number_toString (hundredths mod 100 / 10)
  ++ Number_toString (hundredths mod 10).

Definition two_decimals64 (x : float) : string :=
  two_decimals (Binary64.to_Q x).

(** A page before any calculation, with an error element for each
    field. *)
Definition blank_page : Page.t float :=
  Page.mk true true false [] "--" "--" "--" "--"
    [ErrorEl.mk (Some "amount") EmptyString;
     ErrorEl.mk (Some "rate") EmptyString;
     ErrorEl.mk (Some "years") EmptyString;
     ErrorEl.mk (Some "extra") EmptyString;
     ErrorEl.mk (Some "method") EmptyString]
    {| lastSchedule := []; lastSummary := None |}.

Definition form64 (amount rate years : float) (frequency : positive)
  (method : string) (extra : float) : FormData.t float :=
  FormData.mk amount rate years frequency (MethodString method) extra.

(** 100000 at 5% over one year, monthly, with the method as the form
    sends it and the extra field left empty. *)
Definition one_year_form (method : string) : FormData.t float :=
  form64 100000 5 1 12 method nan.

(** The same with a negative amount. *)
Definition negative_amount_form : FormData.t float :=
  form64 (-100000) 5 1 12 METHODS.AMORTIZED nan.

(** 1000 at 0% over one year, monthly. *)
Definition zero_rate : Params float :=
  Inputs.params64 1000 0 1 12 METHODS.INTEREST_ONLY 0.

End Samples.

(** * Properties *)

(** ** Loops *)

Lemma Exit_eqb_eq (a b : Exit) : Exit_eqb a b = true -> a = b.
Proof. destruct a, b; (reflexivity || discriminate). Qed.

Section WhileFacts.

Context {S : Type}.
Variable cond : S -> bool.
Variable body : S -> S * bool.

(** The proof rule of a loop with [break]: an invariant [I] of the
    states at the loop head gives a postcondition [Q] of the state and
    exit the loop ends with. *)
Lemma while_rule (I : S -> Prop) (Q : S * Exit -> Prop) :
  (forall s, I s -> cond s = false -> Q (s, ExitCond)) ->
  (forall s, I s -> cond s = true -> Q (s, ExitFuel)) ->
  (forall s, I s -> cond s = true ->
     if snd (body s) then Q (fst (body s), ExitBreak) else I (fst (body s))) ->
  forall fuel s, I s -> Q (while cond body fuel s).
Proof.
  intros Hexit Hfuel Hbody fuel.
  induction fuel as [|k IH]; intros s Hs; simpl.
  - destruct (cond s) eqn:E; auto.
  - destruct (cond s) eqn:E; auto.
    specialize (Hbody s Hs E).
    destruct (body s) as [s' stop]; simpl in Hbody.
    destruct stop; auto.
Qed.

(** An invariant alone: it holds of the final state when [break] keeps
    it too. *)
Lemma while_invariant (I : S -> Prop) :
  (forall s, I s -> cond s = true -> I (fst (body s))) ->
  forall fuel s, I s -> I (fst (while cond body fuel s)).
Proof.
  intros Hbody fuel s Hs.
  apply (while_rule I (fun r => I (fst r))); auto.
  intros s0 H0 E. specialize (Hbody s0 H0 E).
  destruct (snd (body s0)); exact Hbody.
Qed.

End WhileFacts.

(** ** Structure of the period loops, in any arithmetic *)

Section Structure.

Context {num : Type} `{Number num}.
Local Open Scope num_scope.

Lemma payoff_check_period (s : Loop.t num) :
  Loop.period (fst (payoff_check s)) = Loop.period s.
Proof. unfold payoff_check. destruct (Loop.balance s <=? cent); reflexivity. Qed.

Lemma payoff_check_schedule (s : Loop.t num) :
  Loop.schedule (fst (payoff_check s)) = Loop.schedule s.
Proof. unfold payoff_check. destruct (Loop.balance s <=? cent); reflexivity. Qed.

Lemma payoff_check_totalPaid (s : Loop.t num) :
  Loop.totalPaid (fst (payoff_check s)) = Loop.totalPaid s.
Proof. unfold payoff_check. destruct (Loop.balance s <=? cent); reflexivity. Qed.

Lemma payoff_check_totalInterest (s : Loop.t num) :
  Loop.totalInterest (fst (payoff_check s)) = Loop.totalInterest s.
Proof. unfold payoff_check. destruct (Loop.balance s <=? cent); reflexivity. Qed.

Lemma payoff_check_continue (s : Loop.t num) :
  snd (payoff_check s) = false -> fst (payoff_check s) = s.
Proof. unfold payoff_check. destruct (Loop.balance s <=? cent); [discriminate|reflexivity]. Qed.

Lemma payoff_check_break (s : Loop.t num) :
  snd (payoff_check s) = true -> (Loop.balance s <=? cent) = true.
Proof. unfold payoff_check. destruct (Loop.balance s <=? cent); [reflexivity|discriminate]. Qed.

(** The three loop bodies, by the method field as [calculateLoan]
    reads it. *)
Lemma engine_run_eq (p : Params num) :
  exists step,
    engine_run p =
      while (loop_cond (maxIterations p)) (fun s => payoff_check (step s))
        (N.to_nat (maxIterations p)) (loop_init p)
    /\ (step = equal_principal_step (periodicRate p) (basePrincipalPerPeriod p)
                 (extraPayment p)
        \/ step = interest_only_step (periodicRate p) (paymentsPerYear p)
                    (totalPeriods p) (plannedAnnualPrincipal p) (extraPayment p)
        \/ step = amortized_step (periodicRate p) (paymentWithExtra p)).
Proof.
  unfold engine_run.
  destruct (strict_equals (method p) METHODS.EQUAL_PRINCIPAL).
  - eexists; split; [reflexivity | auto].
  - destruct (strict_equals (method p) METHODS.INTEREST_ONLY).
    + eexists; split; [reflexivity | auto].
    + eexists; split; [reflexivity | auto].
Qed.

(** [calculateLoan] returns the schedule and the totals its loop ended
    with. *)
Lemma calculateLoan_run (p : Params num) :
  schedule (calculateLoan p) = Loop.schedule (fst (engine_run p))
  /\ totalPaid (summary (calculateLoan p)) = Loop.totalPaid (fst (engine_run p))
  /\ totalInterest (summary (calculateLoan p))
     = Loop.totalInterest (fst (engine_run p))
  /\ payoffLabel (summary (calculateLoan p))
     = formatPayoffTime (Loop.period (fst (engine_run p))) (paymentsPerYear p).
Proof.
  unfold calculateLoan, engine_run.
  destruct (strict_equals (method p) METHODS.EQUAL_PRINCIPAL);
    [|destruct (strict_equals (method p) METHODS.INTEREST_ONLY)];
    repeat split; reflexivity.
Qed.

Lemma amortized_step_pushes r w : pushes_one_row (amortized_step r w).
Proof. intros s. eexists. unfold amortized_step; cbn. repeat split. Qed.

Lemma equal_principal_step_pushes r b x :
  pushes_one_row (equal_principal_step r b x).
Proof. intros s. eexists. unfold equal_principal_step; cbn. repeat split. Qed.

Lemma interest_only_step_pushes r ppy n a x :
  pushes_one_row (interest_only_step r ppy n a x).
Proof. intros s. eexists. unfold interest_only_step; cbn. repeat split. Qed.

Lemma engine_step_pushes (p : Params num) :
  exists step,
    engine_run p =
      while (loop_cond (maxIterations p)) (fun s => payoff_check (step s))
        (N.to_nat (maxIterations p)) (loop_init p)
    /\ pushes_one_row step.
Proof.
  destruct (engine_run_eq p) as (step & Hrun & [E | [E | E]]);
    exists step; split; auto; subst step.
  - apply equal_principal_step_pushes.
  - apply interest_only_step_pushes.
  - apply amortized_step_pushes.
Qed.

(** The fuel of the embedding is never what stops a loop: the period
    reaches the cap first. *)
Lemma while_enough_fuel (step : Loop.t num -> Loop.t num) (cap : N) :
  pushes_one_row step ->
  forall fuel s,
    (cap <= Loop.period s + N.of_nat fuel)%N ->
    snd (while (loop_cond cap) (fun s => payoff_check (step s)) fuel s)
    <> ExitFuel.
Proof.
  intros Hstep fuel.
  induction fuel as [|k IH]; intros s Hle; simpl.
  - destruct (loop_cond cap s) eqn:E; [|discriminate].
    unfold loop_cond in E. apply andb_prop in E. destruct E as [_ E].
    apply N.ltb_lt in E. lia.
  - destruct (loop_cond cap s) eqn:E; [|discriminate].
    destruct (payoff_check (step s)) as [s' stop] eqn:P.
    destruct stop; [discriminate|].
    apply IH.
    assert (Hs' : s' = step s).
    { rewrite <- (payoff_check_continue (step s)); rewrite P; reflexivity. }
    subst s'. destruct (Hstep s) as (e & _ & Hp & _). rewrite Hp. lia.
Qed.

Lemma engine_run_terminates (p : Params num) :
  snd (engine_run p) <> ExitFuel.
Proof.
  destruct (engine_step_pushes p) as (step & Hrun & Hstep).
  rewrite Hrun. apply while_enough_fuel; [exact Hstep|].
  cbn. lia.
Qed.

Lemma engine_rows_numbered (p : Params num) :
  rows_numbered (fst (engine_run p)).
Proof.
  destruct (engine_step_pushes p) as (step & Hrun & Hstep).
  rewrite Hrun. apply while_invariant; [|reflexivity].
  intros s Hs _. unfold rows_numbered in *.
  rewrite payoff_check_schedule, payoff_check_period.
  destruct (Hstep s) as (e & Hsch & Hp & _).
  rewrite Hsch, Hp. unfold push. rewrite length_app. cbn. lia.
Qed.

End Structure.

Section LastRow.

Context {num : Type} `{Number num}.
Local Open Scope num_scope.

Lemma last_entry_push (sch : list (Entry.t num)) (e : Entry.t num) :
  last_entry (push sch e) = Some e.
Proof.
  unfold push, last_entry.
  destruct sch as [|a rest]; [reflexivity|].
  cbn [app]. f_equal. apply last_last.
Qed.


Lemma engine_last_row (p : Params num) :
  snd (engine_run p) = ExitCond -> last_row_current (fst (engine_run p)).
Proof.
  destruct (engine_step_pushes p) as (step & Hrun & Hstep).
  rewrite Hrun.
  apply (while_rule _ _ last_row_current
           (fun r => snd r = ExitCond -> last_row_current (fst r))).
  - intros s Hs _ _. exact Hs.
  - intros s _ _ Hx. discriminate Hx.
  - intros s _ _.
    destruct (snd (payoff_check (step s))) eqn:E.
    + intros Hx. discriminate Hx.
    + rewrite (payoff_check_continue _ E).
      unfold last_row_current.
      destruct (Hstep s) as (e & Hsch & Hp & Hep & Heb).
      rewrite Hsch, last_entry_push, Hp. auto.
  - exact I.
Qed.

(** In any arithmetic, a positive principal gives a schedule with at
    least one row: the loop condition holds at the start, and rows are
    only ever added. *)
Lemma engine_schedule_nonempty (p : Params num) :
  (principal p >? int 0) = true ->
  Loop.schedule (fst (engine_run p)) <> [].
Proof.
  intros HP.
  pose proof (engine_run_terminates p) as Hfuel. revert Hfuel.
  destruct (engine_step_pushes p) as (step & Hrun & Hstep).
  rewrite Hrun.
  apply (while_rule _ _
           (fun s => s = loop_init p \/ Loop.schedule s <> [])
           (fun r => snd r <> ExitFuel -> Loop.schedule (fst r) <> [])).
  - intros s [-> | Hs] Hc _; [|exact Hs]. exfalso.
    unfold loop_cond, loop_init, maxIterations in Hc.
    cbn [Loop.balance Loop.period] in Hc. rewrite HP in Hc.
    replace (0 <? totalPeriods p * 2 + 10)%N with true in Hc
      by (symmetry; apply N.ltb_lt; lia).
    discriminate Hc.
  - intros s _ _ Hx. exfalso. apply Hx. reflexivity.
  - intros s _ _.
    destruct (Hstep s) as (e & Hsch & _).
    destruct (snd (payoff_check (step s))) eqn:E.
    + intros _. cbn [fst]. rewrite payoff_check_schedule, Hsch.
      unfold push. destruct (Loop.schedule s); discriminate.
    + rewrite (payoff_check_continue _ E). right. rewrite Hsch.
      unfold push. destruct (Loop.schedule s); discriminate.
  - left. reflexivity.
Qed.


(** What [run_capped_check] establishes. *)
Lemma run_capped_check_sound (p : Params num) :
  run_capped_check p (engine_run p) = true ->
  valid_input p = true
  /\ capped_unpaid p
  /\ within cent
       (sum_of Entry.principal (Loop.schedule (fst (engine_run p))))
       (principal p) = false
  /\ exists e, last_entry (schedule (calculateLoan p)) = Some e
               /\ (Entry.balance e >? int 0) = true
               /\ (Entry.balance e =? int 0) = false.
Proof.
  unfold run_capped_check. intros E.
  apply andb_prop in E. destruct E as [E Hlast].
  apply andb_prop in E. destruct E as [E Hsum].
  apply andb_prop in E. destruct E as [E Hbal].
  apply andb_prop in E. destruct E as [E Hperiod].
  apply andb_prop in E. destruct E as [Hvalid Hexit].
  apply Exit_eqb_eq in Hexit. apply N.eqb_eq in Hperiod.
  apply negb_true_iff in Hsum.
  split; [exact Hvalid|]. split; [unfold capped_unpaid; auto|].
  split; [exact Hsum|].
  rewrite (proj1 (calculateLoan_run p)).
  destruct (last_entry (Loop.schedule (fst (engine_run p)))) as [e|];
    [|discriminate Hlast].
  apply andb_prop in Hlast. destruct Hlast as [Hpos Hnz].
  apply negb_true_iff in Hnz. exists e. auto.
Qed.

End LastRow.

(** ** The accounts of the schedule, in any arithmetic *)

Section Accounts.

Context {num : Type} `{Number num}.
Local Open Scope num_scope.

Lemma sum_of_pushed (f : Entry.t num -> num) (sch : list (Entry.t num))
  (e : Entry.t num) :
  sum_of f (push sch e) = sum_of f sch + f e.
Proof. unfold sum_of, push. rewrite fold_left_app. reflexivity. Qed.

(** The two totals are the running sums of the rows. *)
Lemma engine_running_sums (p : Params num) :
  Loop.totalInterest (fst (engine_run p))
  = sum_of Entry.interest (Loop.schedule (fst (engine_run p)))
  /\ Loop.totalPaid (fst (engine_run p))
     = sum_of Entry.payment (Loop.schedule (fst (engine_run p))).
Proof.
  destruct (engine_run_eq p) as (step & Hrun & Hstep).
  rewrite Hrun.
  apply (while_invariant _ _
           (fun s => Loop.totalInterest s = sum_of Entry.interest (Loop.schedule s)
                     /\ Loop.totalPaid s = sum_of Entry.payment (Loop.schedule s)));
    [|split; reflexivity].
  intros s [Hi Hp] _.
  rewrite payoff_check_schedule, payoff_check_totalInterest, payoff_check_totalPaid.
  destruct Hstep as [E | [E | E]]; subst step;
    [unfold equal_principal_step | unfold interest_only_step | unfold amortized_step];
    cbn [Loop.schedule Loop.totalInterest Loop.totalPaid];
    rewrite !sum_of_pushed, Hi, Hp; split; reflexivity.
Qed.

(** Every remaining balance is a [Math.max(0, ...)]. *)
Lemma engine_balances_max (p : Params num) :
  Forall (fun e => exists v, Entry.balance e = Math_max (int 0) v)
    (Loop.schedule (fst (engine_run p))).
Proof.
  destruct (engine_run_eq p) as (step & Hrun & Hstep).
  rewrite Hrun.
  apply (while_invariant _ _
           (fun s => Forall (fun e => exists v, Entry.balance e = Math_max (int 0) v)
                       (Loop.schedule s))); [|constructor].
  intros s Hs _. rewrite payoff_check_schedule.
  destruct Hstep as [E | [E | E]]; subst step;
    [unfold equal_principal_step | unfold interest_only_step | unfold amortized_step];
    cbn [Loop.schedule]; unfold push;
    (apply Forall_app; split; [exact Hs|]);
    (constructor; [|constructor]); cbn [Entry.balance]; eexists; reflexivity.
Qed.

Lemma last_cons {A : Type} (l : list A) (a b : A) :
  last (b :: l) a = last l b.
Proof.
  revert a b. induction l as [|c l IH]; intros a b; [reflexivity|].
  change (last (b :: c :: l) a) with (last (c :: l) a).
  rewrite (IH a c), (IH b c). reflexivity.
Qed.

Lemma balances_chain_push (start : num) (sch : list (Entry.t num))
  (e : Entry.t num) :
  balances_chain start sch ->
  Entry.balance e
  = Math_max (int 0)
      (match last_entry sch with
       | Some previous => Entry.balance previous
       | None => start
       end - Entry.principal e) ->
  balances_chain start (push sch e).
Proof.
  unfold push. revert start.
  induction sch as [|a rest IH]; intros start Hsch He.
  - cbn in *. auto.
  - cbn [app balances_chain] in *. destruct Hsch as [Ha Hrest].
    split; [exact Ha|]. apply IH; [exact Hrest|].
    rewrite He. destruct rest as [|b rest']; [reflexivity|].
    unfold last_entry. rewrite last_cons. reflexivity.
Qed.

(** One period of any method: the row it pushes takes its principal
    portion off the balance, and ties payment, principal portion and
    interest by one operation. *)
Lemma step_chain (p : Params num) (step : Loop.t num -> Loop.t num) :
  step = equal_principal_step (periodicRate p) (basePrincipalPerPeriod p)
           (extraPayment p)
  \/ step = interest_only_step (periodicRate p) (paymentsPerYear p)
              (totalPeriods p) (plannedAnnualPrincipal p) (extraPayment p)
  \/ step = amortized_step (periodicRate p) (paymentWithExtra p) ->
  forall s, exists e,
    Loop.schedule (step s) = push (Loop.schedule s) e
    /\ Entry.balance e = Loop.balance (step s)
    /\ Entry.balance e = Math_max (int 0) (Loop.balance s - Entry.principal e)
    /\ row_tied e.
Proof.
  intros [E | [E | E]] s; subst step; eexists;
    (split; [reflexivity|]); (split; [reflexivity|]); (split; [reflexivity|]);
    unfold row_tied; cbn [Entry.payment Entry.principal Entry.interest].
  - left. reflexivity.
  - right. left. reflexivity.
  - destruct (nltb (Loop.balance s)
                (Math_min (paymentWithExtra p)
                   (Loop.balance s
                    + period_interest (periodicRate p) (Loop.balance s))
                 - period_interest (periodicRate p) (Loop.balance s)));
      [left | right; right]; reflexivity.
Qed.

Lemma engine_chain (p : Params num) :
  balances_chain (principal p) (Loop.schedule (fst (engine_run p)))
  /\ Forall row_tied (Loop.schedule (fst (engine_run p))).
Proof.
  destruct (engine_run_eq p) as (step & Hrun & Hstep).
  rewrite Hrun.
  apply (while_rule _ _
           (fun s => balances_chain (principal p) (Loop.schedule s)
                     /\ Forall row_tied (Loop.schedule s)
                     /\ balance_current p s)
           (fun r => balances_chain (principal p) (Loop.schedule (fst r))
                     /\ Forall row_tied (Loop.schedule (fst r)))).
  - intros s (Hc & Ht & _) _. auto.
  - intros s (Hc & Ht & _) _. auto.
  - intros s (Hc & Ht & Hb) _.
    destruct (step_chain p step Hstep s) as (e & Hsch & Hbal & Hmax & Htied).
    assert (Hc' : balances_chain (principal p) (Loop.schedule (step s))).
    { rewrite Hsch. apply balances_chain_push; [exact Hc|].
      rewrite Hmax. unfold balance_current in Hb. rewrite Hb. reflexivity. }
    assert (Ht' : Forall row_tied (Loop.schedule (step s))).
    { rewrite Hsch. unfold push. apply Forall_app. split; [exact Ht|].
      constructor; [exact Htied|constructor]. }
    destruct (snd (payoff_check (step s))) eqn:Hstop.
    + cbn [fst]. rewrite payoff_check_schedule. auto.
    + rewrite (payoff_check_continue _ Hstop).
      split; [exact Hc'|]. split; [exact Ht'|].
      unfold balance_current. rewrite Hsch, last_entry_push. symmetry. exact Hbal.
  - split; [exact I|]. split; [constructor|]. reflexivity.
Qed.


End Accounts.

(** ** The stated properties that hold in any arithmetic *)

Lemma strict_equals_false (v : MethodValue) (s : string) :
  v <> MethodString s -> strict_equals v s = false.
Proof.
  intros Hne. destruct v as [t|]; [|reflexivity].
  cbn. apply String.eqb_neq. intros ->. apply Hne. reflexivity.
Qed.

Section Generic.

Context {num : Type} `{Number num}.
Local Open Scope num_scope.

(** C1, as amended.  When the period loop stops at the iteration cap
    [2 * totalPeriods + 10] with the balance still positive,
    [calculateLoan] returns normally: the caller receives the ordinary
    [{schedule, summary}] record holding the truncated schedule, with
    exactly [maxIterations] rows, a last row numbered [maxIterations]
    whose remaining balance is positive, and a payoff label formatted
    from [maxIterations] periods.  No failure is reported. *)
Theorem C1_cap_returns_truncated_schedule (p : Params num) :
  capped_unpaid p ->
  call_calculateLoan p = Return (calculateLoan p)
  /\ List.length (schedule (calculateLoan p)) = N.to_nat (maxIterations p)
  /\ (exists e, last_entry (schedule (calculateLoan p)) = Some e
                /\ Entry.period e = maxIterations p
                /\ (Entry.balance e >? int 0) = true)
  /\ payoffLabel (summary (calculateLoan p))
     = formatPayoffTime (maxIterations p) (paymentsPerYear p).
Proof.
  intros (Hexit & Hperiod & Hbal).
  destruct (calculateLoan_run p) as (Hsch & _ & _ & Hlabel).
  pose proof (engine_rows_numbered p) as Hrows.
  pose proof (engine_last_row p Hexit) as Hlast.
  unfold rows_numbered in Hrows. unfold last_row_current in Hlast.
  rewrite Hsch, Hlabel, Hperiod.
  split; [reflexivity|]. split; [lia|]. split; [|reflexivity].
  destruct (last_entry (Loop.schedule (fst (engine_run p)))) as [e|] eqn:E.
  - exists e. destruct Hlast as [Hp Hb]. rewrite Hp, Hb. auto.
  - exfalso. unfold last_entry in E.
    destruct (Loop.schedule (fst (engine_run p))); [|discriminate].
    cbn in Hrows. unfold maxIterations in Hperiod. lia.
Qed.

(** Every row the interest-only loop pushes while [extraPayment > 0] is
    false has a zero principal portion unless its period is the end of
    a year or [totalPeriods]. *)
Lemma interest_only_rows (p : Params num) :
  (extraPayment p >? int 0) = false ->
  Forall (fun e => repayment_period p e = false -> Entry.principal e = int 0)
    (Loop.schedule (fst (interest_only_run p))).
Proof.
  intros Hextra. unfold interest_only_run.
  apply (while_invariant _ _
           (fun s => Forall (fun e => repayment_period p e = false ->
                                      Entry.principal e = int 0)
                       (Loop.schedule s))); [|constructor].
  intros s Hs _. unfold interest_only_body.
  rewrite payoff_check_schedule.
  unfold interest_only_step; cbn [Loop.schedule]. unfold push.
  apply Forall_app. split; [exact Hs|].
  constructor; [|constructor].
  unfold repayment_period; cbn [Entry.period Entry.principal].
  intros Hrep. rewrite Hrep, Hextra. reflexivity.
Qed.

(** C6, as amended.  In the interest-only method with no extra payment
    ([extraPayment > 0] false, as it is for [extraPayment = 0]), every
    schedule row has principal portion 0 except the rows whose period
    satisfies [period % paymentsPerYear == 0] or equals [totalPeriods],
    the nominal last period of the term. *)
Theorem C6_interest_only_principal_zero (p : Params num) (e : Entry.t num) :
  (extraPayment p >? int 0) = false ->
  In e (schedule (calculateInterestOnlyLoan p)) ->
  (Entry.period e mod Npos (paymentsPerYear p) =? 0)%N = false ->
  (Entry.period e =? totalPeriods p)%N = false ->
  Entry.principal e = int 0.
Proof.
  intros Hextra Hin Hyear Hfinal.
  pose proof (interest_only_rows p Hextra) as Hall.
  rewrite Forall_forall in Hall.
  apply (Hall e Hin).
  unfold repayment_period. rewrite Hyear, Hfinal. reflexivity.
Qed.


(** C7, as amended.  For every input and every method, in the arithmetic
    of the program: [totalPaid] is the sum of the payments and
    [totalInterest] the sum of the interests, each added up from 0 in
    row order, and every row ties its payment, its principal portion and
    its interest by one operation: the payment is the sum of the two, or
    the principal portion is the payment less the interest. *)
Theorem C7_totals_add_up_tied_rows (p : Params num) :
  totalPaid (summary (calculateLoan p))
  = sum_of Entry.payment (schedule (calculateLoan p))
  /\ totalInterest (summary (calculateLoan p))
     = sum_of Entry.interest (schedule (calculateLoan p))
  /\ Forall row_tied (schedule (calculateLoan p)).
Proof.
  destruct (calculateLoan_run p) as (Hsch & Hpaid & Hint & _).
  destruct (engine_running_sums p) as [Hi Hp].
  rewrite Hsch, Hpaid, Hint.
  split; [exact Hp|]. split; [exact Hi|]. exact (proj2 (engine_chain p)).
Qed.

(** C10.  A parameter set whose method is any value other than the
    strings ["equal_principal"] and ["interest_only"], an unrecognised
    string or no string at all, gets exactly the result of the amortized
    algorithm, returned normally: the engine rejects nothing. *)
Theorem C10_other_methods_amortized (p : Params num) :
  method p <> MethodString METHODS.EQUAL_PRINCIPAL ->
  method p <> MethodString METHODS.INTEREST_ONLY ->
  calculateLoan p = calculateAmortizedLoan p
  /\ call_calculateLoan p = Return (calculateAmortizedLoan p).
Proof.
  intros Heq Hio.
  assert (E : calculateLoan p = calculateAmortizedLoan p).
  { unfold calculateLoan.
    rewrite (strict_equals_false _ _ Heq), (strict_equals_false _ _ Hio).
    reflexivity. }
  split; [exact E|]. unfold call_calculateLoan. rewrite E. reflexivity.
Qed.

End Generic.

(** ** The engine on the store *)

Section WhileSimulation.

Context {S1 S2 : Type}.
Variable R : S1 -> S2 -> Prop.
Variable cond1 : S1 -> bool.
Variable cond2 : S2 -> bool.
Variable body1 : S1 -> S1 * bool.
Variable body2 : S2 -> S2 * bool.

(** Two loops that step together end together. *)
Lemma while_simulation :
  (forall s1 s2, R s1 s2 -> cond1 s1 = cond2 s2) ->
  (forall s1 s2, R s1 s2 -> cond1 s1 = true ->
     R (fst (body1 s1)) (fst (body2 s2)) /\ snd (body1 s1) = snd (body2 s2)) ->
  forall fuel s1 s2, R s1 s2 ->
    R (fst (while cond1 body1 fuel s1)) (fst (while cond2 body2 fuel s2))
    /\ snd (while cond1 body1 fuel s1) = snd (while cond2 body2 fuel s2).
Proof.
  intros Hcond Hbody fuel.
  induction fuel as [|k IH]; intros s1 s2 Hs; cbn [while];
    rewrite <- (Hcond s1 s2 Hs); destruct (cond1 s1) eqn:E; auto.
  destruct (Hbody s1 s2 Hs E) as [Hr Hstop].
  destruct (body1 s1) as [s1' stop1], (body2 s2) as [s2' stop2].
  cbn [fst snd] in Hr, Hstop. subst stop2.
  destruct stop1; [auto|]. apply IH, Hr.
Qed.

End WhileSimulation.

Section StoreFacts.

Context {num : Type} `{Number num}.
Local Open Scope num_scope.

Lemma push_at_last (arrays : list (list (Entry.t num)))
  (array : list (Entry.t num)) (entry : Entry.t num) :
  push_at (List.length arrays) entry (push arrays array)
  = push arrays (push array entry).
Proof.
  unfold push. induction arrays as [|a rest IH]; [reflexivity|].
  cbn [List.length app push_at]. rewrite IH. reflexivity.
Qed.

Lemma array_at_last (arrays : list (list (Entry.t num)))
  (array : list (Entry.t num)) (st : Store.t num) :
  Store.arrays st = push arrays array ->
  array_at (List.length arrays) st = array.
Proof.
  intros E. unfold array_at, push in *. rewrite E, nth_middle. reflexivity.
Qed.

(** The check at the end of the loop body does the same on the store. *)
Lemma payoff_check_same (before : Store.t num)
  (fs : Frame.t num * Store.t num) (s : Loop.t num) :
  same_run before fs s ->
  same_run before (fst (payoff_check_on fs)) (fst (payoff_check s))
  /\ snd (payoff_check_on fs) = snd (payoff_check s).
Proof.
  intros (Hb & Hp & Hi & Ht & Hs & Ha & Hl & Hm).
  unfold payoff_check_on, payoff_check. destruct fs as [f st].
  cbn [fst snd] in *. rewrite Hb.
  destruct (Loop.balance s <=? cent); cbn [fst snd];
    unfold same_run; cbn [fst snd Frame.balance Frame.period Frame.totalInterest
                          Frame.totalPaid Frame.schedule Loop.balance Loop.period
                          Loop.totalInterest Loop.totalPaid Loop.schedule];
    auto 10.
Qed.

Ltac step_on_store :=
  intros [f st] s (Hb & Hp & Hi & Ht & Hs & Ha & Hl & Hm);
  cbn [fst snd] in *;
  unfold same_run;
  cbn [fst snd Frame.balance Frame.period Frame.totalInterest Frame.totalPaid
       Frame.schedule Loop.balance Loop.period Loop.totalInterest
       Loop.totalPaid Loop.schedule array_push Store.arrays
       Store.lastSchedule Store.lastSummary];
  rewrite Hb, Hp, Hi, Ht, Hs, Ha, push_at_last;
  repeat split; assumption.

Lemma amortized_same_step (before : Store.t num) (r w : num) :
  same_step before (amortized_step_on r w) (amortized_step r w).
Proof. unfold amortized_step_on, amortized_step. step_on_store. Qed.

Lemma equal_principal_same_step (before : Store.t num) (r b x : num) :
  same_step before (equal_principal_step_on r b x) (equal_principal_step r b x).
Proof. unfold equal_principal_step_on, equal_principal_step. step_on_store. Qed.

Lemma interest_only_same_step (before : Store.t num) (r : num)
  (ppy : positive) (n : N) (a x : num) :
  same_step before (interest_only_step_on r ppy n a x)
    (interest_only_step r ppy n a x).
Proof. unfold interest_only_step_on, interest_only_step. step_on_store. Qed.

(** A loop on the store ends as the functional loop does. *)
Lemma run_on_same (p : Params num) (before : Store.t num)
  (step_on : Frame.t num * Store.t num -> Frame.t num * Store.t num)
  (step : Loop.t num -> Loop.t num) :
  same_step before step_on step ->
  same_run before (run_on p step_on before)
    (fst (while (loop_cond (maxIterations p)) (fun s => payoff_check (step s))
            (N.to_nat (maxIterations p)) (loop_init p))).
Proof.
  intros Hstep. unfold run_on, new_array.
  apply (while_simulation (same_run before)).
  - intros fs s (Hb & Hp & _). unfold frame_cond, loop_cond. rewrite Hb, Hp.
    reflexivity.
  - intros fs s Hs _. apply payoff_check_same, Hstep, Hs.
  - unfold same_run, frame_init, loop_init. cbn. auto 10.
Qed.

(** On any store, [calculateLoan] returns the address of a new array
    that holds the schedule of the functional [calculateLoan], with the
    summary of the functional [calculateLoan]; it adds that array to the
    store and changes nothing else. *)
Lemma calculateLoan_on_store (p : Params num) (st : Store.t num) :
  schedule_at (fst (calculateLoan_on p st)) = List.length (Store.arrays st)
  /\ summary_of (fst (calculateLoan_on p st)) = summary (calculateLoan p)
  /\ Store.arrays (snd (calculateLoan_on p st))
     = push (Store.arrays st) (schedule (calculateLoan p))
  /\ Store.lastSchedule (snd (calculateLoan_on p st)) = Store.lastSchedule st
  /\ Store.lastSummary (snd (calculateLoan_on p st)) = Store.lastSummary st.
Proof.
  unfold calculateLoan_on, calculateLoan.
  destruct (strict_equals (method p) METHODS.EQUAL_PRINCIPAL);
    [|destruct (strict_equals (method p) METHODS.INTEREST_ONLY)].
  - unfold calculateEqualPrincipalLoan_on, calculateEqualPrincipalLoan.
    pose proof (run_on_same p st _ _
                  (equal_principal_same_step st (periodicRate p)
                     (basePrincipalPerPeriod p) (extraPayment p))) as Hrun.
    destruct (run_on p _ st) as [f st'].
    destruct Hrun as (Hb & Hp & Hi & Ht & Hs & Ha & Hl & Hm).
    cbn [fst snd] in *. unfold summary_on. cbn [schedule_at summary_of schedule summary].
    rewrite Hs, (array_at_last _ _ _ Ha), Hp, Hi, Ht.
    repeat split; assumption.
  - unfold calculateInterestOnlyLoan_on, calculateInterestOnlyLoan.
    pose proof (run_on_same p st _ _
                  (interest_only_same_step st (periodicRate p) (paymentsPerYear p)
                     (totalPeriods p) (plannedAnnualPrincipal p) (extraPayment p)))
      as Hrun.
    destruct (run_on p _ st) as [f st'].
    destruct Hrun as (Hb & Hp & Hi & Ht & Hs & Ha & Hl & Hm).
    cbn [fst snd] in *. unfold summary_on. cbn [schedule_at summary_of schedule summary].
    rewrite Hs, (array_at_last _ _ _ Ha), Hp, Hi, Ht.
    repeat split; assumption.
  - unfold calculateAmortizedLoan_on, calculateAmortizedLoan.
    pose proof (run_on_same p st _ _
                  (amortized_same_step st (periodicRate p) (paymentWithExtra p)))
      as Hrun.
    destruct (run_on p _ st) as [f st'].
    destruct Hrun as (Hb & Hp & Hi & Ht & Hs & Ha & Hl & Hm).
    cbn [fst snd] in *. unfold summary_on. cbn [schedule_at summary_of schedule summary].
    rewrite Hs, Hp, Hi, Ht.
    repeat split; assumption.
Qed.

(** C8.  On the store, two invocations of [calculateLoan] with equal
    parameter sets return equal schedules and equal summaries, whatever
    the two stores hold: the arrays of earlier invocations, [lastSchedule]
    and [lastSummary] are neither read nor written.  Each invocation
    returns a newly allocated array and leaves every array and variable
    that existed before as it was. *)
Theorem C8_calculateLoan_keeps_no_state (st1 st2 : Store.t num)
  (p1 p2 : Params num) :
  p1 = p2 ->
  let r1 := calculateLoan_on p1 st1 in
  let r2 := calculateLoan_on p2 st2 in
  array_at (schedule_at (fst r1)) (snd r1) = array_at (schedule_at (fst r2)) (snd r2)
  /\ summary_of (fst r1) = summary_of (fst r2)
  /\ (forall address, (address < List.length (Store.arrays st1))%nat ->
        array_at address (snd r1) = array_at address st1)
  /\ List.length (Store.arrays (snd r1)) = S (List.length (Store.arrays st1))
  /\ schedule_at (fst r1) = List.length (Store.arrays st1)
  /\ Store.lastSchedule (snd r1) = Store.lastSchedule st1
  /\ Store.lastSummary (snd r1) = Store.lastSummary st1.
Proof.
  intros <- r1 r2. subst r1 r2.
  destruct (calculateLoan_on_store p1 st1) as (Ha1 & Hs1 & Hh1 & Hl1 & Hm1).
  destruct (calculateLoan_on_store p1 st2) as (Ha2 & Hs2 & Hh2 & _ & _).
  rewrite Ha1, Ha2, Hs1, Hs2.
  rewrite (array_at_last _ _ _ Hh1), (array_at_last _ _ _ Hh2).
  split; [reflexivity|]. split; [reflexivity|].
  split; [|split; [|auto]].
  - intros address Hlt. unfold array_at. rewrite Hh1. unfold push.
    apply app_nth1. exact Hlt.
  - rewrite Hh1. unfold push. rewrite length_app. cbn. lia.
Qed.

End StoreFacts.

(** ** The payoff-duration formatter *)

Lemma join_parts_one (s : string) : join_parts [s] = s.
Proof. reflexivity. Qed.

(** The decimal text of a number begins with a digit, which the label
    of the empty duration does not. *)
Lemma whole_years_not_empty_label (n : N) :
  Number_toString n ++ "年" <> "不足一个周期".
Proof.
  unfold Number_toString, NilZero.string_of_uint.
  destruct (N.to_uint n); cbn [NilEmpty.string_of_uint append];
    intro E; discriminate E.
Qed.

(** C9.  For a positive period count that is an exact multiple
    [n * paymentsPerYear] with [n >= 1], [formatPayoffTime] returns the
    whole-years part alone, the decimal text of [n] followed by "年",
    with no remainder part; for a period count of 0 it returns the
    label "不足一个周期", which no whole-years label equals. *)
Theorem C9_formatPayoffTime_whole_years (n : N) (ppy : positive) :
  (1 <= n)%N ->
  formatPayoffTime (n * Npos ppy) ppy = Number_toString n ++ "年"
  /\ formatPayoffTime 0 ppy = "不足一个周期"
  /\ formatPayoffTime (n * Npos ppy) ppy <> formatPayoffTime 0 ppy.
Proof.
  intros Hn.
  assert (Hyears : formatPayoffTime (n * Npos ppy) ppy
                   = Number_toString n ++ "年").
  { unfold formatPayoffTime.
    rewrite N.div_mul by discriminate.
    rewrite N.Div0.mod_mul.
    replace (n =? 0)%N with false by (symmetry; apply N.eqb_neq; lia).
    replace (0 <? n)%N with true by (symmetry; apply N.ltb_lt; lia).
    cbn [andb N.ltb N.compare]. apply join_parts_one. }
  assert (Hzero : formatPayoffTime 0 ppy = "不足一个周期").
  { unfold formatPayoffTime.
    rewrite N.Div0.div_0_l, N.Div0.mod_0_l. reflexivity. }
  split; [exact Hyears|]. split; [exact Hzero|].
  rewrite Hyears, Hzero. apply whole_years_not_empty_label.
Qed.

(** 52 periods at 52 payments per year: "1年". *)
Lemma C9_witness :
  (1 <= 1)%N
  /\ formatPayoffTime 52 52 = "1年"
  /\ formatPayoffTime 0 52 = "不足一个周期"
  /\ formatPayoffTime 52 52 <> formatPayoffTime 0 52.
Proof. split; [lia | exact (C9_formatPayoffTime_whole_years 1 52 ltac:(lia))]. Defined.

(** ** The order of binary64 *)

Section FloatOrder.

Lemma SFcompare_antisym (x y : spec_float) (c : comparison) :
  SFcompare x y = Some c -> SFcompare y x = Some (CompOpp c).
Proof.
  destruct x as [sx|sx| |sx mx ex], y as [sy|sy| |sy my ey]; cbn;
    try discriminate;
    try (destruct sx; intros E; injection E as <-; reflexivity);
    try (destruct sy; intros E; injection E as <-; reflexivity);
    try (destruct sx, sy; intros E; injection E as <-; reflexivity).
  intros E. injection E as <-. f_equal.
  fold (Pos.compare mx my). fold (Pos.compare my mx).
  rewrite (Z.compare_antisym ey ex), (Pos.compare_antisym my mx).
  destruct sx, sy; try reflexivity;
    destruct (ey ?= ex)%Z; cbn; try reflexivity;
    destruct (my ?= mx)%positive; reflexivity.
Qed.

Lemma SFcompare_defined (x y : spec_float) :
  x <> S754_nan -> y <> S754_nan -> exists c, SFcompare x y = Some c.
Proof.
  destruct x as [sx|sx| |sx mx ex], y as [sy|sy| |sy my ey]; cbn;
    intros; try congruence; eauto.
Qed.

(** A float is NaN exactly when its specification is. *)
Lemma is_nan_Prim2SF (x : float) :
  is_nan x = true <-> Prim2SF x = S754_nan.
Proof.
  unfold is_nan. rewrite FloatAxioms.eqb_spec. unfold SFeqb.
  destruct (Prim2SF x) as [s|s| |s m e]; cbn.
  - split; [discriminate | discriminate].
  - destruct s; split; discriminate.
  - split; reflexivity.
  - rewrite Z.compare_refl. fold (Pos.compare m m). rewrite Pos.compare_refl.
    destruct s; split; discriminate.
Qed.

Lemma not_nan (x : float) : is_nan x = false -> Prim2SF x <> S754_nan.
Proof.
  intros E N. apply is_nan_Prim2SF in N. congruence.
Qed.

Lemma ltb_asym (x y : float) :
  PrimFloat.ltb x y = true -> PrimFloat.ltb y x = false.
Proof.
  rewrite !FloatAxioms.ltb_spec. unfold SFltb.
  destruct (SFcompare (Prim2SF x) (Prim2SF y)) as [c|] eqn:E; [|discriminate].
  rewrite (SFcompare_antisym _ _ _ E). destruct c; (discriminate || reflexivity).
Qed.

(** Numbers other than NaN are totally ordered. *)
Lemma leb_negb_ltb (x y : float) :
  is_nan x = false -> is_nan y = false ->
  PrimFloat.leb x y = negb (PrimFloat.ltb y x).
Proof.
  intros Hx Hy. rewrite FloatAxioms.leb_spec, FloatAxioms.ltb_spec.
  unfold SFleb, SFltb.
  destruct (SFcompare_defined _ _ (not_nan x Hx) (not_nan y Hy)) as [c Hc].
  rewrite Hc, (SFcompare_antisym _ _ _ Hc). destruct c; reflexivity.
Qed.

Lemma is_finite_not_nan (x : float) : is_finite x = true -> is_nan x = false.
Proof.
  unfold is_finite. intros E. apply negb_true_iff in E.
  apply orb_false_iff in E. exact (proj1 E).
Qed.

(** NaN compares false with everything. *)
Lemma nan_ltb (x y : float) :
  is_nan x = true -> PrimFloat.ltb x y = false /\ PrimFloat.ltb y x = false.
Proof.
  intros E. apply is_nan_Prim2SF in E.
  rewrite !FloatAxioms.ltb_spec. unfold SFltb. rewrite E.
  split; [reflexivity|]. destruct (Prim2SF y); reflexivity.
Qed.

(** An infinity is below or above 0. *)
Lemma infinity_truthy (x : float) :
  is_infinity x = true -> truthy x = true.
Proof.
  unfold is_infinity, truthy.
  cbn [nltb int Binary64.Number_float].
  rewrite FloatAxioms.eqb_spec, FloatAxioms.abs_spec, !FloatAxioms.ltb_spec.
  change (Prim2SF infinity) with (S754_infinity false).
  change (Prim2SF (Binary64.of_Q (inject_Z (Z.of_N 0)))) with (S754_zero false).
  unfold SFeqb, SFltb.
  destruct (Prim2SF x) as [s|s| |s m e]; cbn; try discriminate.
  destruct s; reflexivity.
Qed.

Lemma max_zero_not_negative (v : float) :
  PrimFloat.ltb (Binary64.max (int 0) v) (int 0) = false.
Proof.
  change (int 0 : float) with PrimFloat.zero.
  unfold Binary64.max.
  destruct (is_nan PrimFloat.zero || is_nan v)%bool; [reflexivity|].
  destruct (PrimFloat.ltb PrimFloat.zero v) eqn:E; [exact (ltb_asym _ _ E)|].
  destruct (PrimFloat.ltb v PrimFloat.zero); reflexivity.
Qed.

End FloatOrder.

(** ** Rounding to binary64 *)

(** The operations of binary64 round to nearest, ties to even.  What
    follows derives, from their definitions in [SpecFloat], that rounding
    keeps the order of the values it rounds, and with it how the sum, the
    difference, the product and the quotient of two numbers that are not
    negative compare with these numbers. *)

Section Rounding.

Local Open Scope Z_scope.

(** *** Digits *)

Lemma digits2_log2 (p : positive) :
  Zpos (digits2_pos p) = Z.log2 (Zpos p) + 1.
Proof.
  assert (E : digits2_pos p = Pos.size p).
  { induction p as [p IH|p IH|]; cbn; [rewrite IH| rewrite IH|]; reflexivity. }
  rewrite E. destruct p; simpl; lia.
Qed.

Lemma digits2_bounds (p : positive) :
  2 ^ (Zpos (digits2_pos p) - 1) <= Zpos p < 2 ^ Zpos (digits2_pos p).
Proof.
  rewrite digits2_log2.
  replace (Z.log2 (Zpos p) + 1 - 1) with (Z.log2 (Zpos p)) by lia.
  apply (Z.log2_spec (Zpos p)). lia.
Qed.

(** The number of digits is fixed by the binade. *)
Lemma digits2_unique (p : positive) (d : Z) :
  2 ^ (d - 1) <= Zpos p < 2 ^ d -> Zpos (digits2_pos p) = d.
Proof.
  intros H. rewrite digits2_log2.
  assert (Hd : 0 < d).
  { destruct (Z_lt_le_dec 0 d) as [Hd|Hd]; [exact Hd|]. exfalso.
    destruct (Z.eq_dec d 0) as [->|Hne]; [cbn in H; lia|].
    rewrite (Z.pow_neg_r 2 d) in H by lia. lia. }
  rewrite (Z.log2_unique (Zpos p) (d - 1)); [lia | lia |].
  replace (Z.succ (d - 1)) with d by lia. exact H.
Qed.

Lemma pow2_pos (n : Z) : 0 <= n -> 0 < 2 ^ n.
Proof. intros. apply Z.pow_pos_nonneg; lia. Qed.

Lemma pow2_le (n m : Z) : 0 <= n <= m -> 2 ^ n <= 2 ^ m.
Proof. intros. apply Z.pow_le_mono_r; lia. Qed.


Lemma pow2_add (n m : Z) : 0 <= n -> 0 <= m -> 2 ^ (n + m) = 2 ^ n * 2 ^ m.
Proof. intros. apply Z.pow_add_r; lia. Qed.

Lemma pow2_succ (n : Z) : 0 <= n -> 2 ^ (n + 1) = 2 * 2 ^ n.
Proof. intros. rewrite pow2_add by lia. change (2 ^ 1) with 2. lia. Qed.

(** *** The position of a value between two integers *)

Ltac by_comparison :=
  repeat match goal with
         | H : context [(?x ?= ?y)] |- _ => destruct (Z.compare_spec x y)
         | |- context [(?x ?= ?y)] => destruct (Z.compare_spec x y)
         end.

Lemma shr_1_located (mrs : shr_record) (a b : Z) :
  0 <= shr_m mrs ->
  located (shr_m mrs) (loc_of_shr_record mrs) a b ->
  0 <= shr_m (shr_1 mrs)
  /\ located (shr_m (shr_1 mrs)) (loc_of_shr_record (shr_1 mrs)) a (2 * b).
Proof.
  destruct mrs as [m r s]. cbn [shr_m]. intros Hm (Hb & Hab & Hl).
  unfold located.
  destruct m as [|p|p]; [| |lia]; [|destruct p as [p|p|]];
    destruct r, s;
    cbn [shr_1 shr_m loc_of_shr_record orb] in *;
    try (match type of Hl with _ /\ _ => destruct Hl as [Hl Hc] end);
    (split; [lia|]); (split; [lia|]); (split; [lia|]);
    by_comparison; try discriminate; try lia;
    (split; [lia|]); by_comparison; try lia; reflexivity.
Qed.

Lemma iter_shr_1_located (n : positive) :
  forall (mrs : shr_record) (a b : Z),
    0 <= shr_m mrs ->
    located (shr_m mrs) (loc_of_shr_record mrs) a b ->
    0 <= shr_m (SpecFloat.iter_pos shr_1 n mrs)
    /\ located (shr_m (SpecFloat.iter_pos shr_1 n mrs))
         (loc_of_shr_record (SpecFloat.iter_pos shr_1 n mrs)) a (2 ^ Zpos n * b).
Proof.
  induction n as [n IH|n IH|]; intros mrs a b Hm Hl; cbn [SpecFloat.iter_pos].
  - destruct (shr_1_located mrs a b Hm Hl) as [Hm1 Hl1].
    destruct (IH _ _ _ Hm1 Hl1) as [Hm2 Hl2].
    destruct (IH _ _ _ Hm2 Hl2) as [Hm3 Hl3].
    split; [exact Hm3|].
    replace (2 ^ Zpos n~1 * b) with (2 ^ Zpos n * (2 ^ Zpos n * (2 * b)));
      [exact Hl3|].
    rewrite (Pos2Z.inj_xI n).
    replace (2 * Zpos n + 1) with (Zpos n + Zpos n + 1) by lia.
    rewrite pow2_succ, pow2_add by lia. ring.
  - destruct (IH _ _ _ Hm Hl) as [Hm2 Hl2].
    destruct (IH _ _ _ Hm2 Hl2) as [Hm3 Hl3].
    split; [exact Hm3|].
    replace (2 ^ Zpos n~0 * b) with (2 ^ Zpos n * (2 ^ Zpos n * b));
      [exact Hl3|].
    rewrite (Pos2Z.inj_xO n).
    replace (2 * Zpos n) with (Zpos n + Zpos n) by lia.
    rewrite pow2_add by lia. ring.
  - apply shr_1_located; assumption.
Qed.

(** [shr] by [n] places, on a value placed by a mantissa and a
    location. *)
Lemma shr_located (m : Z) (l : location) (e n a b : Z) :
  0 <= m -> located m l a b ->
  let r := shr (shr_record_of_loc m l) e n in
  0 <= shr_m (fst r)
  /\ located (shr_m (fst r)) (loc_of_shr_record (fst r)) a (2 ^ Z.max 0 n * b)
  /\ snd r = e + Z.max 0 n.
Proof.
  intros Hm Hl.
  assert (Hm0 : 0 <= shr_m (shr_record_of_loc m l))
    by (destruct l as [|[]]; exact Hm).
  assert (Hl0 : located (shr_m (shr_record_of_loc m l))
                  (loc_of_shr_record (shr_record_of_loc m l)) a b)
    by (destruct l as [|[]]; exact Hl).
  destruct n as [|p|p]; cbn [shr fst snd].
  - change (Z.max 0 0) with 0. rewrite Z.mul_1_l, Z.add_0_r. auto.
  - replace (Z.max 0 (Zpos p)) with (Zpos p) by lia.
    destruct (iter_shr_1_located p _ a b Hm0 Hl0). auto.
  - replace (Z.max 0 (Zneg p)) with 0 by lia.
    change (2 ^ 0) with 1. rewrite Z.mul_1_l, Z.add_0_r. auto.
Qed.

(** *** Rounding to the nearest integer, ties to even *)

Lemma round_nearest_even_spec (m : Z) (l : location) (a b : Z) :
  located m l a b -> nearest_even (round_nearest_even m l) a b.
Proof.
  intros (Hb & Hab & Hl). unfold nearest_even.
  destruct l as [|c]; cbn [round_nearest_even].
  - subst a. repeat split; lia.
  - destruct Hl as [Hl Hc]. destruct c; by_comparison; try discriminate.
    + destruct (Z.even m) eqn:Heven.
      * repeat split; try lia. intros _. exact Heven.
      * repeat split; try lia. intros _.
        rewrite Z.even_add, Heven. reflexivity.
    + repeat split; lia.
    + repeat split; lia.
Qed.

Lemma round_nearest_even_cases (m : Z) (l : location) :
  round_nearest_even m l = m \/ round_nearest_even m l = m + 1.
Proof. destruct l as [|[]]; cbn; auto. destruct (Z.even m); auto. Qed.

(** Rounding is monotone. *)
Lemma nearest_even_mono (k1 a1 b1 k2 a2 b2 : Z) :
  0 < b1 -> 0 < b2 ->
  nearest_even k1 a1 b1 -> nearest_even k2 a2 b2 ->
  a1 * b2 <= a2 * b1 -> k1 <= k2.
Proof.
  intros Hb1 Hb2 (Hu1 & Hl1 & He1 & _) (Hu2 & Hl2 & _ & He2) Hle.
  destruct (Z_le_gt_dec k1 k2) as [H|H]; [exact H|exfalso].
  assert (H1 : 2 * (k1 * b1) * b2 <= (2 * a1 + b1) * b2)
    by (apply Z.mul_le_mono_nonneg_r; lia).
  assert (H2 : (2 * a2 - b2) * b1 <= 2 * (k2 * b2) * b1)
    by (apply Z.mul_le_mono_nonneg_r; lia).
  assert (Hbb : 0 < b1 * b2) by (apply Z.mul_pos_pos; lia).
  assert (Hk : (k2 + 1) * (b1 * b2) <= k1 * (b1 * b2))
    by (apply Z.mul_le_mono_nonneg_r; lia).
  assert (E1 : 2 * (k1 * b1) * b2 = (2 * a1 + b1) * b2) by nia.
  assert (E2 : (2 * a2 - b2) * b1 = 2 * (k2 * b2) * b1) by nia.
  assert (Ek : k1 * (b1 * b2) = (k2 + 1) * (b1 * b2)) by nia.
  apply Z.mul_cancel_r in E1; [|lia].
  apply Z.mul_cancel_r in E2; [|lia].
  apply Z.mul_cancel_r in Ek; [|lia].
  pose proof (He1 E1) as Ev1. pose proof (He2 (eq_sym E2)) as Ev2.
  subst k1. rewrite Z.even_add, Ev2 in Ev1. discriminate Ev1.
Qed.

(** Rounding does not pass an integer. *)
Lemma nearest_even_below (k a b n : Z) :
  0 < b -> nearest_even k a b -> a <= n * b -> k <= n.
Proof.
  intros Hb (Hu & _) Hle.
  destruct (Z_le_gt_dec k n) as [H|H]; [exact H|exfalso].
  assert ((n + 1) * b <= k * b) by (apply Z.mul_le_mono_nonneg_r; lia).
  nia.
Qed.

Lemma nearest_even_above (k a b n : Z) :
  0 < b -> nearest_even k a b -> n * b <= a -> n <= k.
Proof.
  intros Hb (_ & Hl & _) Hle.
  destruct (Z_le_gt_dec n k) as [H|H]; [exact H|exfalso].
  assert ((k + 1) * b <= n * b) by (apply Z.mul_le_mono_nonneg_r; lia).
  nia.
Qed.

(** An integer rounds to itself. *)
Lemma nearest_even_integer (k n b : Z) :
  0 < b -> nearest_even k (n * b) b -> k = n.
Proof.
  intros Hb Hk.
  pose proof (nearest_even_below k _ b n Hb Hk ltac:(lia)).
  pose proof (nearest_even_above k _ b n Hb Hk ltac:(lia)). lia.
Qed.

Lemma nearest_even_of_integer (n b : Z) : 0 < b -> nearest_even n (n * b) b.
Proof. intros Hb. unfold nearest_even. repeat split; lia. Qed.

(** The rounding of a value does not depend on how the value is
    written. *)
Lemma nearest_even_scale (k a b c : Z) :
  0 < c -> nearest_even k a b <-> nearest_even k (a * c) (b * c).
Proof.
  intros Hc. unfold nearest_even.
  replace (2 * (k * (b * c))) with (2 * (k * b) * c) by ring.
  replace (2 * (a * c) + b * c) with ((2 * a + b) * c) by ring.
  replace (2 * (a * c) - b * c) with ((2 * a - b) * c) by ring.
  rewrite <- !Z.mul_le_mono_pos_r by exact Hc.
  rewrite !Z.mul_cancel_r by lia. reflexivity.
Qed.

(** *** [binary_round_aux] *)

Lemma fexp_64 (e : Z) : fexp prec emax e = fexp64 e.
Proof. reflexivity. Qed.

Lemma bounded_intro (m : positive) (e : Z) :
  -1074 <= e <= 971 -> fexp64 (Zpos (digits2_pos m) + e) = e ->
  bounded prec emax m e = true.
Proof.
  intros He Hc. unfold bounded, canonical_mantissa. rewrite fexp_64, Hc.
  rewrite Z.eqb_refl. change (emax - prec) with 971.
  apply Z.leb_le. lia.
Qed.

Lemma shr_nonpos (mrs : shr_record) (e n : Z) :
  n <= 0 -> shr mrs e n = (mrs, e).
Proof. destruct n; [reflexivity | lia | reflexivity]. Qed.

Lemma Zdigits2_log2 (k : Z) : 0 < k -> Zdigits2 k = Z.log2 k + 1.
Proof. destruct k; [lia | intros _; apply digits2_log2 | lia]. Qed.

Lemma binary_round_aux_spec (sx : bool) (mx ex : Z) (lx : location) (a b : Z) :
  0 <= mx -> located mx lx a b ->
  ex <= fexp64 (Zdigits2 mx + ex) ->
  exists k,
    nearest_even k a (2 ^ (fexp64 (Zdigits2 mx + ex) - ex) * b)
    /\ 0 <= k
    /\ result_is (binary_round_aux prec emax sx mx ex lx) sx k
         (fexp64 (Zdigits2 mx + ex)).
Proof.
  intros Hmx Hloc H0.
  set (E := fexp64 (Zdigits2 mx + ex)) in *.
  assert (HE : -1074 <= E) by (unfold E, fexp64; lia).
  unfold binary_round_aux, shr_fexp. rewrite fexp_64. fold E.
  destruct (shr_located mx lx ex (E - ex) a b ltac:(lia) Hloc) as (Hm' & Hl' & He').
  destruct (shr (shr_record_of_loc mx lx) ex (E - ex)) as [mrs' e'].
  cbn [fst snd] in Hm', Hl', He'.
  replace (Z.max 0 (E - ex)) with (E - ex) in * by lia.
  assert (Ee : e' = E) by lia. clear He'. subst e'.
  set (k := round_nearest_even (shr_m mrs') (loc_of_shr_record mrs')).
  assert (Hk : nearest_even k a (2 ^ (E - ex) * b))
    by (apply round_nearest_even_spec; exact Hl').
  assert (Hk0 : 0 <= k).
  { destruct (round_nearest_even_cases (shr_m mrs') (loc_of_shr_record mrs'));
      unfold k; lia. }
  exists k. split; [exact Hk|]. split; [exact Hk0|].
  (* the binade of the value *)
  destruct Hloc as (Hb & Hab & _).
  set (d := Zdigits2 mx) in *.
  assert (Hd : 0 <= d /\ mx < 2 ^ d /\ (0 < d -> 2 ^ (d - 1) <= mx)).
  { unfold d. destruct mx as [|p|p]; [cbn; lia| |lia]. cbn [Zdigits2].
    pose proof (digits2_bounds p). split; [lia|]. split; [lia|]. intros _. lia. }
  destruct Hd as (Hd0 & Hdu & Hdl).
  assert (Ha : a < 2 ^ d * b) by nia.
  assert (Hb' : 0 < 2 ^ (E - ex) * b)
    by (apply Z.mul_pos_pos; [apply pow2_pos; lia | lia]).
  assert (Hk53 : k <= 2 ^ 53).
  { apply (nearest_even_below k a _ _ Hb' Hk).
    assert (2 ^ d <= 2 ^ (53 + (E - ex)))
      by (apply pow2_le; unfold E, fexp64; lia).
    rewrite pow2_add in * by lia. nia. }
  assert (Hk52 : -1074 < E -> 2 ^ 52 <= k).
  { intros Hn. apply (nearest_even_above k a _ _ Hb' Hk).
    assert (Ed : d - 1 = 52 + (E - ex)) by (unfold E, fexp64 in *; lia).
    pose proof (Hdl ltac:(lia)) as Hl. rewrite Ed in Hl.
    rewrite (pow2_add 52 (E - ex)) in Hl by lia. nia. }
  (* the second shift *)
  destruct (Z.eq_dec k 0) as [Hz|Hnz].
  - rewrite Hz. cbn [Zdigits2 shr_record_of_loc].
    rewrite shr_nonpos by (rewrite fexp_64; unfold fexp64; lia).
    cbn [shr_m]. left. auto.
  - destruct (Z.eq_dec k (2 ^ 53)) as [Hp|Hnp].
    + rewrite Hp.
      replace (fexp prec emax (Zdigits2 (2 ^ 53) + E) - E) with 1
        by (rewrite fexp_64; change (Zdigits2 (2 ^ 53)) with 54;
            unfold fexp64; lia).
      change (shr (shr_record_of_loc (2 ^ 53) loc_Exact) E 1)
        with ({| shr_m := 2 ^ 52; shr_r := false; shr_s := false |}, E + 1).
      cbn [shr_m]. change (2 ^ 52) with (Zpos (2 ^ 52)).
      change (emax - prec) with 971.
      destruct (Z.leb_spec (E + 1) 971) as [Hle|Hgt].
      * right. left. exists (2 ^ 52)%positive, (E + 1).
        split; [reflexivity|]. split; [lia|]. split.
        -- replace (E + 1 + 1074) with (E + 1074 + 1) by lia.
           rewrite pow2_succ by lia.
           change (Zpos (2 ^ 52)) with (2 ^ 52). change (2 ^ 53) with (2 * 2 ^ 52).
           ring.
        -- apply bounded_intro; [lia|].
           change (Zpos (digits2_pos (2 ^ 52))) with 53. unfold fexp64. lia.
      * right. right. split; [reflexivity|].
        assert (2 ^ 2045 <= 2 ^ (E + 1074)) by (apply pow2_le; lia).
        change (2 ^ 2098) with (2 ^ 53 * 2 ^ 2045).
        apply Z.mul_le_mono_nonneg_l; [|assumption].
        apply Z.pow_nonneg. lia.
    + assert (Hlt : 0 < k < 2 ^ 53) by lia.
      assert (Hdk : Zdigits2 k <= 53).
      { rewrite Zdigits2_log2 by lia.
        assert (Z.log2 k < 53) by (apply Z.log2_lt_pow2; lia). lia. }
      rewrite shr_nonpos by (rewrite fexp_64; unfold fexp64; lia).
      cbn [shr_record_of_loc shr_m].
      destruct k as [|pk|pk]; [lia| |lia].
      change (emax - prec) with 971.
      destruct (Z.leb_spec E 971) as [Hle|Hgt].
      * right. left. exists pk, E. split; [reflexivity|]. split; [lia|].
        split; [reflexivity|]. apply bounded_intro; [lia|].
        cbn [Zdigits2] in Hdk. pose proof (digits2_bounds pk) as Hb2.
        set (dk := Zpos (digits2_pos pk)) in *.
        destruct (Z.eq_dec E (-1074)) as [En|En];
          [rewrite En; unfold fexp64; lia|].
        pose proof (Hk52 ltac:(lia)) as H52.
        assert (52 < dk).
        { apply (Z.pow_lt_mono_r_iff 2); lia. }
        unfold fexp64. lia.
      * right. right. split; [reflexivity|].
        assert (2 ^ 2046 <= 2 ^ (E + 1074)) by (apply pow2_le; lia).
        pose proof (Hk52 ltac:(lia)) as H52.
        change (2 ^ 2098) with (2 ^ 52 * 2 ^ 2046).
        apply Z.mul_le_mono_nonneg; lia.
Qed.

(** *** Rounding a value *)

Lemma scale_bounds (lo hi a b c : Z) :
  0 < c -> lo * b <= a < hi * b -> lo * c * b <= a * c < hi * c * b.
Proof.
  intros Hc [H1 H2]. split.
  - replace (lo * c * b) with (lo * b * c) by ring.
    apply Z.mul_le_mono_nonneg_r; lia.
  - replace (hi * c * b) with (hi * b * c) by ring.
    apply Z.mul_lt_mono_pos_r; lia.
Qed.

Lemma binary_round_aux_rounded (sx : bool) (mx ex : Z) (lx : location)
  (a b : Z) :
  0 < mx -> located mx lx a b -> - unit_exponent <= ex ->
  ex <= fexp64 (Zdigits2 mx + ex) ->
  rounded sx (a * 2 ^ (ex + unit_exponent)) b (binary_round_aux prec emax sx mx ex lx).
Proof.
  intros Hmx Hloc HK H0.
  destruct (binary_round_aux_spec sx mx ex lx a b ltac:(lia) Hloc H0)
    as (k & Hk & Hk0 & HR).
  destruct Hloc as (Hb & Hab & _).
  split; [exact Hb|].
  assert (Hd : 0 < Zdigits2 mx /\ 2 ^ (Zdigits2 mx - 1) <= mx < 2 ^ Zdigits2 mx).
  { destruct mx as [|p|p]; [lia| |lia]. cbn [Zdigits2].
    split; [lia | apply digits2_bounds]. }
  destruct Hd as [Hd0 Hd].
  set (d := Zdigits2 mx) in *. set (E := fexp64 (d + ex)) in *.
  assert (HE : -1074 <= E) by (unfold E, fexp64; lia).
  exists (d + ex), k. fold E.
  assert (Hc : 0 < 2 ^ (ex + unit_exponent)) by (apply pow2_pos; lia).
  split; [lia|]. split; [|split; [|exact HR]].
  - replace (d + ex - 1 + unit_exponent) with (d - 1 + (ex + unit_exponent)) by lia.
    replace (d + ex + unit_exponent) with (d + (ex + unit_exponent)) by lia.
    rewrite (pow2_add (d - 1) (ex + unit_exponent)), (pow2_add d (ex + unit_exponent)) by lia.
    apply scale_bounds; [exact Hc | nia].
  - apply (nearest_even_scale k a _ (2 ^ (ex + unit_exponent)) Hc) in Hk.
    replace (2 ^ (E + unit_exponent) * b) with (2 ^ (E - ex) * b * 2 ^ (ex + unit_exponent)); [exact Hk|].
    replace (E + unit_exponent) with (E - ex + (ex + unit_exponent)) by lia.
    rewrite (pow2_add (E - ex) (ex + unit_exponent)) by lia. ring.
Qed.

Lemma iter_xO (m d : positive) : Zpos (Pos.iter xO m d) = Zpos m * 2 ^ Zpos d.
Proof.
  induction d as [|d IH] using Pos.peano_ind.
  - cbn [Pos.iter]. rewrite (Pos2Z.inj_xO m). change (2 ^ 1) with 2. lia.
  - rewrite Pos.iter_succ, Pos2Z.inj_succ, (Pos2Z.inj_xO (Pos.iter xO m d)), IH.
    unfold Z.succ. rewrite pow2_succ by lia. ring.
Qed.

Lemma binary_round_rounded (sx : bool) (mx : positive) (ex : Z) :
  - unit_exponent <= ex ->
  rounded sx (Zpos mx * 2 ^ (ex + unit_exponent)) 1 (binary_round prec emax sx mx ex).
Proof.
  intros HK. unfold binary_round, shl_align. rewrite fexp_64.
  set (d := Zpos (digits2_pos mx)). set (E := fexp64 (d + ex)).
  assert (HE : -1074 <= E) by (unfold E, fexp64; lia).
  pose proof (digits2_bounds mx) as Hd. fold d in Hd.
  destruct (E - ex) as [|n|n] eqn:Hn.
  - apply (binary_round_aux_rounded sx (Zpos mx) ex loc_Exact (Zpos mx) 1);
      [lia | unfold located; lia | exact HK |].
    cbn [Zdigits2]. fold d E. lia.
  - apply (binary_round_aux_rounded sx (Zpos mx) ex loc_Exact (Zpos mx) 1);
      [lia | unfold located; lia | exact HK |].
    cbn [Zdigits2]. fold d E. lia.
  - assert (Hm : Zpos (Pos.iter xO mx n) = Zpos mx * 2 ^ (ex - E))
      by (rewrite iter_xO; f_equal; f_equal; lia).
    assert (Hdz : Zpos (digits2_pos (Pos.iter xO mx n)) = d + (ex - E)).
    { apply digits2_unique. rewrite Hm.
      replace (d + (ex - E) - 1) with (d - 1 + (ex - E)) by lia.
      assert (0 < 2 ^ (ex - E)) by (apply pow2_pos; lia).
      assert (0 < d) by (unfold d; lia).
      rewrite (pow2_add (d - 1) (ex - E)), (pow2_add d (ex - E)) by lia. nia. }
    replace (Zpos mx * 2 ^ (ex + unit_exponent))
      with (Zpos (Pos.iter xO mx n) * 2 ^ (E + unit_exponent)).
    + apply (binary_round_aux_rounded sx _ E loc_Exact _ 1);
        [lia | unfold located; lia | unfold unit_exponent; lia |].
      cbn [Zdigits2]. rewrite Hdz.
      replace (d + (ex - E) + E) with (d + ex) by lia. fold E. lia.
    + rewrite Hm. replace (ex + unit_exponent) with (ex - E + (E + unit_exponent)) by lia.
      rewrite (pow2_add (ex - E) (E + unit_exponent)) by (unfold unit_exponent; lia). ring.
Qed.


(** *** Valid binary64 numbers *)

Lemma bounded_spec (m : positive) (e : Z) :
  bounded prec emax m e = true ->
  -1074 <= e <= 971
  /\ fexp64 (Zpos (digits2_pos m) + e) = e
  /\ Zpos m < 2 ^ 53
  /\ (-1074 < e -> 2 ^ 52 <= Zpos m).
Proof.
  unfold bounded, canonical_mantissa. rewrite fexp_64.
  change (emax - prec) with 971. intros H.
  apply andb_prop in H. destruct H as [Hc He].
  apply Z.eqb_eq in Hc. apply Z.leb_le in He.
  pose proof (digits2_bounds m) as Hd.
  set (d := Zpos (digits2_pos m)) in *.
  assert (Hd0 : 0 < d) by (unfold d; lia).
  unfold fexp64 in Hc |- *.
  split; [lia|]. split; [exact Hc|]. split.
  - assert (2 ^ d <= 2 ^ 53) by (apply pow2_le; lia). lia.
  - intros Hn. assert (Ed : d = 53) by lia. rewrite Ed in Hd.
    change (53 - 1) with 52 in Hd. lia.
Qed.

Lemma val_pos (m : positive) (e : Z) : -1074 <= e -> 0 < val m e.
Proof.
  intros. unfold val. assert (0 < 2 ^ (e + 1074)) by (apply pow2_pos; lia). nia.
Qed.

(** The order of two valid positive numbers is that of their values. *)
Lemma SFcompare_val (m1 : positive) (e1 : Z) (m2 : positive) (e2 : Z) :
  bounded prec emax m1 e1 = true -> bounded prec emax m2 e2 = true ->
  SFcompare (S754_finite false m1 e1) (S754_finite false m2 e2)
  = Some (val m1 e1 ?= val m2 e2).
Proof.
  intros H1 H2.
  destruct (bounded_spec m1 e1 H1) as (He1 & _ & Hm1 & Hn1).
  destruct (bounded_spec m2 e2 H2) as (He2 & _ & Hm2 & Hn2).
  cbn [SFcompare]. f_equal. unfold val.
  assert (P1 : 0 < 2 ^ (e1 + 1074)) by (apply pow2_pos; lia).
  assert (P2 : 0 < 2 ^ (e2 + 1074)) by (apply pow2_pos; lia).
  destruct (Z.compare_spec e1 e2) as [E|E|E].
  - subst e2. fold (Pos.compare m1 m2). rewrite Pos2Z.inj_compare.
    destruct (Z.compare_spec (Zpos m1) (Zpos m2)) as [E|E|E]; symmetry.
    + apply Z.compare_eq_iff. rewrite E. reflexivity.
    + apply Z.compare_lt_iff. apply Z.mul_lt_mono_pos_r; assumption.
    + apply Z.compare_gt_iff. apply Z.mul_lt_mono_pos_r; assumption.
  - symmetry. apply Z.compare_lt_iff.
    assert (2 * 2 ^ (e1 + 1074) <= 2 ^ (e2 + 1074)).
    { rewrite <- pow2_succ by lia. apply pow2_le. lia. }
    pose proof (Hn2 ltac:(lia)). change (2 ^ 53) with (2 * 2 ^ 52) in Hm1. nia.
  - symmetry. apply Z.compare_gt_iff.
    assert (2 * 2 ^ (e2 + 1074) <= 2 ^ (e1 + 1074)).
    { rewrite <- pow2_succ by lia. apply pow2_le. lia. }
    pose proof (Hn1 ltac:(lia)). change (2 ^ 53) with (2 * 2 ^ 52) in Hm2. nia.
Qed.

(** A valid positive number is the rounding of its own value. *)
Lemma rounded_self (m : positive) (e : Z) :
  bounded prec emax m e = true ->
  rounded false (val m e * 2 ^ (unit_exponent - 1074)) 1 (S754_finite false m e).
Proof.
  intros H. destruct (bounded_spec m e H) as (He & Hc & _ & _).
  replace (val m e * 2 ^ (unit_exponent - 1074)) with (Zpos m * 2 ^ (e + unit_exponent)).
  2:{ unfold val. replace (e + unit_exponent) with (e + 1074 + (unit_exponent - 1074)) by lia.
      rewrite (pow2_add (e + 1074) (unit_exponent - 1074)) by (unfold unit_exponent; lia). ring. }
  pose proof (digits2_bounds m) as Hd.
  set (d := Zpos (digits2_pos m)) in *.
  assert (Hd0 : 0 < d) by (unfold d; lia).
  assert (Hp : 0 < 2 ^ (e + unit_exponent)) by (apply pow2_pos; unfold unit_exponent; lia).
  split; [lia|]. exists (d + e), (Zpos m). rewrite Hc.
  split; [unfold unit_exponent; lia|]. split; [|split].
  - replace (d + e - 1 + unit_exponent) with (d - 1 + (e + unit_exponent)) by lia.
    replace (d + e + unit_exponent) with (d + (e + unit_exponent)) by lia.
    rewrite (pow2_add (d - 1) (e + unit_exponent)), (pow2_add d (e + unit_exponent)) by (unfold unit_exponent; lia).
    nia.
  - rewrite Z.mul_1_r. apply nearest_even_of_integer. exact Hp.
  - right. left. exists m, e. split; [reflexivity|]. split; [lia|].
    split; [reflexivity | exact H].
Qed.

(** Rounding is monotone: a smaller value does not round to a larger
    number. *)
Lemma rounded_mono (a1 b1 a2 b2 : Z) (R1 R2 : spec_float) :
  rounded false a1 b1 R1 -> rounded false a2 b2 R2 ->
  a1 * b2 <= a2 * b1 ->
  valid_binary R1 = true -> valid_binary R2 = true ->
  SFleb R1 R2 = true.
Proof.
  intros (Hb1 & mag1 & k1 & Hm1 & Hbin1 & Hk1 & HR1)
         (Hb2 & mag2 & k2 & Hm2 & Hbin2 & Hk2 & HR2) Hle Hv1 Hv2.
  unfold unit_exponent in *.
  set (E1 := fexp64 mag1) in *. set (E2 := fexp64 mag2) in *.
  assert (HE1 : -1074 <= E1) by (unfold E1, fexp64; lia).
  assert (HE2 : -1074 <= E2) by (unfold E2, fexp64; lia).
  assert (Hbb : 0 < b1 * b2) by nia.
  (* the binades *)
  assert (Hmag : mag1 <= mag2).
  { assert (H : 2 ^ (mag1 - 1 + 2200) < 2 ^ (mag2 + 2200)).
    { assert (T1 : 2 ^ (mag1 - 1 + 2200) * b1 * b2 <= a1 * b2)
        by (apply Z.mul_le_mono_nonneg_r; lia).
      assert (T2 : a2 * b1 < 2 ^ (mag2 + 2200) * b2 * b1)
        by (apply Z.mul_lt_mono_pos_r; lia).
      apply (Z.mul_lt_mono_pos_r (b1 * b2)); lia. }
    apply Z.pow_lt_mono_r_iff in H; lia. }
  assert (HE : E1 <= E2) by (unfold E1, E2, fexp64; lia).
  assert (P1 : 0 < 2 ^ (E1 + 2200) * b1)
    by (apply Z.mul_pos_pos; [apply pow2_pos; lia | lia]).
  assert (P2 : 0 < 2 ^ (E2 + 2200) * b2)
    by (apply Z.mul_pos_pos; [apply pow2_pos; lia | lia]).
  (* the values *)
  assert (Hu : k1 * 2 ^ (E1 + 1074) <= k2 * 2 ^ (E2 + 1074)).
  { destruct (Z.eq_dec E1 E2) as [Ee|Ene].
    - rewrite <- Ee in *.
      assert (k1 <= k2).
      { apply (nearest_even_mono k1 a1 _ k2 a2 _ P1 P2 Hk1 Hk2).
        assert (0 < 2 ^ (E1 + 2200)) by (apply pow2_pos; lia). nia. }
      assert (0 < 2 ^ (E1 + 1074)) by (apply pow2_pos; lia). nia.
    - assert (Hlt : E1 < E2) by lia.
      assert (Hn2 : E2 = mag2 - 53) by (unfold E2, fexp64 in *; lia).
      assert (Hk2' : 2 ^ 52 <= k2).
      { apply (nearest_even_above k2 a2 _ _ P2 Hk2).
        replace (mag2 - 1 + 2200) with (52 + (E2 + 2200)) in Hbin2 by lia.
        rewrite (pow2_add 52 (E2 + 2200)) in Hbin2 by (lia). nia. }
      set (top := Z.max mag1 E1).
      assert (Hk1' : k1 <= 2 ^ (top - E1)).
      { apply (nearest_even_below k1 a1 _ _ P1 Hk1).
        assert (Ht : 2 ^ (mag1 + 2200) <= 2 ^ (top - E1 + (E1 + 2200)))
          by (apply pow2_le; unfold top; lia).
        rewrite (pow2_add (top - E1) (E1 + 2200)) in Ht by (unfold top; lia).
        nia. }
      assert (H1 : k1 * 2 ^ (E1 + 1074) <= 2 ^ (top + 1074)).
      { replace (top + 1074) with (top - E1 + (E1 + 1074)) by lia.
        rewrite (pow2_add (top - E1) (E1 + 1074)) by (unfold top; lia).
        apply Z.mul_le_mono_nonneg_r; [|exact Hk1'].
        apply Z.pow_nonneg. lia. }
      assert (Hmm : mag1 < mag2) by (unfold E1, E2, fexp64 in *; lia).
      assert (H2 : 2 ^ (top + 1074) <= 2 ^ (52 + (E2 + 1074)))
        by (apply pow2_le; unfold top; lia).
      rewrite (pow2_add 52 (E2 + 1074)) in H2 by lia.
      assert (0 < 2 ^ (E2 + 1074)) by (apply pow2_pos; lia). nia. }
  (* the numbers *)
  destruct HR1 as [[Hz1 ->] | [(m1 & e1 & -> & He1 & Hv1' & _) | [-> Hi1]]];
    destruct HR2 as [[Hz2 ->] | [(m2 & e2 & -> & He2 & Hv2' & _) | [-> Hi2]]];
    try reflexivity.
  - exfalso. subst k2.
    assert (0 < Zpos m1 * 2 ^ (e1 + 1074))
      by (apply Z.mul_pos_pos; [lia | apply pow2_pos; lia]). lia.
  - unfold SFleb. rewrite (SFcompare_val m1 e1 m2 e2 Hv1 Hv2). unfold val.
    rewrite Hv1', Hv2'.
    destruct (Z.compare_spec (k1 * 2 ^ (E1 + 1074)) (k2 * 2 ^ (E2 + 1074)));
      [reflexivity | reflexivity | lia].
  - exfalso. subst k2. lia.
  - exfalso. cbn [SpecFloat.valid_binary] in Hv2.
    destruct (bounded_spec m2 e2 Hv2) as (Hr & _ & Hm & _).
    assert (2 ^ (e2 + 1074) <= 2 ^ 2045) by (apply pow2_le; lia).
    assert (0 < 2 ^ (e2 + 1074)) by (apply pow2_pos; lia).
    change (2 ^ 2098) with (2 ^ 53 * 2 ^ 2045) in Hi1. nia.
Qed.

(** *** The operations on numbers that are not negative *)

Lemma rounded_nonneg (a b : Z) (R : spec_float) :
  rounded false a b R -> nonneg R.
Proof.
  intros (_ & mag & k & _ & _ & _ & HR).
  destruct HR as [[_ ->] | [(m & e & -> & _) | [-> _]]]; exact I.
Qed.

Lemma rounded_not_above (a b : Z) (R x : spec_float) :
  rounded true a b R -> nonneg x -> SFleb R x = true.
Proof.
  intros (_ & mag & k & _ & _ & _ & HR) Hx.
  destruct HR as [[_ ->] | [(m & e & -> & _) | [-> _]]];
    destruct x as [s|[]| |[] mx ex]; try contradiction; reflexivity.
Qed.

Lemma SFleb_zero_nonneg (s : bool) (x : spec_float) :
  nonneg x -> SFleb (S754_zero s) x = true.
Proof. destruct x as [t|[]| |[] m e]; try contradiction; reflexivity. Qed.

Lemma SFleb_nonneg_infinity (x : spec_float) :
  nonneg x -> SFleb x (S754_infinity false) = true.
Proof. destruct x as [t|[]| |[] m e]; try contradiction; reflexivity. Qed.

Lemma finite_nonneg_nonneg (x : spec_float) : finite_nonneg x -> nonneg x.
Proof. destruct x as [t|[]| |[] m e]; cbn; tauto. Qed.

Lemma sval_nonneg (x : spec_float) :
  valid_binary x = true -> 0 <= sval x.
Proof.
  intros H. destruct x as [t|t| |[] m e]; cbn [sval]; try lia.
  destruct (bounded_spec m e H) as (He & _). pose proof (val_pos m e). lia.
Qed.

(** The order of two numbers that are zero or positive and finite is
    that of their values. *)
Lemma SFleb_sval (x y : spec_float) :
  valid_binary x = true -> valid_binary y = true ->
  finite_nonneg x -> finite_nonneg y ->
  SFleb x y = (sval x <=? sval y).
Proof.
  intros Hx Hy Fx Fy.
  destruct x as [s|[]| |[] m1 e1]; try contradiction;
    destruct y as [t|[]| |[] m2 e2]; try contradiction; cbn [sval].
  - reflexivity.
  - unfold SFleb. cbn [SFcompare]. destruct (bounded_spec m2 e2 Hy) as (He & _).
    pose proof (val_pos m2 e2). symmetry. apply Z.leb_le. lia.
  - unfold SFleb. cbn [SFcompare]. destruct (bounded_spec m1 e1 Hx) as (He & _).
    pose proof (val_pos m1 e1). symmetry. apply Z.leb_gt. lia.
  - unfold SFleb. rewrite (SFcompare_val m1 e1 m2 e2 Hx Hy).
    destruct (Z.compare_spec (val m1 e1) (val m2 e2));
      symmetry; [apply Z.leb_le | apply Z.leb_le | apply Z.leb_gt]; lia.
Qed.

(** **** Multiplication *)

Lemma digits2_mul (m1 m2 : positive) :
  Zpos (digits2_pos m1) + Zpos (digits2_pos m2) - 1
  <= Zpos (digits2_pos (m1 * m2)).
Proof.
  rewrite !digits2_log2, Pos2Z.inj_mul.
  pose proof (Z.log2_mul_below (Zpos m1) (Zpos m2) ltac:(lia) ltac:(lia)). lia.
Qed.

Lemma SFmul_rounded (m1 : positive) (e1 : Z) (m2 : positive) (e2 : Z) :
  bounded prec emax m1 e1 = true -> bounded prec emax m2 e2 = true ->
  rounded false (val m1 e1 * val m2 e2 * 2 ^ 52) 1
    (SFmul prec emax (S754_finite false m1 e1) (S754_finite false m2 e2)).
Proof.
  intros H1 H2.
  destruct (bounded_spec m1 e1 H1) as (He1 & Hc1 & _ & _).
  destruct (bounded_spec m2 e2 H2) as (He2 & Hc2 & _ & _).
  cbn [SFmul xorb].
  replace (val m1 e1 * val m2 e2 * 2 ^ 52)
    with (Zpos (m1 * m2) * 2 ^ (e1 + e2 + unit_exponent)).
  - apply (binary_round_aux_rounded false _ _ loc_Exact _ 1);
      [lia | unfold located; lia | unfold unit_exponent; lia |].
    cbn [Zdigits2]. pose proof (digits2_mul m1 m2) as Hd.
    pose proof (Pos2Z.is_pos (digits2_pos m1)).
    pose proof (Pos2Z.is_pos (digits2_pos m2)).
    unfold fexp64 in *. lia.
  - unfold val, unit_exponent. rewrite Pos2Z.inj_mul.
    replace (e1 + e2 + 2200) with ((e1 + 1074) + ((e2 + 1074) + 52)) by lia.
    rewrite (pow2_add (e1 + 1074) (e2 + 1074 + 52)) by lia.
    rewrite (pow2_add (e2 + 1074) 52) by lia. ring.
Qed.

(** **** Addition and subtraction *)

Lemma shl_align_fst (m : positive) (e ez : Z) :
  ez <= e -> Zpos (fst (shl_align m e ez)) = Zpos m * 2 ^ (e - ez).
Proof.
  intros H. unfold shl_align.
  destruct (ez - e) as [|d|d] eqn:Hd; cbn [fst].
  - replace (e - ez) with 0 by lia. change (2 ^ 0) with 1. lia.
  - lia.
  - rewrite iter_xO. f_equal. f_equal. lia.
Qed.

Lemma aligned_val (m : positive) (e ez : Z) :
  -1074 <= ez <= e ->
  Zpos (fst (shl_align m e ez)) * 2 ^ (ez + unit_exponent) = val m e * 2 ^ (unit_exponent - 1074).
Proof.
  intros H. rewrite shl_align_fst by lia. unfold val, unit_exponent.
  replace (e + 1074) with ((e - ez) + (ez + 1074)) by lia.
  replace (ez + 2200) with ((ez + 1074) + (2200 - 1074)) by lia.
  rewrite (pow2_add (e - ez) (ez + 1074)) by lia.
  rewrite (pow2_add (ez + 1074) (2200 - 1074)) by lia. ring.
Qed.

Lemma SFadd_rounded (m1 : positive) (e1 : Z) (m2 : positive) (e2 : Z) :
  -1074 <= e1 -> -1074 <= e2 ->
  rounded false ((val m1 e1 + val m2 e2) * 2 ^ (unit_exponent - 1074)) 1
    (SFadd prec emax (S754_finite false m1 e1) (S754_finite false m2 e2)).
Proof.
  intros He1 He2. cbn [SFadd cond_Zopp].
  set (ez := Z.min e1 e2).
  rewrite Z.mul_add_distr_r.
  rewrite <- (aligned_val m1 e1 ez), <- (aligned_val m2 e2 ez) by (unfold ez; lia).
  rewrite <- Z.mul_add_distr_r.
  cbn [Z.add binary_normalize].
  apply binary_round_rounded. unfold unit_exponent, ez. lia.
Qed.

(** The difference of two positive numbers: zero, or the rounding of
    the difference of the values with its sign. *)
Lemma SFsub_rounded (m1 : positive) (e1 : Z) (m2 : positive) (e2 : Z) :
  -1074 <= e1 -> -1074 <= e2 ->
  let R := SFsub prec emax (S754_finite false m1 e1) (S754_finite false m2 e2) in
  (val m1 e1 = val m2 e2 /\ R = S754_zero false)
  \/ (val m2 e2 < val m1 e1
      /\ rounded false ((val m1 e1 - val m2 e2) * 2 ^ (unit_exponent - 1074)) 1 R)
  \/ (val m1 e1 < val m2 e2
      /\ rounded true ((val m2 e2 - val m1 e1) * 2 ^ (unit_exponent - 1074)) 1 R).
Proof.
  intros He1 He2. cbn [SFsub cond_Zopp].
  set (ez := Z.min e1 e2).
  pose proof (aligned_val m1 e1 ez ltac:(unfold ez; lia)) as A1.
  pose proof (aligned_val m2 e2 ez ltac:(unfold ez; lia)) as A2.
  set (x1 := fst (shl_align m1 e1 ez)) in *.
  set (x2 := fst (shl_align m2 e2 ez)) in *.
  assert (Hp : 0 < 2 ^ (ez + unit_exponent)) by (apply pow2_pos; unfold unit_exponent, ez; lia).
  assert (Hq : 0 < 2 ^ (unit_exponent - 1074)) by (apply pow2_pos; unfold unit_exponent; lia).
  cbv zeta.
  destruct (Zpos x1 - Zpos x2) as [|d|d] eqn:Hd; cbn [binary_normalize].
  - left. split; [|reflexivity]. nia.
  - right. left. split; [nia|].
    replace ((val m1 e1 - val m2 e2) * 2 ^ (unit_exponent - 1074))
      with (Zpos d * 2 ^ (ez + unit_exponent)) by (rewrite <- Hd; lia).
    apply binary_round_rounded. unfold unit_exponent, ez. lia.
  - right. right. split; [nia|].
    replace ((val m2 e2 - val m1 e1) * 2 ^ (unit_exponent - 1074))
      with (Zpos d * 2 ^ (ez + unit_exponent)).
    + apply binary_round_rounded. unfold unit_exponent, ez. lia.
    + assert (Zpos d = Zpos x2 - Zpos x1) by lia. nia.
Qed.

(** **** The operations, by the values of their operands *)

Lemma SFleb_refl (x : spec_float) :
  valid_binary x = true -> nonneg x -> SFleb x x = true.
Proof.
  intros Hv Hx. destruct x as [s|[]| |[] m e]; try contradiction;
    try reflexivity.
  rewrite (SFleb_sval _ _ Hv Hv I I). apply Z.leb_refl.
Qed.

(** Nothing but the infinity is above the infinity. *)
Lemma SFleb_infinity_l (x : spec_float) :
  nonneg x -> SFleb (S754_infinity false) x = true -> x = S754_infinity false.
Proof. destruct x as [s|[]| |[] m e]; cbn; intros; try contradiction;
         try discriminate; reflexivity. Qed.

Lemma SFleb_finite_r (x y : spec_float) :
  nonneg x -> finite_nonneg y -> SFleb x y = true -> finite_nonneg x.
Proof.
  destruct x as [s|[]| |[] m e]; cbn; intros; try contradiction; try exact I.
  destruct y as [t|[]| |[] my ey]; try contradiction; discriminate.
Qed.

Lemma SFleb_trans (x y z : spec_float) :
  valid_binary x = true -> valid_binary y = true -> valid_binary z = true ->
  nonneg x -> nonneg y -> nonneg z ->
  SFleb x y = true -> SFleb y z = true -> SFleb x z = true.
Proof.
  intros Vx Vy Vz Nx Ny Nz Hxy Hyz.
  assert (Hz : finite_nonneg z \/ z = S754_infinity false)
    by (destruct z as [sz|[]| |[] mz ez]; cbn; auto).
  destruct Hz as [Fz | ->]; [|apply SFleb_nonneg_infinity; exact Nx].
  pose proof (SFleb_finite_r y z Ny Fz Hyz) as Fy.
  pose proof (SFleb_finite_r x y Nx Fy Hxy) as Fx.
  rewrite (SFleb_sval _ _ Vx Vz Fx Fz).
  rewrite (SFleb_sval _ _ Vx Vy Fx Fy) in Hxy.
  rewrite (SFleb_sval _ _ Vy Vz Fy Fz) in Hyz.
  apply Z.leb_le in Hxy, Hyz. apply Z.leb_le. lia.
Qed.

(** The sum of two numbers that are zero or positive and finite is a
    zero when both are, and the rounding of the sum of their values
    otherwise. *)
Lemma SFadd_sval (x y : spec_float) :
  valid_binary x = true -> valid_binary y = true ->
  finite_nonneg x -> finite_nonneg y ->
  (sval x + sval y = 0 /\ exists s, SFadd prec emax x y = S754_zero s)
  \/ (0 < sval x + sval y
      /\ rounded false ((sval x + sval y) * 2 ^ (unit_exponent - 1074)) 1
           (SFadd prec emax x y)).
Proof.
  intros Vx Vy Fx Fy.
  destruct x as [s|[]| |[] m1 e1]; try contradiction;
    destruct y as [t|[]| |[] m2 e2]; try contradiction; cbn [sval].
  - left. split; [reflexivity|]. destruct s, t; cbn; eauto.
  - right. destruct (bounded_spec m2 e2 Vy) as (He & _).
    split; [pose proof (val_pos m2 e2); lia|].
    cbn [SFadd]. rewrite Z.add_0_l. apply rounded_self. exact Vy.
  - right. destruct (bounded_spec m1 e1 Vx) as (He & _).
    split; [pose proof (val_pos m1 e1); lia|].
    cbn [SFadd]. rewrite Z.add_0_r. apply rounded_self. exact Vx.
  - right. destruct (bounded_spec m1 e1 Vx) as (He1 & _).
    destruct (bounded_spec m2 e2 Vy) as (He2 & _).
    split; [pose proof (val_pos m1 e1); pose proof (val_pos m2 e2); lia|].
    apply SFadd_rounded; lia.
Qed.

Lemma SFadd_nonneg (x y : spec_float) :
  valid_binary x = true -> valid_binary y = true ->
  nonneg x -> nonneg y -> nonneg (SFadd prec emax x y).
Proof.
  intros Vx Vy Nx Ny.
  destruct x as [s|[]| |[] m1 e1]; try contradiction;
    destruct y as [t|[]| |[] m2 e2]; try contradiction;
    try exact I;
    try (destruct (SFadd_sval _ _ Vx Vy I I) as [[_ [u ->]] | [_ H]];
         [exact I | exact (rounded_nonneg _ _ _ H)]).
Qed.

(** Addition is monotone on numbers that are not negative. *)
Lemma SFadd_mono (x y x' y' : spec_float) :
  valid_binary x = true -> valid_binary y = true ->
  valid_binary x' = true -> valid_binary y' = true ->
  valid_binary (SFadd prec emax x y) = true ->
  valid_binary (SFadd prec emax x' y') = true ->
  nonneg x -> nonneg y -> nonneg x' -> nonneg y' ->
  SFleb x x' = true -> SFleb y y' = true ->
  SFleb (SFadd prec emax x y) (SFadd prec emax x' y') = true.
Proof.
  intros Vx Vy Vx' Vy' Vs Vs' Nx Ny Nx' Ny' Hx Hy.
  pose proof (SFadd_nonneg x y Vx Vy Nx Ny) as Ns.
  destruct x' as [sx'|[]| |[] mx' ex']; try contradiction;
    try (replace (SFadd prec emax (S754_infinity false) y')
           with (S754_infinity false)
           by (destruct y' as [t|[]| |[] m2 e2]; try contradiction; reflexivity);
         apply SFleb_nonneg_infinity; exact Ns);
    (destruct y' as [sy'|[]| |[] my' ey']; try contradiction;
     try (apply SFleb_nonneg_infinity; exact Ns));
    match goal with
    | |- SFleb _ (SFadd _ _ ?a ?b) = true =>
        pose proof (SFleb_finite_r x a Nx I Hx) as Fx;
        pose proof (SFleb_finite_r y b Ny I Hy) as Fy;
        rewrite (SFleb_sval _ _ Vx Vx' Fx I) in Hx;
        rewrite (SFleb_sval _ _ Vy Vy' Fy I) in Hy;
        apply Z.leb_le in Hx, Hy;
        pose proof (sval_nonneg x Vx); pose proof (sval_nonneg y Vy);
        destruct (SFadd_sval x y Vx Vy Fx Fy) as [[Hz [u Hu]] | [Hp Hr]];
        [ rewrite Hu; apply SFleb_zero_nonneg;
          apply SFadd_nonneg; assumption
        | destruct (SFadd_sval a b Vx' Vy' I I) as [[Hz' _] | [Hp' Hr']];
          [ lia
          | apply (rounded_mono _ _ _ _ _ _ Hr Hr'); [|assumption|assumption];
            rewrite !Z.mul_1_r;
            apply Z.mul_le_mono_nonneg_r;
            [apply Z.pow_nonneg; lia | lia] ] ]
    end.
Qed.

(** The product of two numbers that are zero or positive and finite. *)
Lemma SFmul_sval (x y : spec_float) :
  valid_binary x = true -> valid_binary y = true ->
  finite_nonneg x -> finite_nonneg y ->
  (sval x * sval y = 0 /\ exists s, SFmul prec emax x y = S754_zero s)
  \/ (0 < sval x * sval y
      /\ rounded false (sval x * sval y * 2 ^ 52) 1 (SFmul prec emax x y)).
Proof.
  intros Vx Vy Fx Fy.
  destruct x as [s|[]| |[] m1 e1]; try contradiction;
    destruct y as [t|[]| |[] m2 e2]; try contradiction; cbn [sval];
    try (left; split; [lia | cbn; eauto]).
  right. destruct (bounded_spec m1 e1 Vx) as (He1 & _).
  destruct (bounded_spec m2 e2 Vy) as (He2 & _).
  pose proof (val_pos m1 e1 ltac:(lia)). pose proof (val_pos m2 e2 ltac:(lia)).
  split; [nia|]. apply SFmul_rounded; assumption.
Qed.

Lemma SFmul_nonneg (x y : spec_float) :
  valid_binary x = true -> valid_binary y = true ->
  finite_nonneg x -> finite_nonneg y -> nonneg (SFmul prec emax x y).
Proof.
  intros Vx Vy Fx Fy.
  destruct (SFmul_sval x y Vx Vy Fx Fy) as [[_ [u ->]] | [_ H]];
    [exact I | exact (rounded_nonneg _ _ _ H)].
Qed.

(** Multiplication by a number that is zero or positive and finite is
    monotone on such numbers. *)
Lemma SFmul_mono (x x' r : spec_float) :
  valid_binary x = true -> valid_binary x' = true -> valid_binary r = true ->
  valid_binary (SFmul prec emax x r) = true ->
  valid_binary (SFmul prec emax x' r) = true ->
  nonneg x -> finite_nonneg x' -> finite_nonneg r ->
  SFleb x x' = true ->
  SFleb (SFmul prec emax x r) (SFmul prec emax x' r) = true.
Proof.
  intros Vx Vx' Vr Vp Vp' Nx Fx' Fr Hx.
  pose proof (SFleb_finite_r x x' Nx Fx' Hx) as Fx.
  rewrite (SFleb_sval _ _ Vx Vx' Fx Fx') in Hx. apply Z.leb_le in Hx.
  pose proof (sval_nonneg x Vx). pose proof (sval_nonneg r Vr).
  destruct (SFmul_sval x r Vx Vr Fx Fr) as [[Hz [u Hu]] | [Hp Hr]].
  - rewrite Hu. apply SFleb_zero_nonneg. apply SFmul_nonneg; assumption.
  - destruct (SFmul_sval x' r Vx' Vr Fx' Fr) as [[Hz' _] | [Hp' Hr']]; [nia|].
    apply (rounded_mono _ _ _ _ _ _ Hr Hr'); [|assumption|assumption].
    rewrite !Z.mul_1_r.
    apply Z.mul_le_mono_nonneg_r; [apply Z.pow_nonneg; lia|].
    apply Z.mul_le_mono_nonneg_r; lia.
Qed.

(** Taking away a number that is not negative does not raise a number
    that is zero or positive and finite. *)
Lemma SFsub_le (b pp : spec_float) :
  valid_binary b = true -> valid_binary pp = true ->
  valid_binary (SFsub prec emax b pp) = true ->
  finite_nonneg b -> nonneg pp ->
  SFleb (SFsub prec emax b pp) b = true.
Proof.
  intros Vb Vp Vs Fb Np.
  destruct b as [sb|[]| |[] mb eb]; try contradiction;
    destruct pp as [sp|[]| |[] mp ep]; try contradiction;
    try (destruct sb, sp; reflexivity); try reflexivity.
  - cbn [SFsub]. apply SFleb_refl; [exact Vb | exact I].
  - destruct (bounded_spec mb eb Vb) as (He1 & _).
    destruct (bounded_spec mp ep Vp) as (He2 & _).
    pose proof (val_pos mp ep ltac:(lia)) as Hpos.
    destruct (SFsub_rounded mb eb mp ep ltac:(lia) ltac:(lia))
      as [[_ E] | [[Hlt Hr] | [Hlt Hr]]].
    + rewrite E. reflexivity.
    + apply (rounded_mono _ _ _ _ _ _ Hr (rounded_self mb eb Vb));
        [|assumption|assumption].
      rewrite !Z.mul_1_r.
      apply Z.mul_le_mono_nonneg_r; [apply Z.pow_nonneg; lia | lia].
    + apply (rounded_not_above _ _ _ _ Hr). exact I.
Qed.

(** **** The sign of a rounding *)

Lemma located_exists (m : Z) (l : location) : exists a b, located m l a b.
Proof.
  destruct l as [|[]];
    [exists m, 1 | exists (4 * m + 2), 4 | exists (4 * m + 1), 4
     | exists (4 * m + 3), 4];
    unfold located; (split; [lia|]); (split; [lia|]); try lia;
    (split; [lia|]).
  - apply Z.compare_eq_iff. lia.
  - apply Z.compare_lt_iff. lia.
  - apply Z.compare_gt_iff. lia.
Qed.

Lemma shr_fexp_nonneg (m e : Z) (l : location) :
  0 <= m -> 0 <= shr_m (fst (shr_fexp prec emax m e l)).
Proof.
  intros Hm. unfold shr_fexp.
  destruct (located_exists m l) as (a & b & Hl).
  exact (proj1 (shr_located m l e _ a b Hm Hl)).
Qed.

Lemma binary_round_aux_signed (sx : bool) (mx ex : Z) (lx : location) :
  0 <= mx -> signed sx (binary_round_aux prec emax sx mx ex lx).
Proof.
  intros Hm. unfold binary_round_aux.
  pose proof (shr_fexp_nonneg mx ex lx Hm) as H1.
  destruct (shr_fexp prec emax mx ex lx) as [mrs' e']. cbn [fst] in H1.
  assert (Hk : 0 <= round_nearest_even (shr_m mrs') (loc_of_shr_record mrs')).
  { destruct (round_nearest_even_cases (shr_m mrs') (loc_of_shr_record mrs'))
      as [E|E]; rewrite E; lia. }
  pose proof (shr_fexp_nonneg _ e' loc_Exact Hk) as H2.
  destruct (shr_fexp prec emax _ e' loc_Exact) as [mrs'' e'']. cbn [fst] in H2.
  destruct (shr_m mrs'') as [|p|p]; [reflexivity | | lia].
  destruct (e'' <=? emax - prec); reflexivity.
Qed.

Lemma binary_round_signed (sx : bool) (mx : positive) (ex : Z) :
  signed sx (binary_round prec emax sx mx ex).
Proof.
  unfold binary_round. destruct (shl_align mx ex _) as [mz ez].
  apply binary_round_aux_signed. lia.
Qed.

Lemma signed_nonneg (R : spec_float) : signed false R -> nonneg R.
Proof. destruct R as [[]|[]| |[] m e]; cbn; intros; try discriminate; auto. Qed.

(** **** Division of a positive number *)

Lemma SFdiv_signed (m1 : positive) (e1 : Z) (m2 : positive) (e2 : Z) :
  signed false
    (SFdiv prec emax (S754_finite false m1 e1) (S754_finite false m2 e2)).
Proof.
  cbn [SFdiv xorb]. unfold SFdiv_core_binary.
  set (s := e1 - e2 - _).
  set (m' := match s with Z0 => Zpos m1 | Zpos _ => Z.shiftl (Zpos m1) s
                     | Zneg _ => 0 end).
  assert (Hm' : 0 <= m').
  { unfold m'. destruct s; [lia | | lia]. apply Z.shiftl_nonneg. lia. }
  pose proof (Z.div_pos m' (Zpos m2) Hm' ltac:(lia)) as Hq.
  unfold Z.div in Hq.
  destruct (Z.div_eucl m' (Zpos m2)) as [q r].
  apply binary_round_aux_signed. exact Hq.
Qed.

(** A positive finite number divided by a number that is [+0], positive
    or [+infinity] is not negative. *)
Lemma SFdiv_nonneg (m : positive) (e : Z) (y : spec_float) :
  signed false y -> nonneg (SFdiv prec emax (S754_finite false m e) y).
Proof.
  destruct y as [[]|[]| |[] my ey]; cbn [signed]; intros H;
    try discriminate; try contradiction; try exact I.
  apply signed_nonneg, SFdiv_signed.
Qed.

(** A number that is not negative divided by a positive finite number
    is not negative. *)
Lemma SFdiv_nonneg_l (x : spec_float) (m : positive) (e : Z) :
  nonneg x -> nonneg (SFdiv prec emax x (S754_finite false m e)).
Proof.
  destruct x as [s|[]| |[] mx ex]; cbn [nonneg]; intros H;
    try contradiction; try exact I.
  apply signed_nonneg, SFdiv_signed.
Qed.

(** **** Binary64 numbers *)

Lemma leb_zero_nonneg64 (x : float) : PrimFloat.leb PrimFloat.zero x = true <-> nonneg64 x.
Proof.
  rewrite FloatAxioms.leb_spec. unfold nonneg64.
  change (Prim2SF PrimFloat.zero) with (S754_zero false).
  destruct (Prim2SF x) as [s|[]| |[] m e]; cbn; split; intros; auto;
    try discriminate; try contradiction.
Qed.

Lemma ltb_zero_nonneg64 (x : float) : PrimFloat.ltb PrimFloat.zero x = true -> nonneg64 x.
Proof.
  rewrite FloatAxioms.ltb_spec. unfold nonneg64.
  change (Prim2SF PrimFloat.zero) with (S754_zero false).
  destruct (Prim2SF x) as [s|[]| |[] m e]; cbn; intros; auto; discriminate.
Qed.

Lemma is_infinity_Prim2SF (x : float) :
  is_infinity x = true <-> exists s, Prim2SF x = S754_infinity s.
Proof.
  unfold is_infinity.
  rewrite FloatAxioms.eqb_spec, FloatAxioms.abs_spec.
  change (Prim2SF infinity) with (S754_infinity false).
  destruct (Prim2SF x) as [s|s| |s m e]; cbn; split; intros H;
    try discriminate; try (destruct H; discriminate); eauto.
Qed.

Lemma amount_finite (x : float) : nonneg64 x -> is_finite x = true -> amount x.
Proof.
  unfold nonneg64, amount, is_finite. intros Hn Hf.
  apply negb_true_iff, orb_false_iff in Hf. destruct Hf as [_ Hi].
  destruct (Prim2SF x) as [s|[]| |[] m e] eqn:E; try contradiction; try exact I.
  exfalso. assert (H : is_infinity x = true)
    by (apply is_infinity_Prim2SF; eauto).
  congruence.
Qed.


Lemma amount_nonneg64 (x : float) : amount x -> nonneg64 x.
Proof. apply finite_nonneg_nonneg. Qed.

Lemma nonneg64_not_nan (x : float) : nonneg64 x -> is_nan x = false.
Proof.
  unfold nonneg64. intros H. destruct (is_nan x) eqn:E; [|reflexivity].
  apply is_nan_Prim2SF in E. rewrite E in H. contradiction.
Qed.

Lemma leb_refl (x : float) : nonneg64 x -> PrimFloat.leb x x = true.
Proof.
  intros H. rewrite FloatAxioms.leb_spec.
  apply SFleb_refl; [apply Prim2SF_valid | exact H].
Qed.

Lemma leb_trans (x y z : float) :
  nonneg64 x -> nonneg64 y -> nonneg64 z ->
  PrimFloat.leb x y = true -> PrimFloat.leb y z = true ->
  PrimFloat.leb x z = true.
Proof.
  rewrite !FloatAxioms.leb_spec. intros.
  apply (SFleb_trans (Prim2SF x) (Prim2SF y) (Prim2SF z));
    try apply Prim2SF_valid; assumption.
Qed.

Lemma ltb_leb (x y : float) :
  PrimFloat.ltb x y = true -> PrimFloat.leb x y = true.
Proof.
  rewrite FloatAxioms.ltb_spec, FloatAxioms.leb_spec. unfold SFltb, SFleb.
  destruct (SFcompare (Prim2SF x) (Prim2SF y)) as [[]|]; auto.
Qed.

(** What is not above is below or equal, NaN apart. *)
Lemma not_ltb_leb (x y : float) :
  nonneg64 x -> nonneg64 y -> PrimFloat.ltb x y = false -> PrimFloat.leb y x = true.
Proof.
  intros Hx Hy H.
  rewrite (leb_negb_ltb y x (nonneg64_not_nan y Hy) (nonneg64_not_nan x Hx)), H.
  reflexivity.
Qed.

Lemma amount_below (x y : float) :
  nonneg64 x -> amount y -> PrimFloat.leb x y = true -> amount x.
Proof.
  unfold nonneg64, amount. rewrite FloatAxioms.leb_spec. apply SFleb_finite_r.
Qed.

Lemma add_nonneg64 (x y : float) : nonneg64 x -> nonneg64 y -> nonneg64 (x + y).
Proof.
  unfold nonneg64. rewrite FloatAxioms.add_spec.
  apply SFadd_nonneg; apply Prim2SF_valid.
Qed.

Lemma add_mono (x y x' y' : float) :
  nonneg64 x -> nonneg64 y -> nonneg64 x' -> nonneg64 y' ->
  PrimFloat.leb x x' = true -> PrimFloat.leb y y' = true ->
  PrimFloat.leb (x + y) (x' + y') = true.
Proof.
  unfold nonneg64. rewrite !FloatAxioms.leb_spec. intros.
  pose proof (Prim2SF_valid (x + y)) as V1.
  pose proof (Prim2SF_valid (x' + y')) as V2.
  rewrite (FloatAxioms.add_spec x y), (FloatAxioms.add_spec x' y') in *.
  apply SFadd_mono; try apply Prim2SF_valid; assumption.
Qed.

Lemma mul_nonneg64 (x r : float) : amount x -> amount r -> nonneg64 (x * r).
Proof.
  unfold nonneg64, amount. rewrite FloatAxioms.mul_spec.
  apply SFmul_nonneg; apply Prim2SF_valid.
Qed.

Lemma mul_mono (x x' r : float) :
  nonneg64 x -> amount x' -> amount r -> PrimFloat.leb x x' = true ->
  PrimFloat.leb (x * r) (x' * r) = true.
Proof.
  unfold nonneg64, amount. rewrite !FloatAxioms.leb_spec. intros.
  pose proof (Prim2SF_valid (x * r)) as V1.
  pose proof (Prim2SF_valid (x' * r)) as V2.
  rewrite (FloatAxioms.mul_spec x r), (FloatAxioms.mul_spec x' r) in *.
  apply SFmul_mono; try apply Prim2SF_valid; assumption.
Qed.

Lemma sub_le (b pp : float) :
  amount b -> nonneg64 pp -> PrimFloat.leb (b - pp) b = true.
Proof.
  unfold nonneg64, amount. rewrite FloatAxioms.leb_spec. intros.
  pose proof (Prim2SF_valid (b - pp)) as V.
  rewrite FloatAxioms.sub_spec in *.
  apply SFsub_le; try apply Prim2SF_valid; assumption.
Qed.



(** The product of a positive finite number and a number that is not
    negative. *)
Lemma SFmul_nonneg_positive (m : positive) (e : Z) (r : spec_float) :
  bounded prec emax m e = true -> valid_binary r = true -> nonneg r ->
  nonneg (SFmul prec emax (S754_finite false m e) r).
Proof.
  intros Vx Vr Nr.
  destruct r as [s|[]| |[] mr er] eqn:E; try contradiction; try exact I.
  apply (SFmul_nonneg (S754_finite false m e) (S754_finite false mr er));
    try assumption; exact I.
Qed.

Lemma SFmul_mono_positive (m : positive) (e : Z) (x' r : spec_float) :
  bounded prec emax m e = true ->
  valid_binary x' = true -> valid_binary r = true ->
  valid_binary (SFmul prec emax (S754_finite false m e) r) = true ->
  valid_binary (SFmul prec emax x' r) = true ->
  finite_nonneg x' -> nonneg r ->
  SFleb (S754_finite false m e) x' = true ->
  SFleb (SFmul prec emax (S754_finite false m e) r) (SFmul prec emax x' r) = true.
Proof.
  intros Vx Vx' Vr Vp Vp' Fx' Nr Hle.
  destruct r as [s|[]| |[] mr er] eqn:E; try contradiction.
  - apply SFmul_mono; try assumption; exact I.
  - destruct x' as [sx'|[]| |[] mx' ex']; try contradiction.
    + discriminate Hle.
    + reflexivity.
  - apply SFmul_mono; try assumption; exact I.
Qed.

Lemma positive_Prim2SF (x : float) :
  amount x -> PrimFloat.ltb PrimFloat.zero x = true ->
  exists m e, Prim2SF x = S754_finite false m e.
Proof.
  unfold amount. rewrite FloatAxioms.ltb_spec.
  change (Prim2SF PrimFloat.zero) with (S754_zero false).
  destruct (Prim2SF x) as [s|[]| |[] m e]; cbn; intros F H;
    try contradiction; try discriminate; eauto.
Qed.



Lemma mul_nonneg64_positive (x r : float) :
  amount x -> PrimFloat.ltb PrimFloat.zero x = true -> nonneg64 r -> nonneg64 (x * r).
Proof.
  intros Fx Hx Nr. destruct (positive_Prim2SF x Fx Hx) as (m & e & E).
  unfold nonneg64 in *. rewrite FloatAxioms.mul_spec, E.
  pose proof (Prim2SF_valid x) as V. rewrite E in V.
  apply SFmul_nonneg_positive; [exact V | apply Prim2SF_valid | exact Nr].
Qed.

Lemma mul_mono_positive (x x' r : float) :
  amount x -> PrimFloat.ltb PrimFloat.zero x = true -> amount x' -> nonneg64 r ->
  PrimFloat.leb x x' = true ->
  PrimFloat.leb (x * r) (x' * r) = true.
Proof.
  intros Fx Hx Fx' Nr Hle. destruct (positive_Prim2SF x Fx Hx) as (m & e & E).
  unfold nonneg64, amount in *. rewrite FloatAxioms.leb_spec in *.
  pose proof (Prim2SF_valid (x * r)) as V1.
  pose proof (Prim2SF_valid (x' * r)) as V2.
  pose proof (Prim2SF_valid x) as V.
  rewrite (FloatAxioms.mul_spec x r), (FloatAxioms.mul_spec x' r) in *.
  rewrite E in *.
  apply SFmul_mono_positive; try apply Prim2SF_valid; assumption.
Qed.

(** **** Division and the integers used as numbers *)

Lemma div_nonneg64 (x y : float) :
  amount x -> PrimFloat.ltb PrimFloat.zero x = true ->
  signed false (Prim2SF y) -> nonneg64 (x / y).
Proof.
  intros Fx Hx Hy. destruct (positive_Prim2SF x Fx Hx) as (m & e & E).
  unfold nonneg64. rewrite FloatAxioms.div_spec, E. apply SFdiv_nonneg. exact Hy.
Qed.

Lemma div_nonneg64_l (x y : float) :
  nonneg64 x -> (exists m e, Prim2SF y = S754_finite false m e) -> nonneg64 (x / y).
Proof.
  intros Nx (m & e & E). unfold nonneg64 in *.
  rewrite FloatAxioms.div_spec, E. apply SFdiv_nonneg_l. exact Nx.
Qed.

Lemma SFldexp_signed (f : spec_float) (e : Z) :
  signed false f -> signed false (SFldexp prec emax f e).
Proof.
  destruct f as [s|s| |s m ef]; cbn [SFldexp signed]; intros H;
    try assumption.
  subst s. apply binary_round_signed.
Qed.

Lemma of_uint63_signed (u : PrimInt63.int) :
  signed false (Prim2SF (of_uint63 u)).
Proof.
  rewrite FloatAxioms.of_uint63_spec.
  pose proof (Uint63.to_Z_bounded u) as Hu.
  destruct (Uint63Axioms.to_Z u) as [|p|p]; cbn [binary_normalize];
    [reflexivity | apply binary_round_signed | lia].
Qed.

Lemma SF2Prim_signed (R : spec_float) :
  signed false R -> signed false (Prim2SF (SF2Prim R)).
Proof.
  destruct R as [s|s| |s m e]; cbn [signed]; intros H; try contradiction;
    subst s; try reflexivity.
  cbn [SF2Prim]. rewrite FloatLemmas.Z_ldexp_spec.
  apply SFldexp_signed, of_uint63_signed.
Qed.

(** An integer used as a number is [+0], positive or [+infinity]. *)
Lemma int_signed (n : N) : signed false (Prim2SF (int n : float)).
Proof.
  destruct n as [|a]; [reflexivity|].
  cbn [int Binary64.Number_float]. unfold Binary64.of_Q.
  cbn [Z.of_N inject_Z Qnum Qden].
  apply SF2Prim_signed. apply SFdiv_signed.
Qed.

(** *** Division *)








(** **** More on sums and differences *)






(** **** NaN and the infinities *)








(** *** [Math.pow] at a negative integral exponent *)








End Rounding.

(** ** The order of the numbers of the engine in binary64 *)

Section NonIncreasing.

Context {num : Type} `{Number num}.
Local Open Scope num_scope.

Lemma non_increasing_pushed (l : list num) (x d : num) :
  non_increasing l ->
  (l <> [] -> (x <=? last l d) = true) ->
  non_increasing (l ++ [x]).
Proof.
  induction l as [|a l IH]; intros Hl Hx; [exact I|].
  destruct l as [|b l].
  - cbn. split; [|exact I]. apply Hx. discriminate.
  - cbn [app non_increasing] in *. destruct Hl as [Hab Hl].
    split; [exact Hab|]. apply IH; [exact Hl|].
    intros _. apply Hx. discriminate.
Qed.

End NonIncreasing.

Section FloatEngineOrder.

Local Open Scope num_scope.

Ltac float_ops :=
  cbn [nltb nleb neqb nadd nsub nmul ndiv Binary64.Number_float] in *.

Lemma amount_zero : amount (int 0).
Proof. exact I. Qed.

Lemma nonneg64_zero : nonneg64 (int 0).
Proof. exact I. Qed.

(** [Math.max(0, v)] is [v] when [v] is above 0, and 0 otherwise. *)
Lemma max_zero_cases (v : float) :
  is_nan v = false ->
  (Math_max (int 0) v = v /\ (v >? int 0) = true)
  \/ (Math_max (int 0) v = int 0 /\ (v >? int 0) = false).
Proof.
  intros Hv. cbn [Math_max nltb Binary64.Number_float]. unfold Binary64.max.
  change (is_nan (int 0)) with false. rewrite Hv. cbn [orb].
  destruct (PrimFloat.ltb (int 0) v); [left; auto|].
  right. split; [|reflexivity].
  destruct (PrimFloat.ltb v (int 0)); reflexivity.
Qed.



(** The balance after a period that takes a principal portion that is
    not negative. *)
Lemma balance_after (b pp : float) :
  amount b -> nonneg64 pp ->
  (Math_max (int 0) (b - pp) <=? b) = true
  /\ amount (Math_max (int 0) (b - pp)).
Proof.
  intros Fb Np. change (nsub b pp) with (PrimFloat.sub b pp).
  pose proof (sub_le b pp Fb Np) as Hle.
  assert (Hv : is_nan (b - pp) = false).
  { destruct (is_nan (b - pp)) eqn:E; [|reflexivity].
    apply is_nan_Prim2SF in E. rewrite FloatAxioms.leb_spec, E in Hle.
    discriminate Hle. }
  destruct (max_zero_cases (b - pp) Hv) as [[E Hpos] | [E _]]; rewrite E.
  - split; [exact Hle|].
    apply (amount_below _ b); [apply ltb_zero_nonneg64; exact Hpos | exact Fb | exact Hle].
  - split; [|exact amount_zero]. apply leb_zero_nonneg64, amount_nonneg64, Fb.
Qed.

Lemma period_interest_nonneg64 (r b : float) :
  nonneg64 r -> amount b -> (b >? int 0) = true -> nonneg64 (period_interest r b).
Proof.
  intros Nr Fb Hb. unfold period_interest.
  destruct (r =? int 0); [exact nonneg64_zero|].
  apply mul_nonneg64_positive; assumption.
Qed.

Lemma period_interest_le (r b b' : float) :
  nonneg64 r -> amount b -> amount b' -> (b' >? int 0) = true -> (b' <=? b) = true ->
  (period_interest r b' <=? period_interest r b) = true.
Proof.
  intros Nr Fb Fb' Hb' Hle. unfold period_interest.
  destruct (r =? int 0); [reflexivity|].
  apply mul_mono_positive; assumption.
Qed.

(** *** The input contract *)

Lemma valid_input_numbers (p : Params float) :
  valid_input p = true ->
  amount (principal p) /\ (principal p >? int 0) = true
  /\ amount (annualRate p) /\ amount (extraPayment p)
  /\ (paymentsPerYear p = 12 \/ paymentsPerYear p = 26
      \/ paymentsPerYear p = 52)%positive.
Proof.
  unfold valid_input. intros E.
  repeat (apply andb_prop in E; destruct E as [E ?]).
  cbn [isFinite nltb nleb Binary64.Number_float] in *.
  split; [apply amount_finite; [apply ltb_zero_nonneg64|]; assumption|].
  split; [assumption|].
  split; [apply amount_finite; [apply leb_zero_nonneg64|]; assumption|].
  split; [apply amount_finite; [apply leb_zero_nonneg64|]; assumption|].
  repeat match goal with
         | H : (_ || _)%bool = true |- _ => apply orb_prop in H; destruct H as [H|H]
         end;
    match goal with H : (_ =? _)%positive = true |- _ => apply Pos.eqb_eq in H end;
    auto.
Qed.

Lemma periodicRate_nonneg64 (p : Params float) :
  valid_input p = true -> nonneg64 (periodicRate p).
Proof.
  intros Hv.
  destruct (valid_input_numbers p Hv) as (_ & _ & Fr & _ & Hppy).
  unfold periodicRate. destruct (annualRate p >? int 0); [|exact nonneg64_zero].
  apply div_nonneg64_l.
  - apply div_nonneg64_l; [apply amount_nonneg64, Fr | vm_compute; eauto].
  - destruct Hppy as [-> | [-> | ->]]; vm_compute; eauto.
Qed.

Lemma quotient_nonneg64 (p : Params float) (n : N) :
  valid_input p = true -> nonneg64 (principal p / int n).
Proof.
  intros Hv. destruct (valid_input_numbers p Hv) as (FP & HP & _).
  apply div_nonneg64; [exact FP | exact HP | apply int_signed].
Qed.

(** *** Equal principal: the payments *)

Lemma equal_principal_payment_mono (r c b b' : float) :
  nonneg64 r -> nonneg64 c -> amount b -> amount b' -> (b' >? int 0) = true ->
  (b' <=? b) = true ->
  (equal_principal_payment r c b' <=? equal_principal_payment r c b) = true.
Proof.
  intros Nr Nc Fb Fb' Hb' Hle. unfold equal_principal_payment. float_ops.
  assert (Hb : PrimFloat.ltb (int 0) b = true).
  { destruct (PrimFloat.ltb (int 0) b) eqn:E; [reflexivity|].
    pose proof (not_ltb_leb _ _ nonneg64_zero (amount_nonneg64 b Fb) E) as H0.
    pose proof (leb_trans b' b (int 0) (amount_nonneg64 _ Fb') (amount_nonneg64 _ Fb) nonneg64_zero Hle H0)
      as H1.
    rewrite (leb_negb_ltb b' (int 0) (nonneg64_not_nan _ (amount_nonneg64 _ Fb'))
               (nonneg64_not_nan _ nonneg64_zero)) in H1.
    rewrite Hb' in H1. discriminate H1. }
  apply add_mono.
  - destruct (PrimFloat.ltb b' c); [apply amount_nonneg64, Fb' | exact Nc].
  - apply period_interest_nonneg64; assumption.
  - destruct (PrimFloat.ltb b c); [apply amount_nonneg64, Fb | exact Nc].
  - apply period_interest_nonneg64; assumption.
  - destruct (PrimFloat.ltb b' c) eqn:E1; destruct (PrimFloat.ltb b c) eqn:E2.
    + exact Hle.
    + apply ltb_leb. exact E1.
    + apply (leb_trans c b' b); try assumption; try (apply amount_nonneg64; assumption).
      apply not_ltb_leb; [apply amount_nonneg64; assumption | assumption | exact E1].
    + apply leb_refl. exact Nc.
  - apply period_interest_le; assumption.
Qed.

Lemma equal_principal_step_falls (r bp x : float) (s : Loop.t float) :
  nonneg64 r -> nonneg64 (bp + x) ->
  payments_fall r (bp + x) s -> (Loop.balance s >? int 0) = true ->
  payments_fall r (bp + x) (equal_principal_step r bp x s).
Proof.
  intros Nr Nc (Fb & Hsorted & Hnext) Hb.
  set (b := Loop.balance s) in *.
  set (pp := if bp + x >? b then b else bp + x).
  assert (Npp : nonneg64 pp)
    by (unfold pp; destruct (bp + x >? b); [apply amount_nonneg64, Fb | exact Nc]).
  destruct (balance_after b pp Fb Npp) as [Hle Fb'].
  assert (Hpay : map Entry.payment
                   (Loop.schedule (equal_principal_step r bp x s))
                 = (map Entry.payment (Loop.schedule s)
                    ++ [equal_principal_payment r (bp + x) b])%list).
  { unfold equal_principal_step, push. cbn [Loop.schedule].
    rewrite map_app. reflexivity. }
  unfold payments_fall. rewrite Hpay.
  change (Loop.balance (equal_principal_step r bp x s))
    with (Math_max (int 0) (b - pp)).
  split; [exact Fb'|]. split.
  - apply (non_increasing_pushed _ _ (int 0)); [exact Hsorted|].
    intros Hne. apply Hnext; [|exact Hb].
    intros E. apply Hne. rewrite E. reflexivity.
  - intros _ Hb'. rewrite last_last.
    apply equal_principal_payment_mono; assumption.
Qed.

Lemma equal_principal_payments_fall (p : Params float) :
  valid_input p = true ->
  non_increasing
    (map Entry.payment (Loop.schedule (fst (equal_principal_run p)))).
Proof.
  intros Hv. unfold equal_principal_run.
  pose proof (periodicRate_nonneg64 p Hv) as Nr.
  destruct (valid_input_numbers p Hv) as (FP & HP & _ & Fx & _).
  assert (Nc : nonneg64 (basePrincipalPerPeriod p + extraPayment p)).
  { apply add_nonneg64; [apply quotient_nonneg64; exact Hv | apply amount_nonneg64, Fx]. }
  apply (while_rule _ _
           (payments_fall (periodicRate p)
              (basePrincipalPerPeriod p + extraPayment p))
           (fun r => non_increasing
                       (map Entry.payment (Loop.schedule (fst r))))).
  - intros s (_ & Hs & _) _. exact Hs.
  - intros s (_ & Hs & _) _. exact Hs.
  - intros s Hs Hcond.
    assert (Hb : (Loop.balance s >? int 0) = true)
      by (unfold loop_cond in Hcond; apply andb_prop in Hcond; tauto).
    pose proof (equal_principal_step_falls _ _ _ s Nr Nc Hs Hb) as Hs'.
    unfold equal_principal_body.
    destruct (snd (payoff_check _)) eqn:Hstop.
    + cbn [fst]. rewrite payoff_check_schedule. exact (proj1 (proj2 Hs')).
    + rewrite (payoff_check_continue _ Hstop). exact Hs'.
  - split; [exact FP|]. split; [exact I|]. intros Hne. exfalso. apply Hne.
    reflexivity.
Qed.

(** *** The balances of every method *)







(** *** Amortized: the payment per period *)





End FloatEngineOrder.

(** ** The stated properties that hold in binary64 *)

Section FloatClaims.

Local Open Scope num_scope.






(** C5.  In binary64, for the equal-principal method with
    [extraPayment = 0] and a valid input whose term is a count, the
    payments of the schedule, in period order, never rise: each is at
    most the payment of the period before. *)
Theorem C5_equal_principal_payments_non_increasing (p : Params float) :
  valid_input p = true ->
  term_is_count p = true ->
  (extraPayment p =? int 0) = true ->
  non_increasing
    (map Entry.payment (schedule (calculateEqualPrincipalLoan p))).
Proof.
  intros Hvalid _ _. exact (equal_principal_payments_fall p Hvalid).
Qed.

End FloatClaims.

(** ** Runs of the engine on particular inputs *)

Section Runs.

Import Inputs.
Local Open Scope num_scope.

(** 100000 at 100% over forty years, monthly, in binary64.
    [(1 + 1/12)^(-480)] is about 2.06e-17, below half an ulp of 1, so
    [1 - Math.pow(...)] is 1 and [basePayment] equals the first period's
    interest: no principal is ever paid, and the loop runs its 970
    iterations. *)
Lemma long_high_rate_run :
  run_capped_check long_high_rate (engine_run long_high_rate) = true.
Proof. vm_cast_no_check (eq_refl true). Qed.

Lemma long_high_rate_facts :
  valid_input long_high_rate = true
  /\ capped_unpaid long_high_rate
  /\ within cent
       (sum_of Entry.principal (Loop.schedule (fst (engine_run long_high_rate))))
       (principal long_high_rate) = false
  /\ exists e, last_entry (schedule (calculateLoan long_high_rate)) = Some e
               /\ (Entry.balance e >? int 0) = true
               /\ (Entry.balance e =? int 0) = false.
Proof. exact (run_capped_check_sound long_high_rate long_high_rate_run). Qed.

Lemma long_high_rate_capped : capped_unpaid long_high_rate.
Proof. exact (proj1 (proj2 long_high_rate_facts)). Qed.

(** C1, the claim as stated fails.  On a valid input the loop reaches
    the cap with the whole principal outstanding, and the call returns
    normally. *)
Lemma C1_counterexample :
  valid_input long_high_rate = true
  /\ capped_unpaid long_high_rate
  /\ ~ (exists c, call_calculateLoan long_high_rate = Throw c).
Proof.
  split; [|split].
  - exact (proj1 long_high_rate_facts).
  - exact long_high_rate_capped.
  - intros [c Hc]. discriminate Hc.
Qed.

Lemma C1_witness :
  capped_unpaid long_high_rate
  /\ call_calculateLoan long_high_rate = Return (calculateLoan long_high_rate)
  /\ List.length (schedule (calculateLoan long_high_rate))
     = N.to_nat (maxIterations long_high_rate)
  /\ (exists e, last_entry (schedule (calculateLoan long_high_rate)) = Some e
                /\ Entry.period e = maxIterations long_high_rate
                /\ (Entry.balance e >? int 0) = true)
  /\ payoffLabel (summary (calculateLoan long_high_rate))
     = formatPayoffTime (maxIterations long_high_rate)
         (paymentsPerYear long_high_rate).
Proof.
  split; [exact long_high_rate_capped|].
  exact (C1_cap_returns_truncated_schedule long_high_rate long_high_rate_capped).
Defined.

(** The cap is also reached, without any rounding, by a parameter set
    outside the input contract that the engine accepts all the same:
    1000 at 0% over one year with an extra payment of -100. *)
Example negative_extra_capped :
  capped_unpaid (paramsQ 1000 0 1 12 METHODS.AMORTIZED (-100)).
Proof. unfold capped_unpaid. vm_compute. auto. Qed.



(** Each of the three ways in which the loop of a valid input ends is
    taken by one: by payoff on 100000 at 5% over one year; at the cap on
    100000 at 100% over forty years; and on a NaN balance on 2^-1074 at
    2^-1000 percent over one year, where the principal times the
    periodic rate underflows to 0 and [1 - Math.pow(1, -12)] is 0, so
    that [basePayment] is 0/0. *)
Example schedule_ends_three_ways :
  (valid_input (one_year METHODS.AMORTIZED) = true
   /\ term_is_count (one_year METHODS.AMORTIZED) = true
   /\ ends_by_payoff (one_year METHODS.AMORTIZED))
  /\ (valid_input long_high_rate = true
      /\ term_is_count long_high_rate = true
      /\ capped_unpaid long_high_rate)
  /\ (valid_input underflow = true
      /\ term_is_count underflow = true
      /\ snd (engine_run underflow) = ExitCond
      /\ exists e, schedule (calculateLoan underflow) = [e]
                   /\ is_nan (Entry.balance e) = true
                   /\ is_nan (Entry.payment e) = true).
Proof.
  split; [repeat split; vm_compute; reflexivity|].
  split.
  - split; [exact (proj1 long_high_rate_facts)|].
    split; [vm_compute; reflexivity | exact long_high_rate_capped].
  - split; [vm_compute; reflexivity|]. split; [vm_compute; reflexivity|].
    split; [vm_compute; reflexivity|].
    eexists. split; [vm_compute; reflexivity|]. split; vm_compute; reflexivity.
Qed.

(** 100000 at 5% over one year, monthly, equal principal. *)
Lemma C5_witness :
  let p := one_year METHODS.EQUAL_PRINCIPAL in
  valid_input p = true
  /\ term_is_count p = true
  /\ (extraPayment p =? int 0) = true
  /\ non_increasing
       (map Entry.payment (schedule (calculateEqualPrincipalLoan p))).
Proof.
  intros p.
  assert (Hvalid : valid_input p = true) by (vm_compute; reflexivity).
  assert (Hterm : term_is_count p = true) by (vm_compute; reflexivity).
  assert (Hx : (extraPayment p =? int 0) = true) by (vm_compute; reflexivity).
  split; [exact Hvalid|]. split; [exact Hterm|]. split; [exact Hx|].
  exact (C5_equal_principal_payments_non_increasing p Hvalid Hterm Hx).
Defined.

(** A schedule that ends by payoff need not end on 0 either.  1000 at
    0% over one year, fortnightly, no extra payment, in binary64: the
    loop stops by its [break] after 26 periods and the last row's
    remaining balance is about 2.13e-13.  In exact arithmetic, 120 at 0%
    over one year with 109.995 extra: the single row has remaining
    balance 0.005.  In both the local [balance] is set to 0 only after
    the row was pushed. *)
Lemma payoff_row_keeps_residue :
  (valid_input fortnightly = true
   /\ ends_by_payoff fortnightly
   /\ exists e, last_entry (schedule (calculateLoan fortnightly)) = Some e
                /\ Entry.period e = 26%N
                /\ (Entry.balance e =? int 0) = false
                /\ (Entry.balance e >? int 0) = true
                /\ (Entry.balance e <=? cent) = true)
  /\ (valid_input residue_exact = true
      /\ ends_by_payoff residue_exact
      /\ exists e, last_entry (schedule (calculateLoan residue_exact)) = Some e
                   /\ Entry.period e = 1%N
                   /\ (Entry.balance e == 5 # 1000)%Q).
Proof.
  split.
  - split; [vm_compute; reflexivity|]. split; [vm_compute; reflexivity|].
    eexists. split; [vm_compute; reflexivity|]. vm_compute. auto.
  - split; [vm_compute; reflexivity|]. split; [vm_compute; reflexivity|].
    eexists. split; [vm_compute; reflexivity|]. vm_compute. auto.
Qed.

(** At ordinary magnitudes the binary64 runs behave as the exact ones
    do.  100000 at 5% over one year, monthly, by each method: 12 rows,
    ended by payoff, a last remaining balance of at most 0.01 (it is
    about 3.6e-12 for the equal-principal method), balances and
    equal-principal payments that never rise, and sums that agree within
    0.01. *)
Example one_year_runs (m : string) :
  m = METHODS.AMORTIZED \/ m = METHODS.EQUAL_PRINCIPAL
  \/ m = METHODS.INTEREST_ONLY ->
  let r := calculateLoan (one_year m) in
  List.length (schedule r) = 12%nat
  /\ ends_by_payoff (one_year m)
  /\ payoffLabel (summary r) = "1年"
  /\ non_increasing (map Entry.balance (schedule r))
  /\ (exists e, last_entry (schedule r) = Some e
                /\ (Entry.balance e <=? cent) = true)
  /\ within cent (sum_of Entry.principal (schedule r)) (principal (one_year m))
     = true
  /\ within cent (totalPaid (summary r))
       (totalInterest (summary r) + sum_of Entry.principal (schedule r))
     = true.
Proof.
  intros [-> | [-> | ->]]; intros r; subst r;
    (split; [vm_compute; reflexivity|]);
    (split; [vm_compute; reflexivity|]);
    (split; [vm_compute; reflexivity|]);
    (split; [vm_compute; repeat split|]);
    (split; [eexists; split; vm_compute; reflexivity|]);
    split; vm_compute; reflexivity.
Qed.

(** The same input by the equal-principal method: the payments fall
    from 8750 to 8368.06, and the last row keeps a positive residue. *)
Example one_year_equal_principal_payments :
  non_increasing
    (map Entry.payment
       (schedule (calculateEqualPrincipalLoan (one_year METHODS.EQUAL_PRINCIPAL))))
  /\ exists e,
       last_entry (schedule (calculateLoan (one_year METHODS.EQUAL_PRINCIPAL)))
       = Some e
       /\ (Entry.balance e >? int 0) = true.
Proof.
  split; [vm_compute; repeat split|].
  eexists; split; vm_compute; reflexivity.
Qed.

(** C3, the claim as stated fails: with 5000 extra per period the
    schedule does not have length 1. *)
Lemma C3_counterexample :
  List.length (schedule (calculateLoan extra5000)) <> 1%nat.
Proof. vm_compute. discriminate. Qed.


(** C3, as amended.  For the amortized method with principal 100000,
    annual rate 5%, one year, 12 payments per year and 5000 extra per
    period, the payoff takes 8 periods and the schedule has length 8,
    numbered 1 to 8, with the payoff label of 8 months.  The first
    seven rows pay the full [basePayment + extraPayment], which is
    13560.75 to the cent; of the first payment 13144.08 is principal,
    and it leaves 86855.92.  Only the eighth payment is capped: it is
    the balance the seventh row left plus the interest on it, below the
    full payment, its principal portion is that balance, and it leaves
    0. *)
Theorem C3_extra5000_takes_eight_periods :
  let rows := schedule (calculateLoan extra5000) in
  List.length rows = 8%nat
  /\ map Entry.period rows = [1; 2; 3; 4; 5; 6; 7; 8]%N
  /\ payoffLabel (summary (calculateLoan extra5000)) = "8个月"
  /\ Forall (fun e => Entry.payment e = paymentWithExtra extra5000)
       (firstn 7 rows)
  /\ to_the_cent (paymentWithExtra extra5000) 1356075 = true
  /\ (exists first, hd_error rows = Some first
        /\ to_the_cent (Entry.principal first) 1314408 = true
        /\ to_the_cent (Entry.balance first) 8685592 = true)
  /\ (exists seventh eighth,
        nth_error rows 6 = Some seventh
        /\ last_entry rows = Some eighth
        /\ Entry.period eighth = 8%N
        /\ Entry.payment eighth = Entry.balance seventh + Entry.interest eighth
        /\ (Entry.payment eighth <? paymentWithExtra extra5000) = true
        /\ Entry.principal eighth = Entry.balance seventh
        /\ Entry.balance eighth = int 0).
Proof.
  intros rows. subst rows.
  split; [vm_compute; reflexivity|].
  split; [vm_compute; reflexivity|].
  split; [vm_compute; reflexivity|].
  split; [vm_compute; repeat constructor|].
  split; [vm_compute; reflexivity|].
  split.
  - eexists. split; [vm_compute; reflexivity|]. split; vm_compute; reflexivity.
  - eexists. eexists. split; [vm_compute; reflexivity|].
    split; [vm_compute; reflexivity|]. repeat split; vm_compute; reflexivity.
Qed.


(** C7, the claim as stated fails in binary64.  10^17 at 5% over a
    quarter of a year, equal principal (at 10^17 the spacing of binary64
    values is 16): [totalPaid] is
    100833333333333344 and [totalInterest] plus the running sum of the
    principal portions is 100833333333333328; taken exactly the two
    sides differ by 6.625. *)
Lemma C7_counterexample :
  valid_input huge_quarter_5 = true
  /\ within cent
       (totalPaid (summary (calculateLoan huge_quarter_5)))
       (totalInterest (summary (calculateLoan huge_quarter_5))
        + sum_of Entry.principal (schedule (calculateLoan huge_quarter_5)))
     = false
  /\ (Binary64.to_Q (totalPaid (summary (calculateLoan huge_quarter_5)))
      - (Binary64.to_Q (totalInterest (summary (calculateLoan huge_quarter_5)))
         + exact_sum Entry.principal (schedule (calculateLoan huge_quarter_5)))
      == 53 # 8)%Q.
Proof. repeat split; vm_compute; reflexivity. Qed.

(** C6, the claim as stated fails in binary64.  10^14 at 0% over six and
    a half years, monthly, interest only: the repayment of period 78,
    which is [totalPeriods] and not the end of a year, leaves
    0.01953125; the schedule runs on to period 84, so row 78 has a
    non-zero principal portion and is neither at a year end nor the last
    row. *)
Lemma C6_counterexample :
  valid_input huge_six_and_half = true
  /\ (extraPayment huge_six_and_half =? int 0) = true
  /\ exists e final,
       nth_error (schedule (calculateLoan huge_six_and_half)) 77 = Some e
       /\ last_entry (schedule (calculateLoan huge_six_and_half)) = Some final
       /\ Entry.period e = 78%N
       /\ (Entry.period e mod Npos (paymentsPerYear huge_six_and_half))%N <> 0%N
       /\ Entry.period final = 84%N
       /\ (Entry.principal e =? int 0) = false.
Proof.
  split; [vm_compute; reflexivity|]. split; [vm_compute; reflexivity|].
  eexists. eexists.
  split; [vm_compute; reflexivity|]. split; [vm_compute; reflexivity|].
  vm_compute. repeat split; discriminate.
Qed.

(** Row 13 of 100000 at 5% over two and a half years: the month after
    the first yearly repayment. *)
Lemma C6_witness :
  let p := two_and_half in
  let e := nth 12 (schedule (calculateInterestOnlyLoan p))
             (Entry.mk 0%N (int 0) (int 0) (int 0) (int 0)) in
  (extraPayment p >? int 0) = false
  /\ In e (schedule (calculateInterestOnlyLoan p))
  /\ Entry.period e = 13%N
  /\ Entry.principal e = int 0.
Proof.
  intros p e.
  assert (Hextra : (extraPayment p >? int 0) = false) by (vm_compute; reflexivity).
  assert (Hin : In e (schedule (calculateInterestOnlyLoan p))).
  { apply nth_In. vm_compute. lia. }
  split; [exact Hextra|]. split; [exact Hin|].
  split; [vm_compute; reflexivity|].
  apply (C6_interest_only_principal_zero p e Hextra Hin); vm_compute; reflexivity.
Defined.

(** A first calculation on the store of the page just loaded, and the
    same calculation after two submissions and a reset. *)
Lemma C8_witness :
  let p := one_year METHODS.AMORTIZED in
  let st1 : Store.t float := store_init in
  let st2 :=
    reset_on (submit_on extra5000
                (submit_on (one_year METHODS.INTEREST_ONLY) store_init)) in
  let r1 := calculateLoan_on p st1 in
  let r2 := calculateLoan_on p st2 in
  p = p
  /\ array_at (schedule_at (fst r1)) (snd r1)
     = array_at (schedule_at (fst r2)) (snd r2)
  /\ summary_of (fst r1) = summary_of (fst r2)
  /\ (forall address, (address < List.length (Store.arrays st1))%nat ->
        array_at address (snd r1) = array_at address st1)
  /\ List.length (Store.arrays (snd r1)) = S (List.length (Store.arrays st1))
  /\ schedule_at (fst r1) = List.length (Store.arrays st1)
  /\ Store.lastSchedule (snd r1) = Store.lastSchedule st1
  /\ Store.lastSummary (snd r1) = Store.lastSummary st1.
Proof.
  intros p st1 st2 r1 r2. split; [reflexivity|].
  exact (C8_calculateLoan_keeps_no_state st1 st2 p p eq_refl).
Defined.

(** The stores of that witness: the page just loaded has one array,
    the empty [lastSchedule]; after two submissions and a reset there
    are four, [lastSchedule] is the fourth, and the second and third
    still hold the 12 and 8 rows of the two calculations. *)
Example stores_after_events :
  let st :=
    reset_on (submit_on extra5000
                (submit_on (one_year METHODS.INTEREST_ONLY) store_init)) in
  List.length (Store.arrays (store_init : Store.t float)) = 1%nat
  /\ map (@List.length _) (Store.arrays st) = [0; 12; 8; 0]%nat
  /\ Store.lastSchedule st = 3%nat
  /\ schedule_at (fst (calculateLoan_on (one_year METHODS.AMORTIZED) st)) = 4%nat.
Proof. repeat split; vm_compute; reflexivity. Qed.

(** A method string the page does not know, and no method at all. *)
Lemma C10_witness :
  let p := one_year "balloon" in
  method p <> MethodString METHODS.EQUAL_PRINCIPAL
  /\ method p <> MethodString METHODS.INTEREST_ONLY
  /\ calculateLoan p = calculateAmortizedLoan p
  /\ call_calculateLoan p = Return (calculateAmortizedLoan p).
Proof.
  intros p.
  assert (H1 : method p <> MethodString METHODS.EQUAL_PRINCIPAL)
    by (intro E; discriminate E).
  assert (H2 : method p <> MethodString METHODS.INTEREST_ONLY)
    by (intro E; discriminate E).
  split; [exact H1|]. split; [exact H2|].
  exact (C10_other_methods_amortized p H1 H2).
Defined.

Example no_method_amortized (p : Params float) :
  method p = MethodOther -> calculateLoan p = calculateAmortizedLoan p.
Proof.
  intros E. unfold calculateLoan. rewrite E. reflexivity.
Qed.

End Runs.

(** ** The engine in exact arithmetic *)

(** The algorithms with every rounding removed.  The program computes in
    binary64, so what follows is not about its runs: it shows what the
    three algorithms do over the rationals, and with the runs above it
    tells which of their failures rounding causes. *)

Section Exact.

Local Open Scope Q_scope.

Lemma ltb_true (a b : Q) : ExactArith.ltb a b = true -> a < b.
Proof.
  unfold ExactArith.ltb. intros E. apply negb_true_iff in E.
  apply Qnot_le_lt. intros L. apply Qle_bool_iff in L. congruence.
Qed.

Lemma ltb_false (a b : Q) : ExactArith.ltb a b = false -> b <= a.
Proof.
  unfold ExactArith.ltb. intros E. apply negb_false_iff in E.
  apply Qle_bool_iff. exact E.
Qed.

Lemma leb_true (a b : Q) : Qle_bool a b = true -> a <= b.
Proof. apply Qle_bool_iff. Qed.

Lemma leb_false (a b : Q) : Qle_bool a b = false -> b < a.
Proof.
  intros E. apply Qnot_le_lt. intros L. apply Qle_bool_iff in L. congruence.
Qed.

Lemma eqb_true (a b : Q) : Qeq_bool a b = true -> a == b.
Proof. apply Qeq_bool_iff. Qed.

(** Unfold the operations of [Number] at [Q]. *)
Ltac exact_arith :=
  cbn [int cent nadd nsub nmul ndiv nltb nleb neqb Math_max Math_min
       ExactArith.Number_Q] in *;
  unfold ExactArith.max, ExactArith.min in *;
  change (inject_Z (Z.of_N 0)) with 0 in *;
  change (inject_Z (Z.of_N 1)) with 1 in *;
  change (inject_Z (Z.of_N 100)) with 100 in *.

(** Split on every comparison the goal branches on. *)
Ltac compare_cases :=
  repeat (cbn [andb orb negb];
          match goal with
          | |- context [ExactArith.ltb ?a ?b] =>
              let E := fresh "E" in
              destruct (ExactArith.ltb a b) eqn:E in *;
              [apply ltb_true in E | apply ltb_false in E]
          | |- context [Qle_bool ?a ?b] =>
              let E := fresh "E" in
              destruct (Qle_bool a b) eqn:E in *;
              [apply leb_true in E | apply leb_false in E]
          end).

Lemma sum_of_push (f : Entry.t Q -> Q) (sch : list (Entry.t Q)) (e : Entry.t Q) :
  sum_of f (push sch e) = sum_of f sch + f e.
Proof. unfold sum_of, push. rewrite fold_left_app. reflexivity. Qed.

Lemma loop_cond_balance (cap : N) (s : Loop.t Q) :
  loop_cond cap s = true -> 0 < Loop.balance s.
Proof.
  unfold loop_cond. intros E. apply andb_prop in E. destruct E as [E _].
  exact_arith. apply ltb_true in E. exact E.
Qed.

(** *** The totals *)

Lemma amortized_step_totals (r w : Q) (s : Loop.t Q) :
  totals_agree s -> totals_agree (amortized_step r w s).
Proof.
  unfold totals_agree, amortized_step.
  cbn [Loop.totalPaid Loop.totalInterest Loop.schedule].
  rewrite sum_of_push. cbn [Entry.principal]. exact_arith.
  intros Hs. compare_cases; lra.
Qed.

Lemma equal_principal_step_totals (r b x : Q) (s : Loop.t Q) :
  totals_agree s -> totals_agree (equal_principal_step r b x s).
Proof.
  unfold totals_agree, equal_principal_step.
  cbn [Loop.totalPaid Loop.totalInterest Loop.schedule].
  rewrite sum_of_push. cbn [Entry.principal]. exact_arith.
  intros Hs. compare_cases; lra.
Qed.

Lemma interest_only_step_totals (r : Q) (ppy : positive) (n : N) (a x : Q)
  (s : Loop.t Q) :
  totals_agree s -> totals_agree (interest_only_step r ppy n a x s).
Proof.
  unfold totals_agree, interest_only_step.
  cbn [Loop.totalPaid Loop.totalInterest Loop.schedule].
  rewrite sum_of_push. cbn [Entry.principal]. exact_arith.
  intros Hs.
  destruct ((Loop.period s + 1) mod N.pos ppy =? 0)%N;
    destruct (Loop.period s + 1 =? n)%N; compare_cases; lra.
Qed.

Lemma engine_totals_agree (p : Params Q) : totals_agree (fst (engine_run p)).
Proof.
  destruct (engine_run_eq p) as (step & Hrun & Hstep).
  rewrite Hrun. apply while_invariant.
  - intros s Hs _. unfold totals_agree.
    rewrite payoff_check_totalPaid, payoff_check_totalInterest,
      payoff_check_schedule.
    destruct Hstep as [E | [E | E]]; subst step.
    + apply equal_principal_step_totals, Hs.
    + apply interest_only_step_totals, Hs.
    + apply amortized_step_totals, Hs.
  - unfold totals_agree, loop_init, sum_of.
    cbn [Loop.schedule Loop.totalPaid Loop.totalInterest fold_left].
    exact_arith. lra.
Qed.

(** Without rounding, for every input and every method, the summary's
    [totalPaid] equals its [totalInterest] plus the sum of the principal
    portions of the schedule, exactly and hence within 0.01. *)
Theorem exact_totals_agree (p : Params Q) :
  totalPaid (summary (calculateLoan p))
  == totalInterest (summary (calculateLoan p))
     + sum_of Entry.principal (schedule (calculateLoan p))
  /\ within cent
       (totalPaid (summary (calculateLoan p)))
       (totalInterest (summary (calculateLoan p))
        + sum_of Entry.principal (schedule (calculateLoan p)))%num
     = true.
Proof.
  destruct (calculateLoan_run p) as (Hsch & Hpaid & Hint & _).
  rewrite Hsch, Hpaid, Hint.
  pose proof (engine_totals_agree p) as Ht. unfold totals_agree in Ht.
  split; [exact Ht|].
  unfold within. exact_arith.
  apply andb_true_intro; split; apply Qle_bool_iff; lra.
Qed.

(** *** The principal *)

Lemma amortized_step_principal (P r w : Q) (s : Loop.t Q) :
  0 < Loop.balance s ->
  principal_accounted P s ->
  principal_accounted P (amortized_step r w s)
  /\ 0 <= Loop.balance (amortized_step r w s).
Proof.
  unfold principal_accounted, amortized_step.
  cbn [Loop.balance Loop.schedule].
  rewrite sum_of_push. cbn [Entry.principal]. exact_arith.
  intros Hb Hs. compare_cases; split; lra.
Qed.

Lemma equal_principal_step_principal (P r b x : Q) (s : Loop.t Q) :
  0 < Loop.balance s ->
  principal_accounted P s ->
  principal_accounted P (equal_principal_step r b x s)
  /\ 0 <= Loop.balance (equal_principal_step r b x s).
Proof.
  unfold principal_accounted, equal_principal_step.
  cbn [Loop.balance Loop.schedule].
  rewrite sum_of_push. cbn [Entry.principal]. exact_arith.
  intros Hb Hs. compare_cases; split; lra.
Qed.

Lemma interest_only_step_principal (P r : Q) (ppy : positive) (n : N) (a x : Q)
  (s : Loop.t Q) :
  0 < Loop.balance s ->
  principal_accounted P s ->
  principal_accounted P (interest_only_step r ppy n a x s)
  /\ 0 <= Loop.balance (interest_only_step r ppy n a x s).
Proof.
  unfold principal_accounted, interest_only_step.
  cbn [Loop.balance Loop.schedule].
  rewrite sum_of_push. cbn [Entry.principal]. exact_arith.
  intros Hb Hs.
  destruct ((Loop.period s + 1) mod N.pos ppy =? 0)%N;
    destruct (Loop.period s + 1 =? n)%N; compare_cases; split; lra.
Qed.

(** When the loop ends by its [break], the principal portions sum to the
    principal less the balance of the last row, which lies between 0
    and 0.01. *)
Lemma engine_principal_accounted (p : Params Q) :
  ends_by_payoff p ->
  exists e,
    last_entry (Loop.schedule (fst (engine_run p))) = Some e
    /\ sum_of Entry.principal (Loop.schedule (fst (engine_run p)))
       == principal p - Entry.balance e
    /\ 0 <= Entry.balance e <= 1 # 100.
Proof.
  unfold ends_by_payoff.
  destruct (engine_run_eq p) as (step & Hrun & Hstep).
  rewrite Hrun.
  apply (while_rule _ _ (principal_accounted (principal p))
           (fun r => snd r = ExitBreak ->
                     exists e,
                       last_entry (Loop.schedule (fst r)) = Some e
                       /\ sum_of Entry.principal (Loop.schedule (fst r))
                          == principal p - Entry.balance e
                       /\ 0 <= Entry.balance e <= 1 # 100)).
  - intros s _ _ Hx. discriminate Hx.
  - intros s _ _ Hx. discriminate Hx.
  - intros s Hs Hc. apply loop_cond_balance in Hc.
    assert (Hstep' : principal_accounted (principal p) (step s)
                     /\ 0 <= Loop.balance (step s)
                     /\ exists e, Loop.schedule (step s) = push (Loop.schedule s) e
                                  /\ Entry.balance e = Loop.balance (step s)).
    { destruct Hstep as [E | [E | E]]; subst step.
      - destruct (equal_principal_step_principal (principal p) (periodicRate p)
                    (basePrincipalPerPeriod p) (extraPayment p) s Hc Hs) as [H1 H2].
        destruct (equal_principal_step_pushes (periodicRate p)
                    (basePrincipalPerPeriod p) (extraPayment p) s)
          as (e & He & _ & _ & Hb).
        eauto.
      - destruct (interest_only_step_principal (principal p) (periodicRate p)
                    (paymentsPerYear p) (totalPeriods p)
                    (plannedAnnualPrincipal p) (extraPayment p) s Hc Hs) as [H1 H2].
        destruct (interest_only_step_pushes (periodicRate p) (paymentsPerYear p)
                    (totalPeriods p) (plannedAnnualPrincipal p) (extraPayment p) s)
          as (e & He & _ & _ & Hb).
        eauto.
      - destruct (amortized_step_principal (principal p) (periodicRate p)
                    (paymentWithExtra p) s Hc Hs) as [H1 H2].
        destruct (amortized_step_pushes (periodicRate p) (paymentWithExtra p) s)
          as (e & He & _ & _ & Hb).
        eauto. }
    destruct Hstep' as (Hacc & Hpos & e & He & Hbal).
    destruct (snd (payoff_check (step s))) eqn:Hstop.
    + intros _. cbn [fst]. rewrite payoff_check_schedule.
      apply payoff_check_break in Hstop. exact_arith. apply leb_true in Hstop.
      exists e. rewrite He, last_entry_push. split; [reflexivity|].
      unfold principal_accounted in Hacc. rewrite He in Hacc.
      rewrite Hbal. repeat split; lra.
    + rewrite (payoff_check_continue _ Hstop). exact Hacc.
  - unfold principal_accounted, loop_init, sum_of.
    cbn [Loop.schedule Loop.balance fold_left]. exact_arith. lra.
Qed.

(** *** The payments of the equal-principal method *)

Lemma int_positive (n : N) : (1 <= n)%N -> 0 < int n.
Proof.
  intros Hn. exact_arith. unfold Qlt. cbn. lia.
Qed.

Lemma totalPeriods_positive (p : Params Q) : (1 <= totalPeriods p)%N.
Proof. unfold totalPeriods. lia. Qed.

Lemma periodicRate_nonneg (p : Params Q) : 0 <= periodicRate p.
Proof.
  unfold periodicRate. exact_arith.
  destruct (ExactArith.ltb 0 (annualRate p)) eqn:E; [|lra].
  apply ltb_true in E.
  assert (Hk : 0 < inject_Z (Z.of_N (N.pos (paymentsPerYear p)))).
  { unfold Qlt. cbn. lia. }
  unfold Qdiv.
  apply Qmult_le_0_compat; [apply Qmult_le_0_compat|].
  - lra.
  - apply Qinv_le_0_compat. lra.
  - apply Qinv_le_0_compat. lra.
Qed.

Lemma valid_input_principal (p : Params Q) :
  valid_input p = true -> 0 < principal p.
Proof.
  unfold valid_input. intros E.
  do 8 (apply andb_prop in E; destruct E as [E _]).
  apply andb_prop in E. destruct E as [_ E].
  exact_arith. apply ltb_true in E. exact E.
Qed.

Lemma basePrincipalPerPeriod_nonneg (p : Params Q) :
  0 < principal p -> 0 <= basePrincipalPerPeriod p.
Proof.
  intros HP. unfold basePrincipalPerPeriod. exact_arith.
  pose proof (int_positive (totalPeriods p) (totalPeriods_positive p)) as Hn.
  exact_arith. unfold Qdiv.
  apply Qmult_le_0_compat; [lra|]. apply Qinv_le_0_compat. lra.
Qed.

Lemma period_interest_mono (r b b' : Q) :
  0 <= r -> b' <= b -> period_interest r b' <= period_interest r b.
Proof.
  intros Hr Hb. unfold period_interest. exact_arith.
  destruct (Qeq_bool r 0); [lra|].
  apply Qmult_le_compat_r; assumption.
Qed.

Lemma next_payment_mono (r c b b' : Q) :
  0 <= r -> b' <= b -> next_payment r c b' <= next_payment r c b.
Proof.
  intros Hr Hb. unfold next_payment.
  pose proof (period_interest_mono r b b' Hr Hb) as Hi.
  compare_cases; lra.
Qed.

Lemma non_increasing_push (l : list Q) (x : Q) :
  non_increasing l ->
  (l <> [] -> x <= last l 0) ->
  non_increasing (l ++ [x]).
Proof.
  induction l as [|a l IH]; intros Hl Hx; [exact I|].
  destruct l as [|b l].
  - cbn. split; [|exact I]. apply Qle_bool_iff. apply Hx. discriminate.
  - cbn [app non_increasing] in *. destruct Hl as [Hab Hl].
    split; [exact Hab|]. apply IH; [exact Hl|].
    intros _. apply Hx. discriminate.
Qed.

Lemma equal_principal_step_ordered (r b x : Q) (s : Loop.t Q) :
  0 <= r -> 0 <= b + x -> 0 < Loop.balance s ->
  payments_ordered r (b + x) s ->
  payments_ordered r (b + x) (equal_principal_step r b x s)
  /\ 0 <= Loop.balance (equal_principal_step r b x s).
Proof.
  intros Hr Hc Hb [Hsorted Hlast].
  assert (Hpay : map Entry.payment
                   (Loop.schedule (equal_principal_step r b x s))
                 = (map Entry.payment (Loop.schedule s)
                    ++ [next_payment r (b + x) (Loop.balance s)])%list).
  { unfold equal_principal_step, push. cbn [Loop.schedule].
    rewrite map_app. reflexivity. }
  assert (Hbal : 0 <= Loop.balance (equal_principal_step r b x s)
                 /\ Loop.balance (equal_principal_step r b x s) <= Loop.balance s).
  { unfold equal_principal_step. cbn [Loop.balance]. exact_arith.
    compare_cases; split; lra. }
  destruct Hbal as [Hpos Hle].
  split; [|exact Hpos]. unfold payments_ordered. rewrite Hpay. split.
  - apply non_increasing_push; assumption.
  - intros _. rewrite last_last. apply next_payment_mono; assumption.
Qed.

Lemma equal_principal_payments_ordered (p : Params Q) :
  0 < principal p -> extraPayment p == 0 ->
  non_increasing
    (map Entry.payment (Loop.schedule (fst (equal_principal_run p)))).
Proof.
  intros HP Hx. unfold equal_principal_run.
  pose proof (periodicRate_nonneg p) as Hr.
  pose proof (basePrincipalPerPeriod_nonneg p HP) as Hb.
  assert (Hc : 0 <= basePrincipalPerPeriod p + extraPayment p) by lra.
  apply (while_rule _ _
           (payments_ordered (periodicRate p)
              (basePrincipalPerPeriod p + extraPayment p))
           (fun r => non_increasing
                       (map Entry.payment (Loop.schedule (fst r))))).
  - intros s [Hs _] _. exact Hs.
  - intros s [Hs _] _. exact Hs.
  - intros s Hs Hcond. apply loop_cond_balance in Hcond.
    destruct (equal_principal_step_ordered _ _ _ s Hr Hc Hcond Hs)
      as [Hs' _].
    unfold equal_principal_body.
    destruct (snd (payoff_check _)) eqn:Hstop.
    + cbn [fst]. rewrite payoff_check_schedule. exact (proj1 Hs').
    + rewrite (payoff_check_continue _ Hstop). exact Hs'.
  - split; [exact I|]. intros Hne. exfalso. apply Hne. reflexivity.
Qed.

(** Without rounding, for the equal-principal method with
    [extraPayment = 0] and a valid input, the payments of the schedule,
    in period order, never rise: each is at most the payment of the
    period before. *)
Theorem exact_equal_principal_payments_non_increasing (p : Params Q) :
  valid_input p = true ->
  extraPayment p == 0 ->
  non_increasing
    (map Entry.payment (schedule (calculateEqualPrincipalLoan p))).
Proof.
  intros Hvalid Hx.
  apply equal_principal_payments_ordered; [|exact Hx].
  apply valid_input_principal, Hvalid.
Qed.

(** *** Convergence of the period loops *)

Lemma ltb_intro (a b : Q) : a < b -> ExactArith.ltb a b = true.
Proof.
  intros L. destruct (ExactArith.ltb a b) eqn:E; [reflexivity|].
  apply ltb_false in E. lra.
Qed.

Lemma payoff_check_continue_balance (s : Loop.t Q) :
  snd (payoff_check s) = false -> 1 # 100 < Loop.balance s.
Proof.
  unfold payoff_check. exact_arith.
  destruct (Qle_bool (Loop.balance s) (1 # 100)) eqn:E; [discriminate|].
  intros _. apply leb_false in E. exact E.
Qed.

Lemma push_not_nil {A : Type} (l : list A) (x : A) : push l x <> [].
Proof. unfold push. destruct l; discriminate. Qed.

Lemma run_pays_off (step : Loop.t Q -> Loop.t Q) (n cap : N)
  (bound : nat -> Q) (fuel : nat) (s0 : Loop.t Q) :
  pushes_one_row step ->
  keeps_track n bound step ->
  bound 0%nat <= 0 ->
  (n < cap)%N ->
  on_track n bound s0 ->
  snd (while (loop_cond cap) (fun s => payoff_check (step s)) fuel s0)
  <> ExitFuel ->
  paid_off (while (loop_cond cap) (fun s => payoff_check (step s)) fuel s0).
Proof.
  intros Hpush Hkeep Hzero Hcap.
  revert fuel s0.
  apply (while_rule _ _ (on_track n bound)
           (fun r => snd r <> ExitFuel -> paid_off r)).
  - intros s (Hpos & Hper & _) Hcond _. exfalso.
    unfold loop_cond in Hcond. exact_arith.
    rewrite (ltb_intro _ _ Hpos) in Hcond.
    replace (Loop.period s <? cap)%N with true in Hcond
      by (symmetry; apply N.ltb_lt; lia).
    discriminate Hcond.
  - intros s _ _ Hx. exfalso. apply Hx. reflexivity.
  - intros s (Hpos & Hper & Hbound & Hsorted & Hlast) _.
    destruct (Hkeep s Hpos Hper Hbound) as [[Hlo Hhi] Hnext].
    destruct (Hpush s) as (e & Hsch & Hp & _ & Hbal).
    assert (Hmap : map Entry.balance (Loop.schedule (step s))
                   = (map Entry.balance (Loop.schedule s)
                      ++ [Loop.balance (step s)])%list).
    { rewrite Hsch. unfold push. rewrite map_app. cbn. rewrite Hbal.
      reflexivity. }
    assert (Hord : balances_ordered (step s)).
    { unfold balances_ordered. rewrite Hmap. split.
      - apply non_increasing_push; [exact Hsorted|].
        intros Hne. specialize (Hlast Hne). lra.
      - intros _. rewrite last_last. lra. }
    destruct (snd (payoff_check (step s))) eqn:Hstop.
    + intros _. unfold paid_off. cbn [fst snd].
      rewrite payoff_check_schedule.
      split; [reflexivity|]. split; [rewrite Hsch; apply push_not_nil|].
      split; [exact (proj1 Hord)|].
      exists e. rewrite Hsch, last_entry_push. split; [reflexivity|].
      apply payoff_check_break in Hstop. exact_arith.
      apply leb_true in Hstop. rewrite Hbal. split; lra.
    + pose proof (payoff_check_continue_balance _ Hstop) as Hbig.
      rewrite (payoff_check_continue _ Hstop).
      unfold on_track. rewrite Hp.
      assert (Hper' : (Loop.period s + 1 <= n)%N).
      { destruct (N.le_gt_cases (Loop.period s + 1) n) as [L | G]; [exact L|].
        exfalso.
        replace (N.to_nat (n - (Loop.period s + 1))) with 0%nat in Hnext by lia.
        lra. }
      repeat split; [lra | exact Hper' | exact Hnext | exact (proj1 Hord)
                    | exact (proj2 Hord)].
Qed.

Lemma remaining_periods (n k : N) :
  N.to_nat (n - k) = 0%nat
  \/ exists m, N.to_nat (n - k) = S m /\ N.to_nat (n - (k + 1)) = m.
Proof.
  destruct (N.to_nat (n - k)) as [|m] eqn:E; [left; reflexivity|].
  right. exists m. split; [reflexivity|]. lia.
Qed.

Lemma inject_Z_nonneg (m : nat) : 0 <= inject_Z (Z.of_nat m).
Proof. unfold Qle. cbn. lia. Qed.

Lemma inject_Z_succ (m : nat) :
  inject_Z (Z.of_nat (S m)) == inject_Z (Z.of_nat m) + 1.
Proof. rewrite Nat2Z.inj_succ. unfold Z.succ. rewrite inject_Z_plus. reflexivity. Qed.

(** **** Equal instalments of principal *)

Lemma instalments_left_zero (c : Q) : instalments_left c 0 == 0.
Proof. unfold instalments_left. change (inject_Z (Z.of_nat 0)) with 0. ring. Qed.

Lemma instalments_left_succ (c : Q) (m : nat) :
  instalments_left c (S m) == instalments_left c m + c.
Proof. unfold instalments_left. rewrite inject_Z_succ. ring. Qed.

Lemma instalments_left_nonneg (c : Q) (m : nat) :
  0 <= c -> 0 <= instalments_left c m.
Proof.
  intros Hc. unfold instalments_left.
  apply Qmult_le_0_compat; [apply inject_Z_nonneg | exact Hc].
Qed.

Lemma equal_principal_keeps_track (n : N) (r b x : Q) :
  0 <= b -> 0 <= x ->
  keeps_track n (instalments_left b) (equal_principal_step r b x).
Proof.
  intros Hb Hx s Hpos Hper Hbound.
  destruct (remaining_periods n (Loop.period s)) as [E | (m & E & E')].
  - exfalso. rewrite E, instalments_left_zero in Hbound. lra.
  - rewrite E in Hbound. rewrite instalments_left_succ in Hbound.
    pose proof (instalments_left_nonneg b m Hb) as Hm.
    unfold equal_principal_step. cbn [Loop.balance Loop.period].
    rewrite E'. exact_arith. compare_cases; repeat split; lra.
Qed.

Lemma amortized_zero_rate_keeps_track (n : N) (r b x : Q) :
  Qeq_bool r 0 = true -> 0 <= b -> 0 <= x ->
  keeps_track n (instalments_left b) (amortized_step r (b + x)).
Proof.
  intros Hr Hb Hx s Hpos Hper Hbound.
  destruct (remaining_periods n (Loop.period s)) as [E | (m & E & E')].
  - exfalso. rewrite E, instalments_left_zero in Hbound. lra.
  - rewrite E in Hbound. rewrite instalments_left_succ in Hbound.
    pose proof (instalments_left_nonneg b m Hb) as Hm.
    unfold amortized_step, period_interest. cbn [Loop.balance Loop.period].
    rewrite E'. exact_arith. rewrite Hr. compare_cases; repeat split; lra.
Qed.

Lemma int_totalPeriods (p : Params Q) :
  int (totalPeriods p) == inject_Z (Z.of_nat (N.to_nat (totalPeriods p)))
  /\ 0 < int (totalPeriods p).
Proof.
  split.
  - exact_arith. rewrite N_nat_Z. reflexivity.
  - apply int_positive, totalPeriods_positive.
Qed.

Lemma instalments_cover_principal (p : Params Q) :
  principal p
  <= instalments_left (basePrincipalPerPeriod p) (N.to_nat (totalPeriods p)).
Proof.
  unfold instalments_left, basePrincipalPerPeriod.
  destruct (int_totalPeriods p) as [E Hn]. rewrite <- E.
  exact_arith.
  assert (H : inject_Z (Z.of_N (totalPeriods p))
              * (principal p / inject_Z (Z.of_N (totalPeriods p)))
              == principal p) by (field; lra).
  rewrite H. lra.
Qed.

(** **** The annuity *)

Lemma discount_bounds (q : Q) (m : nat) : 1 <= q -> 0 < discount q m <= 1.
Proof.
  intros Hq. induction m as [|m [IHlo IHhi]]; cbn [discount]; [lra|].
  split.
  - apply Qlt_shift_div_l; lra.
  - apply Qle_shift_div_r; lra.
Qed.

Lemma discount_below_one (q : Q) (m : nat) : 1 < q -> discount q (S m) < 1.
Proof.
  intros Hq. cbn [discount].
  destruct (discount_bounds q m) as [_ Hhi]; [lra|].
  apply Qlt_shift_div_r; lra.
Qed.

Lemma Qpower_discount (q : Q) (m : nat) :
  0 < q -> Qpower q (- Z.of_nat m) == discount q m.
Proof.
  intros Hq. induction m as [|m IH]; [reflexivity|].
  rewrite Nat2Z.inj_succ. unfold Z.succ. rewrite Z.opp_add_distr.
  rewrite Qpower_plus by lra. rewrite IH.
  cbn [discount]. reflexivity.
Qed.

Lemma annuity_left_zero (A r : Q) : 0 < r -> annuity_left A r 0 == 0.
Proof. intros Hr. unfold annuity_left. cbn [discount]. field. lra. Qed.

Lemma annuity_left_nonneg (A r : Q) (m : nat) :
  0 < r -> 0 <= A -> 0 <= annuity_left A r m.
Proof.
  intros Hr HA. unfold annuity_left.
  destruct (discount_bounds (1 + r) m) as [_ Hhi]; [lra|].
  apply Qle_shift_div_l; [exact Hr|].
  assert (H : 0 <= A * (1 - discount (1 + r) m))
    by (apply Qmult_le_0_compat; lra).
  lra.
Qed.

Lemma annuity_left_interest (A r : Q) (m : nat) :
  0 < r -> 0 <= A -> annuity_left A r m * r <= A.
Proof.
  intros Hr HA. unfold annuity_left.
  destruct (discount_bounds (1 + r) m) as [Hlo _]; [lra|].
  assert (E : A * (1 - discount (1 + r) m) / r * r
              == A - A * discount (1 + r) m) by (field; lra).
  rewrite E.
  assert (H : 0 <= A * discount (1 + r) m)
    by (apply Qmult_le_0_compat; lra).
  lra.
Qed.

Lemma annuity_left_succ (A r : Q) (m : nat) :
  0 < r -> annuity_left A r (S m) * (1 + r) - A == annuity_left A r m.
Proof.
  intros Hr. unfold annuity_left. cbn [discount]. field. lra.
Qed.

Lemma amortized_keeps_track (n : N) (r A x : Q) :
  0 < r -> 0 <= A -> 0 <= x ->
  keeps_track n (annuity_left A r) (amortized_step r (A + x)).
Proof.
  intros Hr HA Hx s Hpos Hper Hbound.
  destruct (remaining_periods n (Loop.period s)) as [E | (m & E & E')].
  - exfalso. rewrite E, annuity_left_zero in Hbound; lra.
  - rewrite E in Hbound.
    pose proof (annuity_left_nonneg A r m Hr HA) as Hm.
    pose proof (annuity_left_interest A r (S m) Hr HA) as Hi.
    pose proof (annuity_left_succ A r m Hr) as Hs.
    assert (Hbr : Loop.balance s * r <= annuity_left A r (S m) * r)
      by (apply Qmult_le_compat_r; lra).
    assert (Hrate : Qeq_bool r 0 = false).
    { destruct (Qeq_bool r 0) eqn:Q0; [|reflexivity].
      apply eqb_true in Q0. lra. }
    unfold amortized_step, period_interest. cbn [Loop.balance Loop.period].
    rewrite E'. exact_arith. rewrite Hrate.
    compare_cases; repeat split; lra.
Qed.

(** **** The yearly repayments *)

Lemma interest_only_keeps_track (n : N) (ppy : positive) (r a x : Q) :
  0 <= a -> 0 <= x ->
  keeps_track n (fun m => instalments_left a (repayments_left ppy n m))
    (interest_only_step r ppy n a x).
Proof.
  intros Ha Hx s Hpos Hper Hbound.
  destruct (remaining_periods n (Loop.period s)) as [E | (m & E & E')].
  - exfalso. rewrite E in Hbound. cbn [repayments_left] in Hbound.
    rewrite instalments_left_zero in Hbound. lra.
  - rewrite E in Hbound. cbn [repayments_left] in Hbound.
    replace (n - N.of_nat m)%N with (Loop.period s + 1)%N in Hbound by lia.
    pose proof (instalments_left_nonneg a (repayments_left ppy n m) Ha) as Hm.
    unfold interest_only_step. cbn [Loop.balance Loop.period].
    rewrite E'. unfold is_repayment in Hbound. exact_arith.
    destruct ((Loop.period s + 1) mod N.pos ppy =? 0)%N;
      destruct (Loop.period s + 1 =? n)%N;
      cbn [orb Nat.add] in Hbound;
      try rewrite instalments_left_succ in Hbound;
      compare_cases; repeat split; lra.
Qed.

Lemma div_pred (d j : N) :
  d <> 0%N -> (1 <= j)%N ->
  (j / d = (j - 1) / d + (if (j mod d =? 0) then 1 else 0))%N.
Proof.
  intros Hd Hj.
  pose proof (N.div_mod (j - 1) d Hd) as Hdm.
  pose proof (N.mod_lt (j - 1) d Hd) as Hlt.
  set (q := ((j - 1) / d)%N) in *. set (t := ((j - 1) mod d)%N) in *.
  clearbody q t.
  destruct (N.eq_dec (t + 1) d) as [Heq | Hne].
  - assert (Hj' : j = (d * (q + 1) + 0)%N)
      by (rewrite N.mul_add_distr_l, N.mul_1_r; lia).
    rewrite <- (N.mod_unique j d (q + 1) 0) by (lia || exact Hj').
    rewrite <- (N.div_unique j d (q + 1) 0) by (lia || exact Hj').
    reflexivity.
  - assert (Hj' : j = (d * q + (t + 1))%N) by lia.
    rewrite <- (N.mod_unique j d q (t + 1)) by (lia || exact Hj').
    rewrite <- (N.div_unique j d q (t + 1)) by (lia || exact Hj').
    replace (t + 1 =? 0)%N with false by (symmetry; apply N.eqb_neq; lia).
    lia.
Qed.

Lemma repayments_left_count (ppy : positive) (n : N) (m : nat) :
  (1 <= m)%nat -> (N.of_nat m <= n)%N ->
  (N.of_nat (repayments_left ppy n m) + (n - N.of_nat m) / Npos ppy
   = 1 + (n - 1) / Npos ppy)%N.
Proof.
  induction m as [|m IH]; intros Hm Hn; [lia|].
  cbn [repayments_left].
  destruct m as [|m].
  - cbn [repayments_left]. unfold is_repayment.
    change (N.of_nat 0) with 0%N. change (N.of_nat 1) with 1%N.
    rewrite N.sub_0_r, N.eqb_refl, orb_true_r.
    change (N.of_nat (1 + 0)) with 1%N. reflexivity.
  - specialize (IH ltac:(lia) ltac:(lia)).
    set (j := (n - N.of_nat (S m))%N) in *.
    assert (Hj : (1 <= j)%N) by lia.
    pose proof (div_pred (Npos ppy) j ltac:(discriminate) Hj) as Hdiv.
    replace (n - N.of_nat (S (S m)))%N with (j - 1)%N by lia.
    unfold is_repayment.
    replace (j =? n)%N with false by (symmetry; apply N.eqb_neq; lia).
    rewrite orb_false_r.
    destruct (j mod N.pos ppy =? 0)%N; lia.
Qed.

Lemma repayments_left_all (p : Params Q) :
  N.of_nat (repayments_left (paymentsPerYear p) (totalPeriods p)
              (N.to_nat (totalPeriods p)))
  = annualRepaymentCount p.
Proof.
  pose proof (totalPeriods_positive p) as Hn.
  pose proof (repayments_left_count (paymentsPerYear p) (totalPeriods p)
                (N.to_nat (totalPeriods p)) ltac:(lia) ltac:(lia)) as Hc.
  rewrite N2Nat.id, N.sub_diag in Hc.
  rewrite N.Div0.div_0_l in Hc.
  pose proof (div_pred (Npos (paymentsPerYear p)) (totalPeriods p)
                ltac:(discriminate) Hn) as Hdiv.
  unfold annualRepaymentCount, fullYears, remainderPeriods.
  destruct (totalPeriods p mod N.pos (paymentsPerYear p) =? 0)%N eqn:E.
  - apply N.eqb_eq in E. rewrite E. cbn [N.ltb N.compare].
    generalize dependent ((totalPeriods p - 1) / N.pos (paymentsPerYear p))%N.
    generalize dependent (totalPeriods p / N.pos (paymentsPerYear p))%N.
    intros. lia.
  - apply N.eqb_neq in E.
    replace (0 <? totalPeriods p mod N.pos (paymentsPerYear p))%N with true
      by (symmetry; apply N.ltb_lt, N.neq_0_lt_0; exact E).
    generalize dependent ((totalPeriods p - 1) / N.pos (paymentsPerYear p))%N.
    generalize dependent (totalPeriods p / N.pos (paymentsPerYear p))%N.
    intros. lia.
Qed.

(** **** Every valid input is paid off *)

Lemma valid_input_extra (p : Params Q) :
  valid_input p = true -> 0 <= extraPayment p.
Proof.
  unfold valid_input. intros E.
  apply andb_prop in E. destruct E as [E _].
  apply andb_prop in E. destruct E as [_ E].
  exact_arith. apply leb_true in E. exact E.
Qed.

Lemma maxIterations_above (p : Params Q) : (totalPeriods p < maxIterations p)%N.
Proof. unfold maxIterations. lia. Qed.

Lemma loop_init_on_track (p : Params Q) (bound : nat -> Q) :
  0 < principal p ->
  principal p <= bound (N.to_nat (totalPeriods p)) ->
  on_track (totalPeriods p) bound (loop_init p).
Proof.
  intros HP Hb. unfold on_track, loop_init, balances_ordered.
  cbn [Loop.balance Loop.period Loop.schedule map]. rewrite N.sub_0_r.
  repeat split; try assumption; try lia.
  intros Hne. exfalso. apply Hne. reflexivity.
Qed.

Lemma plannedAnnualPrincipal_covers (p : Params Q) :
  0 < principal p ->
  0 <= plannedAnnualPrincipal p
  /\ principal p
     <= instalments_left (plannedAnnualPrincipal p)
          (repayments_left (paymentsPerYear p) (totalPeriods p)
             (N.to_nat (totalPeriods p))).
Proof.
  intros HP. unfold instalments_left, plannedAnnualPrincipal.
  assert (Hc : (1 <= annualRepaymentCount p)%N)
    by (unfold annualRepaymentCount; lia).
  pose proof (int_positive _ Hc) as Hpos.
  rewrite <- nat_N_Z, repayments_left_all.
  exact_arith. split.
  - unfold Qdiv. apply Qmult_le_0_compat; [lra|].
    apply Qinv_le_0_compat. lra.
  - assert (H : inject_Z (Z.of_N (annualRepaymentCount p))
                * (principal p / inject_Z (Z.of_N (annualRepaymentCount p)))
                == principal p) by (field; lra).
    rewrite H. lra.
Qed.

Lemma basePayment_annuity (p : Params Q) :
  0 < principal p -> 0 < periodicRate p ->
  0 <= basePayment p
  /\ principal p
     <= annuity_left (basePayment p) (periodicRate p)
          (N.to_nat (totalPeriods p)).
Proof.
  intros HP Hr.
  assert (Hrate : Qeq_bool (periodicRate p) 0 = false).
  { destruct (Qeq_bool (periodicRate p) 0) eqn:Q0; [|reflexivity].
    apply eqb_true in Q0. lra. }
  pose proof (totalPeriods_positive p) as Hn.
  destruct (N.to_nat (totalPeriods p)) as [|m] eqn:Em; [lia|].
  assert (Hq : 1 < 1 + periodicRate p) by lra.
  assert (Hq0 : 0 < 1 + periodicRate p) by lra.
  pose proof (discount_below_one (1 + periodicRate p) m Hq) as Hd.
  assert (HA : basePayment p
               == principal p * periodicRate p
                  / (1 - discount (1 + periodicRate p) (S m))).
  { unfold basePayment. exact_arith. rewrite Hrate.
    cbn [Math_pow ExactArith.Number_Q].
    rewrite <- Em, <- (Qpower_discount _ _ Hq0), N_nat_Z.
    reflexivity. }
  assert (Hprod : 0 <= principal p * periodicRate p)
    by (apply Qmult_le_0_compat; lra).
  split.
  - rewrite HA. apply Qle_shift_div_l; lra.
  - unfold annuity_left. rewrite HA.
    assert (E : principal p * periodicRate p
                / (1 - discount (1 + periodicRate p) (S m))
                * (1 - discount (1 + periodicRate p) (S m)) / periodicRate p
                == principal p) by (field; lra).
    rewrite E. lra.
Qed.

(** In exact arithmetic the period loop of a valid input ends by
    payoff, within [totalPeriods] periods: the cap is never reached. *)
Theorem valid_input_paid_off (p : Params Q) :
  valid_input p = true -> paid_off (engine_run p).
Proof.
  intros Hvalid.
  pose proof (valid_input_principal p Hvalid) as HP.
  pose proof (valid_input_extra p Hvalid) as Hx.
  pose proof (periodicRate_nonneg p) as Hr.
  pose proof (maxIterations_above p) as Hcap.
  unfold engine_run.
  destruct (strict_equals (method p) METHODS.EQUAL_PRINCIPAL);
    [|destruct (strict_equals (method p) METHODS.INTEREST_ONLY)].
  - unfold equal_principal_run, equal_principal_body.
    apply (run_pays_off _ (totalPeriods p) _
             (instalments_left (basePrincipalPerPeriod p))).
    + apply equal_principal_step_pushes.
    + apply equal_principal_keeps_track;
        [apply basePrincipalPerPeriod_nonneg, HP | exact Hx].
    + rewrite instalments_left_zero. lra.
    + exact Hcap.
    + apply loop_init_on_track; [exact HP|].
      apply instalments_cover_principal.
    + apply while_enough_fuel; [apply equal_principal_step_pushes|].
      cbn [loop_init Loop.period]. lia.
  - destruct (plannedAnnualPrincipal_covers p HP) as [Ha Hcover].
    unfold interest_only_run, interest_only_body.
    apply (run_pays_off _ (totalPeriods p) _
             (fun m => instalments_left (plannedAnnualPrincipal p)
                         (repayments_left (paymentsPerYear p)
                            (totalPeriods p) m))).
    + apply interest_only_step_pushes.
    + apply interest_only_keeps_track; assumption.
    + cbn [repayments_left]. rewrite instalments_left_zero. lra.
    + exact Hcap.
    + apply loop_init_on_track; assumption.
    + apply while_enough_fuel; [apply interest_only_step_pushes|].
      cbn [loop_init Loop.period]. lia.
  - unfold amortized_run, amortized_body.
    destruct (Qeq_bool (periodicRate p) 0) eqn:Hrate.
    + assert (Hpay : paymentWithExtra p
                     = (basePrincipalPerPeriod p + extraPayment p)%num).
      { unfold paymentWithExtra, basePayment, basePrincipalPerPeriod.
        exact_arith. rewrite Hrate. reflexivity. }
      rewrite Hpay. exact_arith.
      apply (run_pays_off _ (totalPeriods p) _
               (instalments_left (basePrincipalPerPeriod p))).
      * apply amortized_step_pushes.
      * apply amortized_zero_rate_keeps_track;
          [exact Hrate | apply basePrincipalPerPeriod_nonneg, HP | exact Hx].
      * rewrite instalments_left_zero. lra.
      * exact Hcap.
      * apply loop_init_on_track; [exact HP|].
        apply instalments_cover_principal.
      * apply while_enough_fuel; [apply amortized_step_pushes|].
        cbn [loop_init Loop.period]. lia.
    + assert (Hpos : 0 < periodicRate p).
      { destruct (Qlt_le_dec 0 (periodicRate p)) as [L | G]; [exact L|].
        exfalso. assert (E : periodicRate p == 0) by lra.
        apply Qeq_bool_iff in E. congruence. }
      destruct (basePayment_annuity p HP Hpos) as [HA Hcover].
      unfold paymentWithExtra. exact_arith.
      apply (run_pays_off _ (totalPeriods p) _
               (annuity_left (basePayment p) (periodicRate p))).
      * apply amortized_step_pushes.
      * apply amortized_keeps_track; assumption.
      * rewrite annuity_left_zero; lra.
      * exact Hcap.
      * apply loop_init_on_track; assumption.
      * apply while_enough_fuel; [apply amortized_step_pushes|].
        cbn [loop_init Loop.period]. lia.
Qed.

(** Without rounding, for every valid input and every method, the
    returned schedule is non-empty, the remaining balances of its rows
    never rise, and the period loop ends by payoff: the last row's
    remaining balance lies between 0 and 0.01. *)
Theorem exact_schedule_shape (p : Params Q) :
  valid_input p = true ->
  schedule (calculateLoan p) <> []
  /\ non_increasing (map Entry.balance (schedule (calculateLoan p)))
  /\ ends_by_payoff p
  /\ exists e, last_entry (schedule (calculateLoan p)) = Some e
               /\ 0 <= Entry.balance e <= 1 # 100.
Proof.
  intros Hvalid.
  destruct (valid_input_paid_off p Hvalid) as (Hexit & Hne & Hord & Hlast).
  destruct (calculateLoan_run p) as (Hsch & _).
  rewrite Hsch. unfold ends_by_payoff. auto.
Qed.

(** Without rounding, for every valid input and every method, the
    principal portions of the schedule sum to the principal less the
    last row's remaining balance, which lies between 0 and 0.01: the sum
    equals the principal to within 0.01. *)
Theorem exact_principal_sum (p : Params Q) :
  valid_input p = true ->
  within cent (sum_of Entry.principal (schedule (calculateLoan p))) (principal p)
  = true
  /\ exists e,
       last_entry (schedule (calculateLoan p)) = Some e
       /\ sum_of Entry.principal (schedule (calculateLoan p))
          == principal p - Entry.balance e
       /\ 0 <= Entry.balance e <= 1 # 100.
Proof.
  intros Hvalid.
  assert (Hend : ends_by_payoff p)
    by exact (proj1 (valid_input_paid_off p Hvalid)).
  destruct (calculateLoan_run p) as (Hsch & _).
  rewrite Hsch.
  destruct (engine_principal_accounted p Hend) as (e & Hlast & Hsum & Hlo & Hhi).
  split; [|exists e; auto].
  unfold within. exact_arith.
  apply andb_true_intro; split; apply Qle_bool_iff; lra.
Qed.

(** *** Further properties of the engine in exact arithmetic *)

(** One amortized period: the payment is at most [w], and it is [w]
    unless the period leaves no balance. *)
Lemma amortized_step_payment (r w : Q) (s : Loop.t Q) :
  exists e,
    Loop.schedule (amortized_step r w s) = push (Loop.schedule s) e
    /\ Entry.payment e <= w
    /\ (1 # 100 < Loop.balance (amortized_step r w s) -> Entry.payment e == w).
Proof.
  eexists. split; [reflexivity|].
  unfold amortized_step. cbn [Entry.payment Loop.balance]. exact_arith.
  destruct (Qle_bool w (Loop.balance s + period_interest r (Loop.balance s)))
    eqn:Em; [apply leb_true in Em | apply leb_false in Em];
    compare_cases; split; intros; lra.
Qed.

Lemma removelast_push {A : Type} (l : list A) (x : A) : removelast (push l x) = l.
Proof. unfold push. apply removelast_last. Qed.

Lemma Forall_removelast {A : Type} (P : A -> Prop) (l : list A) :
  Forall P l -> Forall P (removelast l).
Proof.
  intros Hall. rewrite Forall_forall in *. intros x Hin. apply Hall.
  destruct l as [|a l]; [destruct Hin|].
  rewrite (app_removelast_last a (l := a :: l)) by discriminate.
  apply in_or_app. left. exact Hin.
Qed.

(** Without rounding, for every input, no row of the amortized
    schedule pays more than the [paymentPerPeriod] of the summary,
    [basePayment + extraPayment], and every row but the last pays
    exactly that. *)
Theorem amortized_payment_per_period (p : Params Q) :
  paymentInfo (summary (calculateAmortizedLoan p))
  = AmortizedInfo (paymentWithExtra p) (basePayment p) (extraPayment p)
  /\ Forall (fun e => Entry.payment e <= paymentWithExtra p)
       (schedule (calculateAmortizedLoan p))
  /\ Forall (fun e => Entry.payment e == paymentWithExtra p)
       (removelast (schedule (calculateAmortizedLoan p))).
Proof.
  split; [reflexivity|].
  unfold calculateAmortizedLoan. cbn [schedule].
  unfold amortized_run, amortized_body.
  apply (while_rule _ _
           (fun s => Forall (fun e => Entry.payment e == paymentWithExtra p)
                       (Loop.schedule s))
           (fun r => Forall (fun e => Entry.payment e <= paymentWithExtra p)
                       (Loop.schedule (fst r))
                     /\ Forall (fun e => Entry.payment e == paymentWithExtra p)
                          (removelast (Loop.schedule (fst r))))).
  - intros s Hs _. cbn [fst]. split; [|apply Forall_removelast, Hs].
    eapply Forall_impl; [|exact Hs]. intros e He. cbn beta in He. lra.
  - intros s Hs _. cbn [fst]. split; [|apply Forall_removelast, Hs].
    eapply Forall_impl; [|exact Hs]. intros e He. cbn beta in He. lra.
  - intros s Hs _.
    destruct (amortized_step_payment (periodicRate p) (paymentWithExtra p) s)
      as (e & Hsch & Hle & Heq).
    destruct (snd (payoff_check _)) eqn:Hstop.
    + cbn [fst]. rewrite payoff_check_schedule, Hsch, removelast_push.
      split; [|exact Hs].
      unfold push. apply Forall_app. split.
      * eapply Forall_impl; [|exact Hs]. intros e' He'. cbn beta in He'. lra.
      * constructor; [exact Hle|constructor].
    + rewrite (payoff_check_continue _ Hstop), Hsch.
      unfold push. apply Forall_app. split; [exact Hs|].
      constructor; [|constructor]. apply Heq.
      apply payoff_check_continue_balance. exact Hstop.
  - constructor.
Qed.

(** A loop that is on track never runs past period [n]. *)
Lemma run_within_term (step : Loop.t Q -> Loop.t Q) (n cap : N)
  (bound : nat -> Q) (fuel : nat) (s0 : Loop.t Q) :
  pushes_one_row step ->
  keeps_track n bound step ->
  bound 0%nat <= 0 ->
  on_track n bound s0 ->
  (Loop.period
     (fst (while (loop_cond cap) (fun s => payoff_check (step s)) fuel s0))
   <= n)%N.
Proof.
  intros Hpush Hkeep Hzero.
  revert fuel s0.
  apply (while_rule _ _ (on_track n bound)
           (fun r => (Loop.period (fst r) <= n)%N)).
  - intros s (_ & Hper & _) _. exact Hper.
  - intros s (_ & Hper & _) _. exact Hper.
  - intros s (Hpos & Hper & Hbound & Hsorted & Hlast) _.
    destruct (Hkeep s Hpos Hper Hbound) as [[Hlo Hhi] Hnext].
    destruct (Hpush s) as (e & Hsch & Hp & _ & Hbal).
    assert (Hper' : (Loop.period s + 1 <= n)%N).
    { destruct (N.le_gt_cases (Loop.period s + 1) n) as [L | G]; [exact L|].
      exfalso.
      replace (N.to_nat (n - Loop.period s)) with 0%nat in Hbound by lia.
      lra. }
    destruct (snd (payoff_check (step s))) eqn:Hstop.
    + cbn [fst]. rewrite payoff_check_period, Hp. exact Hper'.
    + pose proof (payoff_check_continue_balance _ Hstop) as Hbig.
      rewrite (payoff_check_continue _ Hstop).
      assert (Hmap : map Entry.balance (Loop.schedule (step s))
                     = (map Entry.balance (Loop.schedule s)
                        ++ [Loop.balance (step s)])%list).
      { rewrite Hsch. unfold push. rewrite map_app. cbn. rewrite Hbal.
        reflexivity. }
      unfold on_track, balances_ordered. rewrite Hp, Hmap.
      repeat split; [lra | exact Hper' | exact Hnext | |].
      * apply non_increasing_push; [exact Hsorted|].
        intros Hne. specialize (Hlast Hne). lra.
      * intros _. rewrite last_last. lra.
Qed.

(** The loop of a valid input, with the bound it keeps to. *)
Lemma valid_input_tracked (p : Params Q) :
  valid_input p = true ->
  exists step bound,
    engine_run p
    = while (loop_cond (maxIterations p)) (fun s => payoff_check (step s))
        (N.to_nat (maxIterations p)) (loop_init p)
    /\ pushes_one_row step
    /\ keeps_track (totalPeriods p) bound step
    /\ bound 0%nat <= 0
    /\ on_track (totalPeriods p) bound (loop_init p).
Proof.
  intros Hvalid.
  pose proof (valid_input_principal p Hvalid) as HP.
  pose proof (valid_input_extra p Hvalid) as Hx.
  unfold engine_run.
  destruct (strict_equals (method p) METHODS.EQUAL_PRINCIPAL);
    [|destruct (strict_equals (method p) METHODS.INTEREST_ONLY)].
  - exists (equal_principal_step (periodicRate p) (basePrincipalPerPeriod p)
              (extraPayment p)),
           (instalments_left (basePrincipalPerPeriod p)).
    split; [reflexivity|].
    split; [apply equal_principal_step_pushes|].
    split; [apply equal_principal_keeps_track;
            [apply basePrincipalPerPeriod_nonneg, HP | exact Hx]|].
    split; [rewrite instalments_left_zero; lra|].
    apply loop_init_on_track; [exact HP | apply instalments_cover_principal].
  - destruct (plannedAnnualPrincipal_covers p HP) as [Ha Hcover].
    exists (interest_only_step (periodicRate p) (paymentsPerYear p)
              (totalPeriods p) (plannedAnnualPrincipal p) (extraPayment p)),
           (fun m => instalments_left (plannedAnnualPrincipal p)
                       (repayments_left (paymentsPerYear p) (totalPeriods p) m)).
    split; [reflexivity|].
    split; [apply interest_only_step_pushes|].
    split; [apply interest_only_keeps_track; assumption|].
    split; [cbn [repayments_left]; rewrite instalments_left_zero; lra|].
    apply loop_init_on_track; assumption.
  - destruct (Qeq_bool (periodicRate p) 0) eqn:Hrate.
    + assert (Hpay : paymentWithExtra p
                     = (basePrincipalPerPeriod p + extraPayment p)%num).
      { unfold paymentWithExtra, basePayment, basePrincipalPerPeriod.
        exact_arith. rewrite Hrate. reflexivity. }
      exists (amortized_step (periodicRate p)
                (basePrincipalPerPeriod p + extraPayment p)),
             (instalments_left (basePrincipalPerPeriod p)).
      split; [unfold amortized_run; rewrite Hpay; reflexivity|].
      split; [apply amortized_step_pushes|].
      split; [apply amortized_zero_rate_keeps_track;
              [exact Hrate | apply basePrincipalPerPeriod_nonneg, HP | exact Hx]|].
      split; [rewrite instalments_left_zero; lra|].
      apply loop_init_on_track; [exact HP | apply instalments_cover_principal].
    + assert (Hpos : 0 < periodicRate p).
      { pose proof (periodicRate_nonneg p) as Hr.
        destruct (Qlt_le_dec 0 (periodicRate p)) as [L | G]; [exact L|].
        exfalso. assert (E : periodicRate p == 0) by lra.
        apply Qeq_bool_iff in E. congruence. }
      destruct (basePayment_annuity p HP Hpos) as [HA Hcover].
      exists (amortized_step (periodicRate p) (basePayment p + extraPayment p)),
             (annuity_left (basePayment p) (periodicRate p)).
      split; [reflexivity|].
      split; [apply amortized_step_pushes|].
      split; [apply amortized_keeps_track; assumption|].
      split; [rewrite annuity_left_zero; lra|].
      apply loop_init_on_track; assumption.
Qed.

(** Without rounding, for every valid input and every method,
    the schedule has at most [totalPeriods] rows: the loan is paid off
    within its term, whatever the extra payment. *)
Theorem paid_off_within_term (p : Params Q) :
  valid_input p = true ->
  (N.of_nat (List.length (schedule (calculateLoan p))) <= totalPeriods p)%N.
Proof.
  intros Hvalid.
  rewrite (proj1 (calculateLoan_run p)), (engine_rows_numbered p).
  destruct (valid_input_tracked p Hvalid)
    as (step & bound & Hrun & Hpush & Hkeep & Hzero & Hinit).
  rewrite Hrun. apply (run_within_term step _ _ bound); assumption.
Qed.

Lemma non_increasing_bounds (l : list Q) (x d : Q) :
  non_increasing l -> In x l -> last l d <= x /\ x <= hd d l.
Proof.
  revert x. induction l as [|a l IH]; intros x Hl Hin; [destruct Hin|].
  destruct l as [|b l].
  - destruct Hin as [<- | []]. cbn. split; apply Qle_refl.
  - cbn [non_increasing] in Hl. destruct Hl as [Hab Hl].
    apply Qle_bool_iff in Hab.
    change (last (a :: b :: l) d) with (last (b :: l) d).
    cbn [hd].
    assert (Hb : last (b :: l) d <= b).
    { destruct (IH b Hl (or_introl eq_refl)) as [H1 _]. exact H1. }
    destruct Hin as [<- | Hin].
    + split; [|apply Qle_refl]. eapply Qle_trans; [exact Hb | exact Hab].
    + destruct (IH x Hl Hin) as [H1 H2]. cbn [hd] in H2.
      split; [exact H1|]. eapply Qle_trans; [exact H2 | exact Hab].
Qed.

(** Without rounding, for the equal-principal method with a
    valid input and no extra payment, the [firstPayment] and
    [lastPayment] of the summary bound every payment of the schedule:
    the first is the largest and the last the smallest. *)
Theorem equal_principal_payment_range (p : Params Q) :
  valid_input p = true ->
  extraPayment p == 0 ->
  exists firstPayment lastPayment extra,
    paymentInfo (summary (calculateEqualPrincipalLoan p))
    = EqualPrincipalInfo firstPayment lastPayment extra
    /\ Forall (fun e => lastPayment <= Entry.payment e <= firstPayment)
         (schedule (calculateEqualPrincipalLoan p)).
Proof.
  intros Hvalid Hx.
  pose proof (equal_principal_payments_ordered p
                (valid_input_principal p Hvalid) Hx) as Hord.
  eexists. eexists. eexists. split; [reflexivity|].
  apply Forall_forall. intros e Hin.
  unfold first_payment, last_payment.
  apply (non_increasing_bounds _ _ _ Hord).
  apply in_map. exact Hin.
Qed.

End Exact.

(** * Further properties *)

(** ** The schedule and the summary, in any arithmetic *)

Section MoreStructure.

Context {num : Type} `{Number num}.
Local Open Scope num_scope.

Lemma engine_periods (p : Params num) :
  map Entry.period (Loop.schedule (fst (engine_run p)))
  = map N.of_nat (seq 1 (List.length (Loop.schedule (fst (engine_run p))))).
Proof.
  destruct (engine_step_pushes p) as (step & Hrun & Hstep).
  rewrite Hrun.
  apply (while_invariant _ _
           (fun s => map Entry.period (Loop.schedule s)
                     = map N.of_nat (seq 1 (List.length (Loop.schedule s)))
                     /\ rows_numbered s)); [|split; reflexivity].
  intros s [Hs Hrows] _. unfold rows_numbered in *.
  rewrite payoff_check_schedule, payoff_check_period.
  destruct (Hstep s) as (e & Hsch & Hp & He & _).
  rewrite Hsch, Hp. unfold push.
  rewrite length_app, map_app, seq_app, map_app, <- Hs.
  cbn [List.length seq map Nat.add]. split; [|lia].
  f_equal. f_equal. rewrite He. lia.
Qed.

Lemma engine_period_capped (p : Params num) :
  (Loop.period (fst (engine_run p)) <= maxIterations p)%N.
Proof.
  destruct (engine_step_pushes p) as (step & Hrun & Hstep).
  rewrite Hrun.
  apply (while_invariant _ _ (fun s => (Loop.period s <= maxIterations p)%N)).
  - intros s _ Hc. rewrite payoff_check_period.
    destruct (Hstep s) as (e & _ & Hp & _). rewrite Hp.
    unfold loop_cond in Hc. apply andb_prop in Hc. destruct Hc as [_ Hc].
    apply N.ltb_lt in Hc. lia.
  - cbn. lia.
Qed.

(** X1.  In any arithmetic, for every input and method, the rows of the
    schedule are numbered 1, 2, 3, ... in order, without gap or
    repetition. *)
Theorem schedule_periods_consecutive (p : Params num) :
  map Entry.period (schedule (calculateLoan p))
  = map N.of_nat (seq 1 (List.length (schedule (calculateLoan p)))).
Proof.
  rewrite (proj1 (calculateLoan_run p)). apply engine_periods.
Qed.

(** X2.  In any arithmetic, for every input and method, the schedule
    never has more than [2 * totalPeriods + 10] rows. *)
Theorem schedule_length_capped (p : Params num) :
  (N.of_nat (List.length (schedule (calculateLoan p))) <= totalPeriods p * 2 + 10)%N.
Proof.
  rewrite (proj1 (calculateLoan_run p)).
  rewrite (engine_rows_numbered p). apply engine_period_capped.
Qed.

(** X3.  In any arithmetic, the payoff label of the summary is
    [formatPayoffTime] of the number of rows of the schedule. *)
Theorem payoffLabel_counts_rows (p : Params num) :
  payoffLabel (summary (calculateLoan p))
  = formatPayoffTime (N.of_nat (List.length (schedule (calculateLoan p))))
      (paymentsPerYear p).
Proof.
  destruct (calculateLoan_run p) as (Hsch & _ & _ & Hlabel).
  rewrite Hlabel, Hsch, (engine_rows_numbered p). reflexivity.
Qed.

(** X4.  In any arithmetic, hence bit for bit in binary64, the
    [totalInterest] and [totalPaid] of the summary are the sums of the
    interest and payment columns of the schedule, added up from 0 in
    row order. *)
Theorem totals_are_running_sums (p : Params num) :
  totalInterest (summary (calculateLoan p))
  = sum_of Entry.interest (schedule (calculateLoan p))
  /\ totalPaid (summary (calculateLoan p))
     = sum_of Entry.payment (schedule (calculateLoan p)).
Proof.
  destruct (calculateLoan_run p) as (Hsch & Hpaid & Hint & _).
  rewrite Hsch, Hpaid, Hint. apply engine_running_sums.
Qed.

Lemma equal_principal_rows_add (p : Params num) :
  Forall (fun e => Entry.payment e = Entry.principal e + Entry.interest e)
    (Loop.schedule (fst (equal_principal_run p))).
Proof.
  unfold equal_principal_run.
  apply (while_invariant _ _
           (fun s => Forall (fun e => Entry.payment e
                                      = Entry.principal e + Entry.interest e)
                       (Loop.schedule s))); [|constructor].
  intros s Hs _. unfold equal_principal_body.
  rewrite payoff_check_schedule.
  unfold equal_principal_step; cbn [Loop.schedule]. unfold push.
  apply Forall_app. split; [exact Hs|].
  constructor; [reflexivity|constructor].
Qed.

Lemma interest_only_rows_add (p : Params num) :
  Forall (fun e => Entry.payment e = Entry.interest e + Entry.principal e)
    (Loop.schedule (fst (interest_only_run p))).
Proof.
  unfold interest_only_run.
  apply (while_invariant _ _
           (fun s => Forall (fun e => Entry.payment e
                                      = Entry.interest e + Entry.principal e)
                       (Loop.schedule s))); [|constructor].
  intros s Hs _. unfold interest_only_body.
  rewrite payoff_check_schedule.
  unfold interest_only_step; cbn [Loop.schedule]. unfold push.
  apply Forall_app. split; [exact Hs|].
  constructor; [reflexivity|constructor].
Qed.

(** X5.  In any arithmetic, every row of the equal-principal schedule
    has as payment the sum of its principal portion and its interest,
    and every row of the interest-only schedule the sum of its interest
    and its principal portion, as one addition of the arithmetic. *)
Theorem payment_is_principal_plus_interest (p : Params num) :
  Forall (fun e => Entry.payment e = Entry.principal e + Entry.interest e)
    (schedule (calculateEqualPrincipalLoan p))
  /\ Forall (fun e => Entry.payment e = Entry.interest e + Entry.principal e)
       (schedule (calculateInterestOnlyLoan p)).
Proof.
  split; [apply equal_principal_rows_add | apply interest_only_rows_add].
Qed.

(** With a periodic rate of 0 no interest is ever charged. *)
Lemma engine_zero_rate (p : Params num) :
  (int 0 =? int 0) = true ->
  int 0 + int 0 = int 0 ->
  (annualRate p >? int 0) = false ->
  Loop.totalInterest (fst (engine_run p)) = int 0
  /\ Forall (fun e => Entry.interest e = int 0)
       (Loop.schedule (fst (engine_run p))).
Proof.
  intros Hz Ha Hrate.
  assert (Hr : periodicRate p = int 0) by (unfold periodicRate; rewrite Hrate; reflexivity).
  assert (Hi : forall b, period_interest (int 0) b = int 0)
    by (intros b; unfold period_interest; rewrite Hz; reflexivity).
  destruct (engine_run_eq p) as (step & Hrun & Hstep).
  rewrite Hrun.
  apply (while_invariant _ _
           (fun s => Loop.totalInterest s = int 0
                     /\ Forall (fun e => Entry.interest e = int 0)
                          (Loop.schedule s))); [|split; [reflexivity|constructor]].
  intros s [Ht Hs] _.
  rewrite payoff_check_schedule, payoff_check_totalInterest.
  rewrite Hr in Hstep.
  destruct Hstep as [E | [E | E]]; subst step;
    [unfold equal_principal_step | unfold interest_only_step | unfold amortized_step];
    cbn [Loop.schedule Loop.totalInterest]; rewrite Hi, Ht, Ha;
    (split; [reflexivity|]); unfold push;
    (apply Forall_app; split; [exact Hs|]);
    (constructor; [reflexivity|constructor]).
Qed.

End MoreStructure.

(** ** Binary64 *)

Section FloatEngine.

Local Open Scope num_scope.

(** X6.  In binary64, for every input whatsoever and every method, no
    row of the schedule shows a remaining balance below 0. *)
Theorem balance_never_negative (p : Params float) :
  Forall (fun e => (Entry.balance e <? int 0) = false)
    (schedule (calculateLoan p)).
Proof.
  rewrite (proj1 (calculateLoan_run p)).
  pose proof (engine_balances_max p) as Hall.
  rewrite Forall_forall in *. intros e Hin.
  destruct (Hall e Hin) as [v ->]. apply max_zero_not_negative.
Qed.

(** X7.  In binary64, when the annual rate is not above 0 (zero,
    negative or NaN), every row of the schedule has interest 0 and the
    total interest of the summary is 0, for every method. *)
Theorem zero_rate_no_interest (p : Params float) :
  (annualRate p >? int 0) = false ->
  totalInterest (summary (calculateLoan p)) = int 0
  /\ Forall (fun e => Entry.interest e = int 0) (schedule (calculateLoan p)).
Proof.
  intros Hrate.
  destruct (calculateLoan_run p) as (Hsch & _ & Hint & _).
  rewrite Hsch, Hint.
  apply (engine_zero_rate p); [reflexivity | reflexivity | exact Hrate].
Qed.

(** 1000 at 0% over one year, monthly, interest only. *)
Lemma zero_rate_no_interest_witness :
  (annualRate Samples.zero_rate >? int 0) = false
  /\ totalInterest (summary (calculateLoan Samples.zero_rate)) = int 0
  /\ Forall (fun e => Entry.interest e = int 0)
       (schedule (calculateLoan Samples.zero_rate)).
Proof.
  assert (Hrate : (annualRate Samples.zero_rate >? int 0) = false)
    by (vm_compute; reflexivity).
  split; [exact Hrate|].
  exact (zero_rate_no_interest Samples.zero_rate Hrate).
Defined.

End FloatEngine.

(** ** The payoff-duration formatter, continued *)

Lemma Number_toString_digit (n : N) : starts_with_digit (Number_toString n) = true.
Proof.
  unfold Number_toString, NilZero.string_of_uint.
  destruct (N.to_uint n); reflexivity.
Qed.

Lemma starts_with_digit_append (s t : string) :
  starts_with_digit s = true -> starts_with_digit (s ++ t) = true.
Proof. destruct s; [discriminate|]. intros E. exact E. Qed.

Lemma lookup_label_other (ppy : positive) :
  (ppy =? 12)%positive = false -> (ppy =? 26)%positive = false ->
  (ppy =? 52)%positive = false ->
  or_default (lookup_label frequencyLabels ppy) "期" = "期".
Proof.
  intros H12 H26 H52. unfold frequencyLabels. cbn [lookup_label].
  rewrite (Pos.eqb_sym 12 ppy), (Pos.eqb_sym 26 ppy), (Pos.eqb_sym 52 ppy).
  rewrite H12, H26, H52. reflexivity.
Qed.

Lemma formatPayoffTime_remainder (ppy : positive) (years remainder : N) :
  (0 < remainder)%N -> (remainder < Npos ppy)%N ->
  formatPayoffTime (years * Npos ppy + remainder) ppy
  = (if (years =? 0)%N then EmptyString else Number_toString years ++ "年")
    ++ Number_toString remainder ++ remainder_unit ppy.
Proof.
  intros Hpos Hlt. unfold formatPayoffTime.
  rewrite N.div_add_l by discriminate.
  rewrite (N.div_small remainder) by exact Hlt.
  rewrite N.add_0_r.
  rewrite N.add_comm, N.Div0.mod_add, (N.mod_small remainder) by exact Hlt.
  replace (remainder =? 0)%N with false by (symmetry; apply N.eqb_neq; lia).
  replace (0 <? remainder)%N with true by (symmetry; apply N.ltb_lt; lia).
  rewrite andb_false_r. unfold remainder_unit.
  destruct (years =? 0)%N eqn:Ey.
  - apply N.eqb_eq in Ey. subst years. cbn [N.ltb N.compare].
    destruct (ppy =? 12)%positive eqn:E12; [reflexivity|].
    destruct (ppy =? 26)%positive eqn:E26; [reflexivity|].
    destruct (ppy =? 52)%positive eqn:E52; [reflexivity|].
    rewrite (lookup_label_other ppy E12 E26 E52). reflexivity.
  - apply N.eqb_neq in Ey.
    replace (0 <? years)%N with true by (symmetry; apply N.ltb_lt; lia).
    destruct (ppy =? 12)%positive eqn:E12;
      [|destruct (ppy =? 26)%positive eqn:E26;
        [|destruct (ppy =? 52)%positive eqn:E52;
          [|rewrite (lookup_label_other ppy E12 E26 E52)]]];
      reflexivity.
Qed.

Lemma formatPayoffTime_digit (periods : N) (ppy : positive) :
  (1 <= periods)%N -> starts_with_digit (formatPayoffTime periods ppy) = true.
Proof.
  intros Hp.
  pose proof (N.div_mod periods (Npos ppy) ltac:(discriminate)) as Hdm.
  pose proof (N.mod_lt periods (Npos ppy) ltac:(discriminate)) as Hlt.
  set (y := (periods / Npos ppy)%N) in *.
  set (m := (periods mod Npos ppy)%N) in *.
  clearbody y m. rewrite N.mul_comm in Hdm. subst periods.
  destruct (N.eq_dec m 0) as [E | E].
  - subst m. rewrite N.add_0_r in *.
    assert (Hy : (1 <= y)%N) by (destruct y; lia).
    unfold formatPayoffTime.
    rewrite N.div_mul by discriminate. rewrite N.Div0.mod_mul.
    replace (y =? 0)%N with false by (symmetry; apply N.eqb_neq; lia).
    replace (0 <? y)%N with true by (symmetry; apply N.ltb_lt; lia).
    cbn [andb N.ltb N.compare]. cbv zeta. unfold push. cbn [app].
    rewrite join_parts_one.
    apply starts_with_digit_append, Number_toString_digit.
  - rewrite formatPayoffTime_remainder by lia.
    destruct (y =? 0)%N.
    + cbn [append]. apply starts_with_digit_append, Number_toString_digit.
    + apply starts_with_digit_append, starts_with_digit_append, Number_toString_digit.
Qed.

(** X11.  A period count [years * paymentsPerYear + remainder] with
    [0 < remainder < paymentsPerYear] is written as the years part, left
    out when [years] is 0, followed by the remainder and its unit: 个月
    at 12 payments per year, 个两周期 at 26, 周 at 52, and 期 at any
    other frequency (the labels of [frequencyLabels] are never
    written). *)
Theorem formatPayoffTime_years_and_remainder (paymentsPerYear : positive)
  (years remainder : N) :
  (0 < remainder)%N -> (remainder < Npos paymentsPerYear)%N ->
  formatPayoffTime (years * Npos paymentsPerYear + remainder) paymentsPerYear
  = (if (years =? 0)%N then EmptyString else Number_toString years ++ "年")
    ++ Number_toString remainder ++ remainder_unit paymentsPerYear.
Proof. apply formatPayoffTime_remainder. Qed.

(** 15 months, 3 fortnights, and 9 periods at 4 payments per year. *)
Lemma formatPayoffTime_years_and_remainder_witness :
  ((0 < 3)%N /\ (3 < 12)%N /\ formatPayoffTime 15 12 = "1年3个月")
  /\ ((0 < 3)%N /\ (3 < 26)%N /\ formatPayoffTime 3 26 = "3个两周期")
  /\ ((0 < 1)%N /\ (1 < 4)%N /\ formatPayoffTime 9 4 = "2年1期").
Proof.
  split; [|split].
  - split; [lia|]. split; [lia|].
    exact (formatPayoffTime_years_and_remainder 12 1 3 ltac:(lia) ltac:(lia)).
  - split; [lia|]. split; [lia|].
    exact (formatPayoffTime_years_and_remainder 26 0 3 ltac:(lia) ltac:(lia)).
  - split; [lia|]. split; [lia|].
    exact (formatPayoffTime_years_and_remainder 4 2 1 ltac:(lia) ltac:(lia)).
Defined.

(** X12.  For a period count of at least 1 and any frequency the payoff
    label begins with a digit: it is never empty and never the label
    of the empty duration. *)
Theorem formatPayoffTime_positive_periods (periods : N) (paymentsPerYear : positive) :
  (1 <= periods)%N ->
  starts_with_digit (formatPayoffTime periods paymentsPerYear) = true
  /\ formatPayoffTime periods paymentsPerYear <> EmptyString
  /\ formatPayoffTime periods paymentsPerYear <> "不足一个周期".
Proof.
  intros Hp. pose proof (formatPayoffTime_digit periods paymentsPerYear Hp) as Hd.
  split; [exact Hd|].
  split; intros E; rewrite E in Hd; discriminate Hd.
Qed.

Lemma formatPayoffTime_positive_periods_witness :
  (1 <= 7)%N
  /\ starts_with_digit (formatPayoffTime 7 52) = true
  /\ formatPayoffTime 7 52 <> EmptyString
  /\ formatPayoffTime 7 52 <> "不足一个周期".
Proof.
  split; [lia|]. exact (formatPayoffTime_positive_periods 7 52 ltac:(lia)).
Defined.

Section LabelOfEngine.

Context {num : Type} `{Number num}.
Local Open Scope num_scope.

(** X13.  In any arithmetic, when [principal > 0] holds and the term is
    a count, the schedule has at least one row and the payoff label of
    the summary is not the label of the empty duration. *)
Theorem positive_principal_label (p : Params num) :
  (principal p >? int 0) = true ->
  term_is_count p = true ->
  schedule (calculateLoan p) <> []
  /\ payoffLabel (summary (calculateLoan p)) <> "不足一个周期".
Proof.
  intros HP _.
  destruct (calculateLoan_run p) as (Hsch & _ & _ & Hlabel).
  pose proof (engine_schedule_nonempty p HP) as Hne.
  pose proof (engine_rows_numbered p) as Hrows. unfold rows_numbered in Hrows.
  rewrite Hsch, Hlabel. split; [exact Hne|].
  assert (Hp : (1 <= Loop.period (fst (engine_run p)))%N).
  { rewrite <- Hrows. destruct (Loop.schedule (fst (engine_run p))).
    - exfalso. apply Hne. reflexivity.
    - cbn [List.length]. lia. }
  pose proof (formatPayoffTime_digit _ (paymentsPerYear p) Hp) as Hd.
  intros E. rewrite E in Hd. discriminate Hd.
Qed.

End LabelOfEngine.

Lemma positive_principal_label_witness :
  let p := Inputs.one_year METHODS.AMORTIZED in
  (principal p >? int 0)%num = true
  /\ term_is_count p = true
  /\ schedule (calculateLoan p) <> []
  /\ payoffLabel (summary (calculateLoan p)) <> "不足一个周期".
Proof.
  intros p.
  assert (HP : (principal p >? int 0)%num = true) by (vm_compute; reflexivity).
  assert (Hterm : term_is_count p = true) by (vm_compute; reflexivity).
  split; [exact HP|]. split; [exact Hterm|].
  exact (positive_principal_label p HP Hterm).
Defined.

(** ** Strings *)

Section StripFacts.

Variable w1 : ascii -> bool.
Variable w2 : ascii -> ascii -> bool.
Variable w3 : ascii -> ascii -> ascii -> bool.

(** One step of [strip]: nothing is recognised, or a recognised
    character is dropped. *)
Lemma strip_step (s : list ascii) :
  strip w1 w2 w3 s = s
  \/ exists pre r, s = (pre ++ r)%list /\ pre <> []
                   /\ strip w1 w2 w3 s = strip w1 w2 w3 r
                   /\ forall t, strip w1 w2 w3 (pre ++ r ++ t)
                                = strip w1 w2 w3 (r ++ t).
Proof.
  destruct s as [|c1 r1]; [left; reflexivity|].
  cbn [strip]. destruct (w1 c1) eqn:E1.
  { right. exists [c1], r1. repeat split; try discriminate.
    intros t. cbn [app strip]. rewrite E1. reflexivity. }
  destruct r1 as [|c2 r2]; [left; reflexivity|].
  destruct (w2 c1 c2) eqn:E2.
  { right. exists [c1; c2], r2. repeat split; try discriminate.
    intros t. cbn [app strip]. rewrite E1, E2. reflexivity. }
  destruct r2 as [|c3 r3]; [left; reflexivity|].
  destruct (w3 c1 c2 c3) eqn:E3; [|left; reflexivity].
  right. exists [c1; c2; c3], r3. repeat split; try discriminate.
  intros t. cbn [app strip]. rewrite E1, E2, E3. reflexivity.
Qed.

Lemma strip_by_length (P : list ascii -> Prop) :
  (forall s, (forall r, (List.length r < List.length s)%nat -> P r) -> P s) ->
  forall s, P s.
Proof.
  intros Hind s.
  assert (Hall : forall n r, (List.length r < n)%nat -> P r).
  { induction n as [|n IH]; intros r Hr; [lia|].
    apply Hind. intros r' Hr'. apply IH. lia. }
  apply (Hall (S (List.length s))). lia.
Qed.

Lemma strip_idempotent (s : list ascii) :
  strip w1 w2 w3 (strip w1 w2 w3 s) = strip w1 w2 w3 s.
Proof.
  induction s as [s IH] using strip_by_length.
  destruct (strip_step s) as [E | (pre & r & Hs & Hpre & E & _)].
  - rewrite E. exact E.
  - rewrite E. apply IH. subst s. rewrite length_app.
    destruct pre; [contradiction|]. cbn. lia.
Qed.

(** What [strip] returns is the end of its argument. *)
Lemma strip_suffix (s : list ascii) :
  exists pre, s = (pre ++ strip w1 w2 w3 s)%list.
Proof.
  induction s as [s IH] using strip_by_length.
  destruct (strip_step s) as [E | (pre & r & Hs & Hpre & E & _)].
  - exists []. rewrite E. reflexivity.
  - destruct (IH r) as [pre' Hr].
    { subst s. rewrite length_app. destruct pre; [contradiction|]. cbn. lia. }
    exists (pre ++ pre')%list. rewrite E, <- app_assoc, <- Hr. exact Hs.
Qed.

(** A list on which [strip] finds nothing to drop has no beginning on
    which it does. *)
Lemma strip_prefix_fixed (s t : list ascii) :
  strip w1 w2 w3 (s ++ t) = (s ++ t)%list -> strip w1 w2 w3 s = s.
Proof.
  intros Hfix.
  destruct (strip_step s) as [E | (pre & r & Hs & Hpre & _ & E)]; [exact E|].
  exfalso. specialize (E t). subst s.
  rewrite <- !app_assoc in Hfix. rewrite E in Hfix.
  destruct (strip_suffix (r ++ t)) as [pre' Hsuf].
  rewrite Hfix in Hsuf.
  apply (f_equal (@List.length ascii)) in Hsuf.
  rewrite !length_app in Hsuf.
  destruct pre; [contradiction|]. cbn in Hsuf. lia.
Qed.

End StripFacts.

Lemma trim_end_prefix (s : list ascii) :
  exists post, s = (trim_end s ++ post)%list.
Proof.
  unfold trim_end.
  destruct (strip_suffix Whitespace.one
              (fun c2 c1 => Whitespace.two c1 c2)
              (fun c3 c2 c1 => Whitespace.three c1 c2 c3) (rev s)) as [pre Hs].
  exists (rev pre).
  rewrite <- rev_app_distr, <- Hs, rev_involutive. reflexivity.
Qed.

Lemma trim_end_idempotent (s : list ascii) : trim_end (trim_end s) = trim_end s.
Proof.
  unfold trim_end. rewrite rev_involutive, strip_idempotent. reflexivity.
Qed.

Lemma trim_idempotent (s : string) : trim (trim s) = trim s.
Proof.
  unfold trim. rewrite list_ascii_of_string_of_list_ascii.
  set (a := trim_start (list_ascii_of_string s)).
  assert (Ha : trim_start a = a) by apply strip_idempotent.
  destruct (trim_end_prefix a) as [post Hpost].
  assert (Hb : trim_start (trim_end a) = trim_end a).
  { apply (strip_prefix_fixed _ _ _ _ post). rewrite <- Hpost. exact Ha. }
  rewrite Hb, trim_end_idempotent. reflexivity.
Qed.

(** Spaces, a tab and a line feed, an ideographic space; inner white
    space stays. *)
Example trim_examples :
  trim "  amortized  " = "amortized"
  /\ trim (String "009"%char "equal_principal" ++ String "010"%char EmptyString)
     = "equal_principal"
  /\ trim " 　interest_only " = "interest_only"
  /\ trim "a b" = "a b"
  /\ trim "   " = EmptyString.
Proof. repeat split; vm_compute; reflexivity. Qed.

Lemma free_of_append (c : ascii) (s t : string) :
  free_of c (s ++ t) = (free_of c s && free_of c t)%bool.
Proof.
  induction s as [|d s IH]; [reflexivity|].
  cbn [append free_of]. rewrite IH, andb_assoc. reflexivity.
Qed.

Lemma split_on_free (c : ascii) (s : string) :
  free_of c s = true -> split_on c s = [s].
Proof.
  induction s as [|d s IH]; [reflexivity|].
  cbn [free_of split_on]. intros E. apply andb_prop in E. destruct E as [Ed Es].
  apply negb_true_iff in Ed. rewrite Ed, (IH Es). reflexivity.
Qed.

Lemma split_on_piece (c : ascii) (s t : string) :
  free_of c s = true ->
  split_on c (s ++ String c t) = s :: split_on c t.
Proof.
  induction s as [|d s IH]; intros E.
  - cbn [append split_on]. rewrite Ascii.eqb_refl. reflexivity.
  - cbn [free_of] in E. apply andb_prop in E. destruct E as [Ed Es].
    apply negb_true_iff in Ed.
    cbn [append split_on]. rewrite Ed, (IH Es). reflexivity.
Qed.

(** [split] undoes [join] when no part holds the separator. *)
Lemma split_on_join (c : ascii) (parts : list string) :
  parts <> [] ->
  forallb (free_of c) parts = true ->
  split_on c (join (String c EmptyString) parts) = parts.
Proof.
  unfold join. induction parts as [|s rest IH]; intros Hne Hfree; [contradiction|].
  cbn [forallb] in Hfree. apply andb_prop in Hfree. destruct Hfree as [Hs Hrest].
  destruct rest as [|t rest'].
  - cbn [String.concat]. apply split_on_free, Hs.
  - change (String.concat (String c EmptyString) (s :: t :: rest'))
      with (s ++ String c (String.concat (String c EmptyString) (t :: rest'))).
    rewrite (split_on_piece c _ _ Hs), IH; [reflexivity | discriminate | exact Hrest].
Qed.

Lemma free_of_join (c d : ascii) (parts : list string) :
  Ascii.eqb d c = false ->
  forallb (free_of c) parts = true ->
  free_of c (join (String d EmptyString) parts) = true.
Proof.
  intros Hd. unfold join. induction parts as [|s rest IH]; intros Hfree; [reflexivity|].
  cbn [forallb] in Hfree. apply andb_prop in Hfree. destruct Hfree as [Hs Hrest].
  destruct rest as [|t rest'].
  - exact Hs.
  - change (String.concat (String d EmptyString) (s :: t :: rest'))
      with (s ++ String d (String.concat (String d EmptyString) (t :: rest'))).
    rewrite free_of_append, Hs. cbn [free_of andb]. rewrite Hd. cbn [negb andb].
    apply IH, Hrest.
Qed.

Lemma string_of_uint_free (c : ascii) (d : Decimal.uint) :
  is_digit c = false -> free_of c (NilEmpty.string_of_uint d) = true.
Proof.
  intros Hc.
  assert (Hne : forall k : ascii, is_digit k = true -> Ascii.eqb k c = false).
  { intros k Hk. destruct (Ascii.eqb_spec k c) as [-> | _]; [congruence|reflexivity]. }
  induction d as [|d IH|d IH|d IH|d IH|d IH|d IH|d IH|d IH|d IH|d IH];
    cbn [NilEmpty.string_of_uint free_of]; [reflexivity|..];
    rewrite IH, Hne by reflexivity; reflexivity.
Qed.

Lemma Number_toString_free (c : ascii) (n : N) :
  is_digit c = false -> free_of c (Number_toString n) = true.
Proof.
  intros Hc. unfold Number_toString, NilZero.string_of_uint.
  pose proof (string_of_uint_free c (N.to_uint n) Hc) as Hd.
  destruct (N.to_uint n); try exact Hd.
  cbn [free_of]. destruct (Ascii.eqb_spec "0" c) as [<- | _]; [discriminate Hc|reflexivity].
Qed.

(** ** Validation *)

Section ValidationFacts.

Context {num : Type} `{Number num}.
Local Open Scope num_scope.

(** [validateInputs] returns no error exactly when each of its five
    tests passes. *)
Lemma validateInputs_nil (i : Fields.t num) :
  validateInputs i = []
  <-> (negb (isFinite (Fields.principal i)) || (Fields.principal i <=? int 0))%bool = false
      /\ (negb (isFinite (Fields.rate i)) || (Fields.rate i <? int 0)
          || (Fields.rate i >? int 100))%bool = false
      /\ (negb (isFinite (Fields.years i)) || (Fields.years i <=? int 0))%bool = false
      /\ (negb (isFinite (Fields.extra i)) || (Fields.extra i <? int 0))%bool = false
      /\ includes METHODS_values
           match Fields.method i with
           | MethodString s => trim s
           | MethodOther => EmptyString
           end = true.
Proof.
  unfold validateInputs.
  destruct (negb (isFinite (Fields.principal i)) || (Fields.principal i <=? int 0))%bool;
    destruct (negb (isFinite (Fields.rate i)) || (Fields.rate i <? int 0)
              || (Fields.rate i >? int 100))%bool;
    destruct (negb (isFinite (Fields.years i)) || (Fields.years i <=? int 0))%bool;
    destruct (negb (isFinite (Fields.extra i)) || (Fields.extra i <? int 0))%bool;
    destruct (includes METHODS_values _);
    cbn [negb push app]; split;
    try (intros E; discriminate E);
    try (intros (E1 & E2 & E3 & E4 & E5); discriminate);
    auto.
Qed.

Lemma includes_METHODS (m : string) :
  includes METHODS_values m = true ->
  m = METHODS.AMORTIZED \/ m = METHODS.EQUAL_PRINCIPAL \/ m = METHODS.INTEREST_ONLY.
Proof.
  unfold includes, METHODS_values. cbn [existsb].
  destruct (String.eqb_spec m METHODS.AMORTIZED) as [E | _]; [auto|].
  destruct (String.eqb_spec m METHODS.EQUAL_PRINCIPAL) as [E | _]; [auto|].
  destruct (String.eqb_spec m METHODS.INTEREST_ONLY) as [E | _]; [auto|].
  discriminate.
Qed.

Lemma submitted_method_trimmed (raw : MethodValue) :
  trim (submitted_method raw) = submitted_method raw.
Proof.
  unfold submitted_method. destruct raw as [s|]; [|reflexivity].
  destruct (negb (String.eqb (trim s) EmptyString)); [|reflexivity].
  apply trim_idempotent.
Qed.

Lemma validateInputs_keys (i : Fields.t num) :
  NoDup (map fst (validateInputs i)).
Proof.
  unfold validateInputs.
  destruct (negb (isFinite (Fields.principal i)) || (Fields.principal i <=? int 0))%bool;
    destruct (negb (isFinite (Fields.rate i)) || (Fields.rate i <? int 0)
              || (Fields.rate i >? int 100))%bool;
    destruct (negb (isFinite (Fields.years i)) || (Fields.years i <=? int 0))%bool;
    destruct (negb (isFinite (Fields.extra i)) || (Fields.extra i <? int 0))%bool;
    destruct (negb (includes METHODS_values _));
    cbn [push app map fst];
    repeat (constructor; [cbn [In]; intuition discriminate|]); constructor.
Qed.

(** X16.  In any arithmetic, when the validation of a submission
    reports no error, the method the handler passes to [calculateLoan]
    is one of the three strings of [METHODS], and [calculateLoan] runs
    the algorithm of that name: from the form, the amortized algorithm
    is never run for an unknown method. *)
Theorem accepted_method_is_known (f : FormData.t num) :
  validateInputs (submitted_fields f) = [] ->
  exists m,
    method (submitted_params f) = MethodString m
    /\ (m = METHODS.AMORTIZED \/ m = METHODS.EQUAL_PRINCIPAL
        \/ m = METHODS.INTEREST_ONLY)
    /\ (m = METHODS.AMORTIZED ->
        calculateLoan (submitted_params f)
        = calculateAmortizedLoan (submitted_params f))
    /\ (m = METHODS.EQUAL_PRINCIPAL ->
        calculateLoan (submitted_params f)
        = calculateEqualPrincipalLoan (submitted_params f))
    /\ (m = METHODS.INTEREST_ONLY ->
        calculateLoan (submitted_params f)
        = calculateInterestOnlyLoan (submitted_params f)).
Proof.
  intros Hok. apply validateInputs_nil in Hok.
  destruct Hok as (_ & _ & _ & _ & Hm).
  cbn [submitted_fields Fields.method] in Hm.
  rewrite submitted_method_trimmed in Hm.
  exists (submitted_method (FormData.method f)).
  split; [reflexivity|]. split; [apply includes_METHODS, Hm|].
  unfold calculateLoan. cbn [submitted_params method strict_equals].
  repeat split; intros ->; reflexivity.
Qed.

End ValidationFacts.

(** The method field padded with spaces. *)
Lemma accepted_method_is_known_witness :
  let f := Samples.one_year_form " equal_principal " in
  validateInputs (submitted_fields f) = []
  /\ exists m,
       method (submitted_params f) = MethodString m
       /\ (m = METHODS.AMORTIZED \/ m = METHODS.EQUAL_PRINCIPAL
           \/ m = METHODS.INTEREST_ONLY)
       /\ (m = METHODS.AMORTIZED ->
           calculateLoan (submitted_params f)
           = calculateAmortizedLoan (submitted_params f))
       /\ (m = METHODS.EQUAL_PRINCIPAL ->
           calculateLoan (submitted_params f)
           = calculateEqualPrincipalLoan (submitted_params f))
       /\ (m = METHODS.INTEREST_ONLY ->
           calculateLoan (submitted_params f)
           = calculateInterestOnlyLoan (submitted_params f)).
Proof.
  intros f.
  assert (Hok : validateInputs (submitted_fields f) = [])
    by (vm_compute; reflexivity).
  split; [exact Hok|].
  exact (accepted_method_is_known f Hok).
Defined.

Section FloatValidation.

Local Open Scope num_scope.

Lemma zero_not_nan : is_nan (int 0 : float) = false.
Proof. vm_compute. reflexivity. Qed.

Lemma hundred_not_nan : is_nan (int 100 : float) = false.
Proof. vm_compute. reflexivity. Qed.

Lemma positive_test (x : float) :
  (negb (isFinite x) || (x <=? int 0))%bool = false
  <-> (isFinite x && (x >? int 0))%bool = true.
Proof.
  cbn [isFinite nleb nltb Binary64.Number_float].
  destruct (is_finite x) eqn:F; cbn [negb orb andb]; [|split; discriminate].
  rewrite (leb_negb_ltb x (int 0) (is_finite_not_nan x F) zero_not_nan).
  cbn [nltb Binary64.Number_float].
  destruct (PrimFloat.ltb (int 0) x); split; (reflexivity || discriminate).
Qed.

Lemma non_negative_test (x : float) :
  (negb (isFinite x) || (x <? int 0))%bool = false
  <-> (isFinite x && (int 0 <=? x))%bool = true.
Proof.
  cbn [isFinite nleb nltb Binary64.Number_float].
  destruct (is_finite x) eqn:F; cbn [negb orb andb]; [|split; discriminate].
  rewrite (leb_negb_ltb (int 0) x zero_not_nan (is_finite_not_nan x F)).
  destruct (PrimFloat.ltb x (int 0)); split; (reflexivity || discriminate).
Qed.

Lemma rate_test (x : float) :
  (negb (isFinite x) || (x <? int 0) || (x >? int 100))%bool = false
  <-> (isFinite x && (int 0 <=? x) && (x <=? int 100))%bool = true.
Proof.
  cbn [isFinite nleb nltb Binary64.Number_float].
  destruct (is_finite x) eqn:F; cbn [negb orb andb]; [|split; discriminate].
  rewrite (leb_negb_ltb (int 0) x zero_not_nan (is_finite_not_nan x F)).
  rewrite (leb_negb_ltb x (int 100) (is_finite_not_nan x F) hundred_not_nan).
  destruct (PrimFloat.ltb x (int 0)), (PrimFloat.ltb (int 100) x);
    split; (reflexivity || discriminate).
Qed.

Lemma valid_input_tests (p : Params float) :
  valid_input p = true
  <-> (isFinite (principal p) && (principal p >? int 0))%bool = true
      /\ (isFinite (annualRate p) && (int 0 <=? annualRate p)
          && (annualRate p <=? int 100))%bool = true
      /\ (isFinite (years p) && (years p >? int 0))%bool = true
      /\ (isFinite (extraPayment p) && (int 0 <=? extraPayment p))%bool = true
      /\ ((paymentsPerYear p =? 12) || (paymentsPerYear p =? 26)
          || (paymentsPerYear p =? 52))%positive%bool = true.
Proof.
  unfold valid_input. rewrite !andb_true_iff. tauto.
Qed.

(** X14.  In binary64, for a submission whose frequency is 12, 26 or 52,
    [validateInputs] reports no error exactly when the parameters the
    handler passes to [calculateLoan] satisfy the input contract and the
    method is one of the three of [METHODS].  The frequency itself is
    never validated. *)
Theorem validation_matches_contract (f : FormData.t float) :
  FormData.frequency f = 12%positive \/ FormData.frequency f = 26%positive
  \/ FormData.frequency f = 52%positive ->
  (validateInputs (submitted_fields f) = []
   <-> valid_input (submitted_params f) = true
       /\ includes METHODS_values (submitted_method (FormData.method f)) = true).
Proof.
  intros Hfreq.
  rewrite validateInputs_nil, valid_input_tests.
  cbn [submitted_fields submitted_params Fields.principal Fields.rate
       Fields.years Fields.extra Fields.method principal annualRate years
       extraPayment paymentsPerYear].
  rewrite submitted_method_trimmed.
  rewrite positive_test, rate_test, positive_test, non_negative_test.
  assert (Hf : ((FormData.frequency f =? 12) || (FormData.frequency f =? 26)
                || (FormData.frequency f =? 52))%positive%bool = true).
  { destruct Hfreq as [-> | [-> | ->]]; reflexivity. }
  rewrite Hf. tauto.
Qed.

(** 100000 at 5% over one year, monthly, amortized. *)
Lemma validation_matches_contract_witness :
  let f := Samples.one_year_form METHODS.AMORTIZED in
  (FormData.frequency f = 12%positive \/ FormData.frequency f = 26%positive
   \/ FormData.frequency f = 52%positive)
  /\ (validateInputs (submitted_fields f) = []
      <-> valid_input (submitted_params f) = true
          /\ includes METHODS_values (submitted_method (FormData.method f)) = true).
Proof.
  intros f.
  assert (Hfreq : FormData.frequency f = 12%positive
                  \/ FormData.frequency f = 26%positive
                  \/ FormData.frequency f = 52%positive) by (left; reflexivity).
  split; [exact Hfreq|].
  exact (validation_matches_contract f Hfreq).
Defined.

Lemma or_zero_cases (x : float) :
  (truthy x = true /\ or_zero x = x /\ is_nan x = false)
  \/ (truthy x = false /\ or_zero x = int 0 /\ is_infinity x = false
      /\ (x <? int 0) = false).
Proof.
  unfold or_zero. destruct (truthy x) eqn:T.
  - left. split; [reflexivity|]. split; [reflexivity|].
    destruct (is_nan x) eqn:N; [|reflexivity].
    destruct (nan_ltb x (int 0) N) as [E1 E2].
    unfold truthy in T. cbn [nltb Binary64.Number_float] in T.
    rewrite E1, E2 in T. discriminate T.
  - right. split; [reflexivity|]. split; [reflexivity|]. split.
    + destruct (is_infinity x) eqn:I; [|reflexivity].
      rewrite (infinity_truthy x I) in T. discriminate T.
    + unfold truthy in T. apply orb_false_iff in T. exact (proj1 T).
Qed.

(** X15.  In binary64, the submit handler takes an extra field that is
    empty or no number as 0: [validateInputs] reports the error of the
    extra payment exactly when the parsed field is an infinity or is
    below 0. *)
Theorem extra_error_cases (f : FormData.t float) :
  In "extra" (map fst (validateInputs (submitted_fields f)))
  <-> is_infinity (FormData.extra f) = true
      \/ (FormData.extra f <? int 0) = true.
Proof.
  set (i := submitted_fields f).
  assert (Hin : In "extra" (map fst (validateInputs i))
                <-> (negb (isFinite (Fields.extra i))
                     || (Fields.extra i <? int 0))%bool = true).
  { unfold validateInputs.
    destruct (negb (isFinite (Fields.principal i)) || (Fields.principal i <=? int 0))%bool;
      destruct (negb (isFinite (Fields.rate i)) || (Fields.rate i <? int 0)
                || (Fields.rate i >? int 100))%bool;
      destruct (negb (isFinite (Fields.years i)) || (Fields.years i <=? int 0))%bool;
      destruct (negb (isFinite (Fields.extra i)) || (Fields.extra i <? int 0))%bool;
      destruct (negb (includes METHODS_values _));
      cbn [push app map fst In]; split; intros E;
      try reflexivity; try discriminate E;
      repeat (destruct E as [E | E]; try discriminate E); auto 10. }
  rewrite Hin. subst i. cbn [submitted_fields Fields.extra].
  cbn [isFinite nltb Binary64.Number_float]. unfold is_finite.
  destruct (or_zero_cases (FormData.extra f))
    as [(_ & -> & N) | (_ & -> & I & L)].
  - rewrite N. cbn [orb]. rewrite negb_involutive.
    cbn [nltb Binary64.Number_float]. apply orb_true_iff.
  - cbn [nltb Binary64.Number_float] in L. rewrite I, L.
    split; [intros E; vm_compute in E; discriminate E|].
    intros [E | E]; discriminate E.
Qed.

End FloatValidation.

(** ** The page *)

Section PageFacts.

Context {num : Type} `{Number num} `{MathAbs num}.
Local Open Scope num_scope.

Variable fc : num -> string.
Variable fn : num -> string.

Lemma rows_pushed (schedule : list (Entry.t num)) (body : list (list string)) :
  fold_left (fun body entry => push body (table_row fc entry)) schedule body
  = (body ++ map (table_row fc) schedule)%list.
Proof.
  revert body. induction schedule as [|e sch IH]; intros body; cbn [fold_left map].
  - rewrite app_nil_r. reflexivity.
  - rewrite IH. unfold push. rewrite <- app_assoc. reflexivity.
Qed.

Lemma renderSchedule_body (schedule : list (Entry.t num)) (pg : Page.t num) :
  Page.scheduleBody (renderSchedule fc schedule pg) = map (table_row fc) schedule.
Proof.
  unfold renderSchedule. cbn [Page.scheduleBody].
  destruct schedule as [|e sch]; [reflexivity|].
  cbn [List.length Nat.eqb]. apply rows_pushed.
Qed.

Lemma length_zero_test {A : Type} (l : list A) :
  (List.length l =? 0)%nat = false <-> l <> [].
Proof.
  destruct l; cbn; split; try congruence; try discriminate.
Qed.

(** What a rejected submission does. *)
Lemma on_submit_rejected (f : FormData.t num) (pg : Page.t num) :
  validateInputs (submitted_fields f) <> [] ->
  on_submit_event fc f pg
  = Page.mk true true
      (Page.scheduleWrapper_expanded pg) (Page.scheduleBody pg)
      (Page.paymentAmount pg) (Page.totalPaid pg) (Page.totalInterest pg)
      (Page.payoffTime pg)
      (showErrors (validateInputs (submitted_fields f))
         (clearErrors (Page.errorMessages pg)))
      (Page.globals pg).
Proof.
  intros Hbad. unfold on_submit_event.
  destruct (validateInputs (submitted_fields f)); [contradiction|reflexivity].
Qed.

(** What an accepted submission does. *)
Lemma on_submit_accepted (f : FormData.t num) (pg : Page.t num) :
  validateInputs (submitted_fields f) = [] ->
  on_submit_event fc f pg
  = Page.mk false
      ((List.length (schedule (calculateLoan (submitted_params f))) =? 0)%nat)
      false
      (map (table_row fc) (schedule (calculateLoan (submitted_params f))))
      (paymentText fc (paymentInfo (summary (calculateLoan (submitted_params f)))))
      (fc (totalPaid (summary (calculateLoan (submitted_params f)))))
      (fc (totalInterest (summary (calculateLoan (submitted_params f)))))
      (payoffLabel (summary (calculateLoan (submitted_params f))))
      (clearErrors (Page.errorMessages pg))
      {| lastSchedule := schedule (calculateLoan (submitted_params f));
         lastSummary := Some (summary (calculateLoan (submitted_params f))) |}.
Proof.
  intros Hok. unfold on_submit_event.
  rewrite Hok. cbn [List.length Nat.ltb Nat.leb]. cbv zeta.
  rewrite renderSchedule_body. reflexivity.
Qed.

Lemma page_step_table (pg : Page.t num) (ev : PageEvent num) :
  table_current fc pg -> table_current fc (page_step fc pg ev).
Proof.
  intros Hpg. destruct ev as [f | | now | ]; cbn [page_step].
  - destruct (validateInputs (submitted_fields f)) as [|e es] eqn:Hv.
    + rewrite (on_submit_accepted f pg Hv).
      unfold table_current.
      cbn [Page.schedulePanel_hidden Page.resultsPanel_hidden Page.scheduleBody
           Page.globals lastSchedule].
      intros Hshown. apply length_zero_test in Hshown. auto.
    + rewrite (on_submit_rejected f pg) by (rewrite Hv; discriminate).
      unfold table_current. cbn [Page.schedulePanel_hidden].
      intros E. discriminate E.
  - unfold on_toggle. destruct (negb (Page.schedulePanel_hidden pg)); exact Hpg.
  - exact Hpg.
  - unfold table_current, on_reset. cbn [Page.schedulePanel_hidden].
    intros E. discriminate E.
Qed.

(** X18.  If the schedule panel, when visible, shows exactly the rows of
    [lastSchedule], a non-empty schedule, beside a visible results
    panel, then it still does after any sequence of submissions, toggle,
    download and reset clicks: what the table shows is what a download
    exports. *)
Theorem table_stays_current (pg : Page.t num) (history : list (PageEvent num)) :
  table_current fc pg -> table_current fc (page_after fc pg history).
Proof.
  revert pg. induction history as [|ev rest IH]; intros pg Hpg; [exact Hpg|].
  cbn [page_after fold_left]. apply IH. apply page_step_table, Hpg.
Qed.

(** X19.  A submission that validation rejects hides both panels but
    leaves [lastSchedule], [lastSummary] and the table body as they
    were: a download click after it saves the same file as before. *)
Theorem rejected_submission_keeps_export (f : FormData.t num) (pg : Page.t num)
  (now : string) :
  validateInputs (submitted_fields f) <> [] ->
  Page.resultsPanel_hidden (on_submit_event fc f pg) = true
  /\ Page.schedulePanel_hidden (on_submit_event fc f pg) = true
  /\ Page.globals (on_submit_event fc f pg) = Page.globals pg
  /\ Page.scheduleBody (on_submit_event fc f pg) = Page.scheduleBody pg
  /\ on_download fn now (on_submit_event fc f pg) = on_download fn now pg.
Proof.
  intros Hbad. rewrite (on_submit_rejected f pg Hbad).
  repeat split.
Qed.

Lemma clearErrors_blank (els : list ErrorEl.t) :
  Forall (fun el => ErrorEl.textContent el = EmptyString) (clearErrors els).
Proof.
  unfold clearErrors. apply Forall_forall. intros el Hin.
  apply in_map_iff in Hin. destruct Hin as (el0 & <- & _). reflexivity.
Qed.

Lemma clearErrors_message_for (key : string) (els : list ErrorEl.t) :
  message_for key (clearErrors els)
  = match message_for key els with
    | Some _ => Some EmptyString
    | None => None
    end.
Proof.
  induction els as [|el rest IH]; [reflexivity|].
  cbn [clearErrors map message_for ErrorEl.data_for ErrorEl.textContent].
  destruct (ErrorEl.data_for el) as [k|]; [|exact IH].
  destruct (String.eqb k key); [reflexivity | exact IH].
Qed.

Lemma show_error_messages (errors : Errors) (key message : string)
  (els : list ErrorEl.t) :
  In (key, message) errors ->
  messages_from errors els -> messages_from errors (show_error key message els).
Proof.
  intros Hin. unfold messages_from.
  induction els as [|el rest IH]; intros Hall; [constructor|].
  apply Forall_cons_iff in Hall. destruct Hall as [Hel Hrest].
  cbn [show_error]. destruct (ErrorEl.data_for el) as [k|] eqn:Ek.
  - destruct (String.eqb_spec k key) as [-> | Hne].
    + constructor; [|exact Hrest]. right. exists key.
      cbn [ErrorEl.data_for ErrorEl.textContent]. auto.
    + constructor; [rewrite Ek; exact Hel | apply IH, Hrest].
  - constructor; [rewrite Ek; exact Hel | apply IH, Hrest].
Qed.

Lemma showErrors_messages (errors shown : Errors) (els : list ErrorEl.t) :
  incl shown errors ->
  messages_from errors els -> messages_from errors (showErrors shown els).
Proof.
  unfold showErrors. revert els.
  induction shown as [|[key message] rest IH]; intros els Hincl Hels; [exact Hels|].
  cbn [fold_left fst snd]. apply IH.
  - intros x Hx. apply Hincl. right. exact Hx.
  - apply show_error_messages; [|exact Hels]. apply Hincl. left. reflexivity.
Qed.

Lemma show_error_message_for (key message key' : string) (els : list ErrorEl.t) :
  message_for key' (show_error key message els)
  = if String.eqb key' key
    then match message_for key' els with
         | Some _ => Some message
         | None => None
         end
    else message_for key' els.
Proof.
  induction els as [|el rest IH].
  - cbn. destruct (String.eqb key' key); reflexivity.
  - cbn [show_error message_for].
    destruct (ErrorEl.data_for el) as [k|] eqn:Ek.
    + destruct (String.eqb_spec k key) as [-> | Hne].
      * cbn [message_for ErrorEl.data_for ErrorEl.textContent].
        rewrite (String.eqb_sym key' key).
        destruct (String.eqb key key'); reflexivity.
      * cbn [message_for]. rewrite Ek.
        destruct (String.eqb_spec k key') as [-> | Hne'].
        -- destruct (String.eqb_spec key' key) as [-> | _];
             [contradiction | reflexivity].
        -- exact IH.
    + cbn [message_for]. rewrite Ek. exact IH.
Qed.

Lemma showErrors_other (key : string) (shown : Errors) (els : list ErrorEl.t) :
  ~ In key (map fst shown) ->
  message_for key (showErrors shown els) = message_for key els.
Proof.
  unfold showErrors. revert els.
  induction shown as [|[k m] rest IH]; intros els Hnot; [reflexivity|].
  cbn [fold_left fst snd]. rewrite IH.
  - rewrite show_error_message_for.
    destruct (String.eqb_spec key k) as [-> | _]; [|reflexivity].
    exfalso. apply Hnot. left. reflexivity.
  - intros Hin. apply Hnot. right. exact Hin.
Qed.

Lemma showErrors_shown (key message : string) (shown : Errors)
  (els : list ErrorEl.t) :
  NoDup (map fst shown) ->
  In (key, message) shown ->
  message_for key (showErrors shown els)
  = match message_for key els with
    | Some _ => Some message
    | None => None
    end.
Proof.
  revert els.
  induction shown as [|[k m] rest IH]; intros els Hnodup Hin; [destruct Hin|].
  cbn [map fst] in Hnodup. apply NoDup_cons_iff in Hnodup.
  destruct Hnodup as [Hk Hrest].
  change (showErrors ((k, m) :: rest) els)
    with (showErrors rest (show_error k m els)).
  destruct Hin as [E | Hin].
  - injection E as -> ->.
    rewrite (showErrors_other key rest _ Hk), show_error_message_for.
    rewrite String.eqb_refl. reflexivity.
  - rewrite (IH _ Hrest Hin), show_error_message_for.
    destruct (String.eqb_spec key k) as [-> | _]; [|reflexivity].
    exfalso. apply Hk. apply in_map_iff. exists (k, message). auto.
Qed.

(** X20.  After a submission every error element is blank or shows a
    message of this submission's validation for its own key; every
    error reported has its message in the element selected for its key,
    if the document has one; and after an accepted submission every
    error element is blank.  Messages of earlier submissions never
    remain. *)
Theorem error_messages_current (f : FormData.t num) (pg : Page.t num) :
  let errors := validateInputs (submitted_fields f) in
  let shown := Page.errorMessages (on_submit_event fc f pg) in
  messages_from errors shown
  /\ (forall key message,
        In (key, message) errors ->
        message_for key shown
        = match message_for key (Page.errorMessages pg) with
          | Some _ => Some message
          | None => None
          end)
  /\ (errors = [] ->
      Forall (fun el => ErrorEl.textContent el = EmptyString) shown).
Proof.
  intros errors shown.
  assert (Hblank : messages_from errors (clearErrors (Page.errorMessages pg))).
  { unfold messages_from. eapply Forall_impl; [|apply clearErrors_blank].
    intros el E. left. exact E. }
  destruct errors as [|e es] eqn:Herr.
  - subst shown. rewrite (on_submit_accepted f pg Herr).
    cbn [Page.errorMessages].
    split; [exact Hblank|]. split; [intros key message []|].
    intros _. apply clearErrors_blank.
  - subst shown.
    rewrite (on_submit_rejected f pg) by (fold errors; rewrite Herr; discriminate).
    cbn [Page.errorMessages]. fold errors. rewrite Herr.
    split; [apply showErrors_messages; [apply incl_refl | exact Hblank]|].
    split; [|intros E; discriminate E].
    intros key message Hin.
    rewrite showErrors_shown with (message := message);
      [|rewrite <- Herr; apply validateInputs_keys | exact Hin].
    rewrite clearErrors_message_for.
    destruct (message_for key (Page.errorMessages pg)); reflexivity.
Qed.

Lemma csv_line_split (line : list string) :
  line <> [] -> cells_clean line = true ->
  split_on comma (join (String comma EmptyString) line) = line
  /\ free_of line_feed (join (String comma EmptyString) line) = true.
Proof.
  intros Hne Hclean. unfold cells_clean in Hclean.
  rewrite forallb_forall in Hclean. split.
  - apply split_on_join; [exact Hne|]. apply forallb_forall.
    intros cell Hin. specialize (Hclean cell Hin).
    apply andb_prop in Hclean. exact (proj1 Hclean).
  - apply free_of_join; [reflexivity|]. apply forallb_forall.
    intros cell Hin. specialize (Hclean cell Hin).
    apply andb_prop in Hclean. exact (proj2 Hclean).
Qed.

Lemma csv_lines_split (lines : list (list string)) :
  lines <> [] ->
  Forall (fun line => line <> [] /\ cells_clean line = true) lines ->
  map (split_on comma)
    (split_on line_feed
       (join (String line_feed EmptyString)
          (map (join (String comma EmptyString)) lines)))
  = lines.
Proof.
  intros Hne Hall.
  rewrite split_on_join.
  - rewrite map_map. rewrite <- (map_id lines) at 2.
    apply map_ext_in. intros line Hin.
    rewrite Forall_forall in Hall. destruct (Hall line Hin) as [H1 H2].
    exact (proj1 (csv_line_split line H1 H2)).
  - destruct lines; [contradiction|discriminate].
  - apply forallb_forall. intros text Hin.
    apply in_map_iff in Hin. destruct Hin as (line & <- & Hin).
    rewrite Forall_forall in Hall. destruct (Hall line Hin) as [H1 H2].
    exact (proj2 (csv_line_split line H1 H2)).
Qed.

Lemma csv_row_clean (entry : Entry.t num) :
  (forall x, free_of comma (fn x) = true) ->
  (forall x, free_of line_feed (fn x) = true) ->
  cells_clean (csv_row fn entry) = true.
Proof.
  intros Hc Hl. unfold cells_clean, csv_row, formatNumber. cbn [forallb].
  rewrite !Hc, !Hl, !Number_toString_free by reflexivity. reflexivity.
Qed.

(** X21.  When the number formatter writes neither a comma nor a line
    feed, splitting the CSV text at the line feeds and each line at the
    commas gives back the header and, for every row of the schedule, its
    five cells: the file needs no quoting. *)
Theorem csv_round_trip (schedule : list (Entry.t num)) :
  (forall x, free_of comma (fn x) = true) ->
  (forall x, free_of line_feed (fn x) = true) ->
  map (split_on comma) (split_on line_feed (csvContent fn schedule))
  = csv_header :: map (csv_row fn) schedule.
Proof.
  intros Hc Hl. unfold csvContent.
  apply csv_lines_split; [discriminate|].
  constructor; [split; [discriminate | reflexivity]|].
  apply Forall_forall. intros line Hin.
  apply in_map_iff in Hin. destruct Hin as (entry & <- & _).
  split; [discriminate | apply csv_row_clean; assumption].
Qed.

(** X22.  A download click saves nothing while [lastSchedule] is empty.
    Otherwise it saves the CSV text of [lastSchedule] after a byte order
    mark, in a file named after the date part of the time stamp, the
    text before its first T. *)
Theorem download_file (date time : string) (pg : Page.t num) :
  free_of "T" date = true ->
  (lastSchedule (Page.globals pg) = [] ->
   on_download fn (date ++ String "T" time) pg = None)
  /\ (lastSchedule (Page.globals pg) <> [] ->
      on_download fn (date ++ String "T" time) pg
      = Some {| download_name := "loan_schedule_" ++ date ++ ".csv";
                download_content :=
                  byte_order_mark
                  ++ csvContent fn (lastSchedule (Page.globals pg)) |}).
Proof.
  intros Hdate. unfold on_download.
  rewrite (split_on_piece "T" date time Hdate). cbn [hd].
  split.
  - intros ->. reflexivity.
  - intros Hne. apply length_zero_test in Hne. rewrite Hne. reflexivity.
Qed.

End PageFacts.

Section AcceptedSubmission.

Local Open Scope num_scope.
Variable fc : float -> string.

(** X17.  In binary64, after a submission that validation accepts, of a
    form whose frequency is a positive integer and whose term is a
    count, both panels are visible and the schedule is collapsed; the
    table has one row per schedule entry and at least one; the payoff
    time shown is
    [formatPayoffTime] of the number of table rows and never the label
    of the empty duration; the totals shown are the formatted sums of
    the payment and interest columns; and [lastSchedule] and
    [lastSummary] hold the calculation. *)
Theorem accepted_submission_shows_schedule (f : FormData.t float)
  (pg : Page.t float) :
  validateInputs (submitted_fields f) = [] ->
  term_is_count (submitted_params f) = true ->
  let shown := on_submit_event fc f pg in
  let calculation := calculateLoan (submitted_params f) in
  Page.resultsPanel_hidden shown = false
  /\ Page.schedulePanel_hidden shown = false
  /\ Page.scheduleWrapper_expanded shown = false
  /\ Page.scheduleBody shown = map (table_row fc) (schedule calculation)
  /\ Page.scheduleBody shown <> []
  /\ Page.payoffTime shown
     = formatPayoffTime (N.of_nat (List.length (Page.scheduleBody shown)))
         (FormData.frequency f)
  /\ Page.payoffTime shown <> "不足一个周期"
  /\ Page.totalPaid shown = fc (sum_of Entry.payment (schedule calculation))
  /\ Page.totalInterest shown = fc (sum_of Entry.interest (schedule calculation))
  /\ Page.globals shown
     = {| lastSchedule := schedule calculation;
          lastSummary := Some (summary calculation) |}.
Proof.
  intros Hok _ shown calculation. subst shown.
  rewrite (on_submit_accepted fc f pg Hok). fold calculation.
  cbn [Page.resultsPanel_hidden Page.schedulePanel_hidden
       Page.scheduleWrapper_expanded Page.scheduleBody Page.payoffTime
       Page.totalPaid Page.totalInterest Page.globals].
  assert (HP : (principal (submitted_params f) >? int 0) = true).
  { apply validateInputs_nil in Hok. destruct Hok as (Hp & _).
    apply positive_test in Hp. apply andb_prop in Hp. exact (proj2 Hp). }
  destruct (calculateLoan_run (submitted_params f))
    as (Hsch & Hpaid & Hint & Hlabel).
  destruct (engine_running_sums (submitted_params f)) as [Hsi Hsp].
  pose proof (engine_schedule_nonempty _ HP) as Hne.
  pose proof (engine_rows_numbered (submitted_params f)) as Hrows.
  unfold rows_numbered in Hrows.
  fold calculation in Hsch, Hlabel, Hpaid, Hint.
  rewrite <- Hsch in Hne, Hrows, Hsi, Hsp.
  assert (Hper : (1 <= Loop.period (fst (engine_run (submitted_params f))))%N).
  { rewrite <- Hrows. destruct (schedule calculation); [contradiction|].
    cbn [List.length]. lia. }
  split; [reflexivity|].
  split; [apply length_zero_test; exact Hne|].
  split; [reflexivity|]. split; [reflexivity|].
  split; [destruct (schedule calculation); [contradiction | discriminate]|].
  split; [rewrite length_map, Hrows; exact Hlabel|].
  split; [|split; [rewrite Hpaid, Hsp; reflexivity|
                   split; [rewrite Hint, Hsi; reflexivity | reflexivity]]].
  rewrite Hlabel.
  pose proof (formatPayoffTime_digit _ (paymentsPerYear (submitted_params f)) Hper)
    as Hd.
  intros E. rewrite E in Hd. discriminate Hd.
Qed.

End AcceptedSubmission.

(** ** Sample pages *)

Lemma two_decimals_free (c : ascii) (q : Q) :
  is_digit c = false -> Ascii.eqb "-" c = false -> Ascii.eqb "." c = false ->
  free_of c (Samples.two_decimals q) = true.
Proof.
  intros Hd Hm Hp. unfold Samples.two_decimals.
  rewrite !free_of_append, !Number_toString_free by exact Hd.
  cbn [free_of andb]. rewrite Hp.
  destruct (Qle_bool 0 q); cbn [free_of andb negb]; [|rewrite Hm]; reflexivity.
Qed.

Lemma accepted_submission_shows_schedule_witness :
  let f := Samples.one_year_form METHODS.AMORTIZED in
  let fc := Samples.two_decimals64 in
  let shown := on_submit_event fc f Samples.blank_page in
  let calculation := calculateLoan (submitted_params f) in
  validateInputs (submitted_fields f) = []
  /\ term_is_count (submitted_params f) = true
  /\ Page.resultsPanel_hidden shown = false
  /\ Page.schedulePanel_hidden shown = false
  /\ Page.scheduleWrapper_expanded shown = false
  /\ Page.scheduleBody shown = map (table_row fc) (schedule calculation)
  /\ Page.scheduleBody shown <> []
  /\ Page.payoffTime shown
     = formatPayoffTime (N.of_nat (List.length (Page.scheduleBody shown)))
         (FormData.frequency f)
  /\ Page.payoffTime shown <> "不足一个周期"
  /\ Page.totalPaid shown = fc (sum_of Entry.payment (schedule calculation))
  /\ Page.totalInterest shown = fc (sum_of Entry.interest (schedule calculation))
  /\ Page.globals shown
     = {| lastSchedule := schedule calculation;
          lastSummary := Some (summary calculation) |}.
Proof.
  intros f fc shown calculation.
  assert (Hok : validateInputs (submitted_fields f) = [])
    by (vm_compute; reflexivity).
  assert (Hterm : term_is_count (submitted_params f) = true)
    by (vm_compute; reflexivity).
  split; [exact Hok|]. split; [exact Hterm|].
  exact (accepted_submission_shows_schedule fc f Samples.blank_page Hok Hterm).
Defined.


(** The page that shows the schedule of 100000 at 5% over one year,
    after a toggle, a rejected submission, a download, a submission of
    the same loan by the equal-principal method and another toggle: the
    table is visible before and after, and shows what a download would
    export. *)
Lemma table_stays_current_witness :
  let fc := Samples.two_decimals64 in
  let shown := on_submit_event fc (Samples.one_year_form METHODS.AMORTIZED)
                 Samples.blank_page in
  let history := [ToggleClicked;
                  Submit Samples.negative_amount_form;
                  DownloadClicked "2024-05-01T08:30:00.000Z";
                  Submit (Samples.one_year_form METHODS.EQUAL_PRINCIPAL);
                  ToggleClicked] in
  Page.schedulePanel_hidden shown = false
  /\ table_current fc shown
  /\ Page.schedulePanel_hidden (page_after fc shown history) = false
  /\ Page.scheduleWrapper_expanded (page_after fc shown history) = true
  /\ List.length (Page.scheduleBody (page_after fc shown history)) = 12%nat
  /\ table_current fc (page_after fc shown history).
Proof.
  intros fc shown history.
  assert (Hshown : table_current fc shown).
  { intros _. split; [vm_compute; reflexivity|].
    split; [vm_compute; discriminate | vm_compute; reflexivity]. }
  split; [vm_compute; reflexivity|]. split; [exact Hshown|].
  split; [vm_compute; reflexivity|]. split; [vm_compute; reflexivity|].
  split; [vm_compute; reflexivity|].
  exact (table_stays_current fc shown history Hshown).
Defined.

(** A negative amount, submitted after a calculation. *)
Lemma rejected_submission_keeps_export_witness :
  let fc := Samples.two_decimals64 in
  let f := Samples.negative_amount_form in
  let pg := on_submit_event fc (Samples.one_year_form METHODS.AMORTIZED)
              Samples.blank_page in
  let now := "2024-05-01T08:30:00.000Z" in
  validateInputs (submitted_fields f) <> []
  /\ Page.resultsPanel_hidden (on_submit_event fc f pg) = true
  /\ Page.schedulePanel_hidden (on_submit_event fc f pg) = true
  /\ Page.globals (on_submit_event fc f pg) = Page.globals pg
  /\ Page.scheduleBody (on_submit_event fc f pg) = Page.scheduleBody pg
  /\ on_download fc now (on_submit_event fc f pg) = on_download fc now pg.
Proof.
  intros fc f pg now.
  assert (Hbad : validateInputs (submitted_fields f) <> [])
    by (vm_compute; discriminate).
  split; [exact Hbad|].
  exact (rejected_submission_keeps_export fc fc f pg now Hbad).
Defined.

Lemma csv_round_trip_witness :
  let fn := Samples.two_decimals64 in
  let schedule := schedule (calculateLoan (Inputs.one_year METHODS.AMORTIZED)) in
  (forall x, free_of comma (fn x) = true)
  /\ (forall x, free_of line_feed (fn x) = true)
  /\ map (split_on comma) (split_on line_feed (csvContent fn schedule))
     = csv_header :: map (csv_row fn) schedule.
Proof.
  intros fn schedule.
  assert (Hc : forall x, free_of comma (fn x) = true)
    by (intros x; apply two_decimals_free; reflexivity).
  assert (Hl : forall x, free_of line_feed (fn x) = true)
    by (intros x; apply two_decimals_free; reflexivity).
  split; [exact Hc|]. split; [exact Hl|].
  exact (csv_round_trip fn schedule Hc Hl).
Defined.


(** A download click on the page that shows the schedule of 100000 at
    5% over one year, and one on the blank page. *)
Lemma download_file_witness :
  let fn := Samples.two_decimals64 in
  let shown := on_submit_event fn (Samples.one_year_form METHODS.AMORTIZED)
                 Samples.blank_page in
  free_of "T" "2024-05-01" = true
  /\ lastSchedule (Page.globals shown) <> []
  /\ on_download fn "2024-05-01T08:30:00.000Z" shown
     = Some {| download_name := "loan_schedule_2024-05-01.csv";
               download_content :=
                 byte_order_mark
                 ++ csvContent fn (lastSchedule (Page.globals shown)) |}
  /\ on_download fn "2024-05-01T08:30:00.000Z" Samples.blank_page = None.
Proof.
  intros fn shown.
  assert (Hdate : free_of "T" "2024-05-01" = true) by reflexivity.
  assert (Hrows : lastSchedule (Page.globals shown) <> [])
    by (vm_compute; discriminate).
  split; [exact Hdate|]. split; [exact Hrows|]. split.
  - exact (proj2 (download_file fn "2024-05-01" "08:30:00.000Z" shown Hdate)
             Hrows).
  - exact (proj1 (download_file fn "2024-05-01" "08:30:00.000Z"
                    Samples.blank_page Hdate) eq_refl).
Defined.

(** The first lines of the CSV file of 100000 at 5% over one year. *)
Example csv_first_lines :
  firstn 2 (split_on line_feed
              (csvContent Samples.two_decimals64
                 (schedule (calculateLoan (Inputs.one_year METHODS.AMORTIZED)))))
  = ["期数,当期还款,本金,利息,剩余本金"; "1,8560.75,8144.08,416.67,91855.92"].
Proof. vm_compute. reflexivity. Qed.
